(** * spec-z: the provenance-tracked [Spectrum] model and its operations

    A shallow embedding of [specz/spectrum.py], [specz/operations.py],
    [specz/converters.py] and [specz/provenance.py].

    - Python objects that are shared by reference (numpy arrays, the metadata
      dict, the provenance list) live in a store; a [Spectrum] holds
      references to them.
    - Exceptions and the store are threaded by a small state-and-error monad.
    - [float64] values are Rocq's primitive binary64 floats, so that numpy's
      elementwise arithmetic, comparisons and NaN behave as in IEEE 754.
    - [datetime.now()] reads a clock that is part of the state. *)

From Stdlib Require Import ZArith Floats Lia.
From stdpp Require Import base list strings gmap.

Set Warnings "-inexact-float".
Set Default Proof Using "Type".

Open Scope string_scope.
Open Scope list_scope.

(** ** Values, records and the store *)

(** Scalars found in metadata and in the [details] of a provenance record. *)
Inductive value :=
  | VNone
  | VBool (b : bool)
  | VInt (z : Z)
  | VFloat (f : float)
  | VStr (s : string)
  | VTime (t : nat).

(** [{"operation": ..., "timestamp": ..., "details": ...}].  A timestamp is
    the index of the clock reading that produced it. *)
Record prov_record := ProvRecord {
  operation : string;
  timestamp : nat;
  details : list (string * value)
}.

(** A reference: the index of an object in the store. *)
Abbreviation loc := nat.

Inductive obj :=
  | OArr (xs : list float)
  | ODict (d : gmap string value)
  | OList (rs : list prov_record).

Record world := World {
  heap : list obj;
  clock : nat
}.

Inductive exn :=
  | ValueError (msg : string)
  | NotImplementedError (msg : string)
  | KeyError (key : string)
  | IndexError
  | TypeError.

Inductive outcome (A : Type) :=
  | Ok (a : A)
  | Raise (e : exn).
Arguments Ok {A} a.
Arguments Raise {A} e.

(** ** The monad *)

Definition M (A : Type) : Type := world -> outcome A * world.

#[global] Instance M_ret : MRet M := fun A a w => (Ok a, w).
#[global] Instance M_bind : MBind M := fun A B f m w =>
  match m w with
  | (Ok a, w') => f a w'
  | (Raise e, w') => (Raise e, w')
  end.

Definition raise {A} (e : exn) : M A := fun w => (Raise e, w).

Definition alloc (o : obj) : M loc := fun w =>
  (Ok (length (heap w)), World (heap w ++ [o]) (clock w)).

Definition read_arr (l : loc) : M (list float) := fun w =>
  match heap w !! l with
  | Some (OArr xs) => (Ok xs, w)
  | _ => (Raise TypeError, w)
  end.

Definition read_dict (l : loc) : M (gmap string value) := fun w =>
  match heap w !! l with
  | Some (ODict d) => (Ok d, w)
  | _ => (Raise TypeError, w)
  end.

Definition read_list (l : loc) : M (list prov_record) := fun w =>
  match heap w !! l with
  | Some (OList rs) => (Ok rs, w)
  | _ => (Raise TypeError, w)
  end.

Definition write (l : loc) (o : obj) : M unit := fun w =>
  (Ok tt, World (<[l := o]> (heap w)) (clock w)).

(** [datetime.now().isoformat()]: the next reading of the clock.  A reading
    is known by its index; two readings may show the same wall-clock time, or
    the later one an earlier time. *)
Definition now : M nat := fun w =>
  (Ok (clock w), World (heap w) (S (clock w))).

(** [lst.append(r)]: in place, on the list object itself. *)
Definition list_append (l : loc) (r : prov_record) : M unit :=
  rs ← read_list l; write l (OList (rs ++ [r])).

(** ** spectrum.py *)

Record Spectrum := MkSpectrum {
  wavelength : loc;
  flux : loc;
  wavelength_unit : string;
  flux_unit : string;
  metadata : loc;
  provenance : loc;
  name : option string
}.

(** What a caller may pass where an array is expected: an existing float64
    ndarray, or a plain sequence of numbers. *)
Inductive arraylike :=
  | ArrRef (l : loc)
  | ArrSeq (xs : list float).

(** [np.asarray(a, dtype=float)]: a float64 ndarray is returned as it is (no
    copy); a sequence becomes a new array. *)
Definition np_asarray (a : arraylike) : M loc :=
  match a with
  | ArrRef l => _ ← read_arr l; mret l
  | ArrSeq xs => alloc (OArr xs)
  end.

(** [metadata or {}] *)
Definition or_new_dict (md : option loc) : M loc :=
  match md with
  | None => alloc (ODict ∅)
  | Some l =>
      d ← read_dict l;
      if Nat.eqb (size d) 0 then alloc (ODict ∅) else mret l
  end.

(** [provenance or []] *)
Definition or_new_list (pv : option loc) : M loc :=
  match pv with
  | None => alloc (OList [])
  | Some l =>
      rs ← read_list l;
      match rs with
      | [] => alloc (OList [])
      | _ :: _ => mret l
      end
  end.

Definition _add_provenance (self : Spectrum) (op : string)
    (dt : list (string * value)) : M unit :=
  t ← now;
  list_append (provenance self) (ProvRecord op t dt).

Definition __init__ (wl fl : arraylike) (wu fu : string)
    (md pv : option loc) (nm : option string) : M Spectrum :=
  wl' ← np_asarray wl;
  fl' ← np_asarray fl;
  xs ← read_arr wl';
  ys ← read_arr fl';
  if negb (Nat.eqb (length xs) (length ys)) then
    raise (ValueError "Wavelength and flux arrays must have the same length")
  else
    md' ← or_new_dict md;
    pv' ← or_new_list pv;
    let self := MkSpectrum wl' fl' wu fu md' pv' nm in
    t ← now;
    _ ← _add_provenance self "created" [("timestamp", VTime t)];
    mret self.

(** [arr.copy()] *)
Definition ndarray_copy (l : loc) : M loc :=
  xs ← read_arr l; alloc (OArr xs).

(** [copy.deepcopy(d)] of a dict of scalars. *)
Definition deepcopy_dict (l : loc) : M loc :=
  d ← read_dict l; alloc (ODict d).

(** [copy.deepcopy(lst)] of a list of records. *)
Definition deepcopy_list (l : loc) : M loc :=
  rs ← read_list l; alloc (OList rs).

Definition copy (self : Spectrum) : M Spectrum :=
  wl ← ndarray_copy (wavelength self);
  fl ← ndarray_copy (flux self);
  md ← deepcopy_dict (metadata self);
  pv ← deepcopy_list (provenance self);
  __init__ (ArrRef wl) (ArrRef fl) (wavelength_unit self) (flux_unit self)
    (Some md) (Some pv) (name self).

(** [arr[mask]] with a boolean mask: the mask must be as long as the array. *)
Definition np_mask_select (xs : list float) (mask : list bool)
    : outcome (list float) :=
  if Nat.eqb (length xs) (length mask) then
    Ok (fst <$> filter (fun p => snd p = true) (zip xs mask))
  else Raise IndexError.

Definition lift {A} (o : outcome A) : M A := fun w => (o, w).

(** [(wl >= wl_min) & (wl <= wl_max)], elementwise. *)
Definition range_mask (wl : list float) (wl_min wl_max : float) : list bool :=
  (fun x => PrimFloat.leb wl_min x && PrimFloat.leb x wl_max) <$> wl.

Definition get_range (self : Spectrum) (wl_min wl_max : float) : M Spectrum :=
  xs ← read_arr (wavelength self);
  let mask := range_mask xs wl_min wl_max in
  sel_wl ← lift (np_mask_select xs mask);
  wl ← alloc (OArr sel_wl);
  ys ← read_arr (flux self);
  sel_fl ← lift (np_mask_select ys mask);
  fl ← alloc (OArr sel_fl);
  md ← deepcopy_dict (metadata self);
  pv ← deepcopy_list (provenance self);
  new_spectrum ← __init__ (ArrRef wl) (ArrRef fl) (wavelength_unit self)
                   (flux_unit self) (Some md) (Some pv) (name self);
  _ ← _add_provenance new_spectrum "range_extraction"
        [("wl_min", VFloat wl_min); ("wl_max", VFloat wl_max)];
  mret new_spectrum.

(** The dict of [to_dict] / [from_dict]; a field is [None] when the key is
    absent.  The two arrays are plain lists of numbers; metadata and
    provenance are references. *)
Record sdict := MkSdict {
  d_wavelength : option (list float);
  d_flux : option (list float);
  d_wavelength_unit : option string;
  d_flux_unit : option string;
  d_metadata : option loc;
  d_provenance : option loc;
  d_name : option string
}.

Definition to_dict (self : Spectrum) : M sdict :=
  xs ← read_arr (wavelength self);
  ys ← read_arr (flux self);
  mret (MkSdict (Some xs) (Some ys) (Some (wavelength_unit self))
          (Some (flux_unit self)) (Some (metadata self))
          (Some (provenance self)) (name self)).

(** [data[key]] *)
Definition getitem {A} (key : string) (field : option A) : M A :=
  match field with
  | Some a => mret a
  | None => raise (KeyError key)
  end.

(** [data.get(key, default)]; the default is evaluated before the call. *)
Definition get_or {A} (field : option A) (dflt : A) : A :=
  match field with
  | Some a => a
  | None => dflt
  end.

Definition from_dict (data : sdict) : M Spectrum :=
  xs ← getitem "wavelength" (d_wavelength data);
  wl ← alloc (OArr xs);
  ys ← getitem "flux" (d_flux data);
  fl ← alloc (OArr ys);
  let wu := get_or (d_wavelength_unit data) "nm" in
  let fu := get_or (d_flux_unit data) "counts" in
  md0 ← alloc (ODict ∅);
  let md := get_or (d_metadata data) md0 in
  pv0 ← alloc (OList []);
  let pv := get_or (d_provenance data) pv0 in
  __init__ (ArrRef wl) (ArrRef fl) wu fu (Some md) (Some pv) (d_name data).

(** *** SpectrumCollection *)

(** A Python [dict] keeps its keys in the order of their first insertion:
    [d[k] = v] replaces the value of an existing key where it is and puts a
    new key at the end; [del d[k]] fails on a missing key. *)
Fixpoint dict_setitem {A} (d : list (string * A)) (k : string) (v : A)
    : list (string * A) :=
  match d with
  | [] => [(k, v)]
  | (k', v') :: d' =>
      if String.eqb k' k then (k', v) :: d'
      else (k', v') :: dict_setitem d' k v
  end.

Fixpoint dict_get {A} (d : list (string * A)) (k : string) : option A :=
  match d with
  | [] => None
  | (k', v') :: d' => if String.eqb k' k then Some v' else dict_get d' k
  end.

Definition dict_contains {A} (d : list (string * A)) (k : string) : bool :=
  match dict_get d k with
  | Some _ => true
  | None => false
  end.

Fixpoint dict_delitem {A} (d : list (string * A)) (k : string)
    : outcome (list (string * A)) :=
  match d with
  | [] => Raise (KeyError k)
  | (k', v') :: d' =>
      if String.eqb k' k then Ok d'
      else match dict_delitem d' k with
           | Ok d'' => Ok ((k', v') :: d'')
           | Raise e => Raise e
           end
  end.

(** A [Spectrum] object has an identity: [add_spectrum] sets the [name]
    attribute of the very object it is handed, and every holder of that
    object sees the change.  Spectrum objects therefore live in a store of
    their own, and [self.spectra] maps a key to the index of an object.  A
    reference always has its object, so an index outside the store does not
    arise; [add_spectrum] leaves the store as it is there. *)
Definition SpectrumCollection := list (string * nat).

(** [SpectrumCollection()] *)
Definition new_collection : SpectrumCollection := [].

(** [spectrum.name = nm] *)
Definition set_name (nm : string) (s : Spectrum) : Spectrum :=
  MkSpectrum (wavelength s) (flux s) (wavelength_unit s) (flux_unit s)
    (metadata s) (provenance s) (Some nm).

Definition add_spectrum (self : SpectrumCollection) (nm : string)
    (spectrum : nat) (objects : list Spectrum)
    : SpectrumCollection * list Spectrum :=
  let self' := dict_setitem self nm spectrum in
  match objects !! spectrum with
  | Some s =>
      match name s with
      | None => (self', <[spectrum := set_name nm s]> objects)
      | Some _ => (self', objects)
      end
  | None => (self', objects)
  end.

Definition get_spectrum (self : SpectrumCollection) (nm : string)
    : option nat :=
  dict_get self nm.

Definition remove_spectrum (self : SpectrumCollection) (nm : string)
    : outcome SpectrumCollection :=
  if dict_contains self nm then dict_delitem self nm else Ok self.

Definition list_spectra (self : SpectrumCollection) : list string :=
  fst <$> self.

Definition __len__ (self : SpectrumCollection) : nat := length self.

(** ** numpy *)

Module np.

Open Scope float_scope.

(** Elementwise binary operation with broadcasting of 1-d operands. *)
Definition broadcast2 (f : float -> float -> float) (xs ys : list float)
    : outcome (list float) :=
  if Nat.eqb (length xs) (length ys) then Ok (zip_with f xs ys)
  else match xs, ys with
       | [x], _ => Ok (f x <$> ys)
       | _, [y] => Ok ((fun x => f x y) <$> xs)
       | _, _ => Raise (ValueError "operands could not be broadcast together")
       end.

Definition sub := broadcast2 PrimFloat.sub.
Definition div := broadcast2 PrimFloat.div.

(** [np.array_equal(a1, a2)]: same shape and all elements [==]. *)
Fixpoint all_eq (xs ys : list float) : bool :=
  match xs, ys with
  | [], [] => true
  | x :: xs', y :: ys' => (x =? y) && all_eq xs' ys'
  | _, _ => false
  end.

Definition array_equal (xs ys : list float) : bool :=
  Nat.eqb (length xs) (length ys) && all_eq xs ys.

(** The line through [(xj, yj)] and [(xk, yk)] at [x], as [np.interp]
    evaluates it: from the left end, then from the right end when the
    first attempt is NaN. *)
Definition lerp (xj yj xk yk x : float) : float :=
  let slope := (yk - yj) / (xk - xj) in
  let r := slope * (x - xj) + yj in
  if is_nan r then
    let r2 := slope * (x - xk) + yk in
    if is_nan r2 && (yj =? yk) then yj else r2
  else r.

(** [arr[i]] for an index within the array. *)
Definition item (arr : list float) (i : Z) : float :=
  nth (Z.to_nat i) arr nan.

(** The search of [np.interp] for the interval of [key]
    ([binary_search_with_guess], compiled_base.c).  On at most 4 sample
    points it walks up from [arr[1]] while [key >= arr[i]]. *)
Fixpoint linear_search (key : float) (rest : list float) (i : Z) : Z :=
  match rest with
  | [] => (i - 1)%Z
  | a :: rest' =>
      if a <=? key then linear_search key rest' (i + 1)%Z else (i - 1)%Z
  end.

(** The bisection [while (imin < imax)].  Every step shrinks
    [imax - imin], so that many [steps] are enough ([bisect_steps]). *)
Fixpoint bisect (steps : nat) (key : float) (arr : list float)
    (imin imax : Z) : Z :=
  match steps with
  | O => (imin - 1)%Z
  | S steps' =>
      if (imin <? imax)%Z then
        let imid := (imin + Z.shiftr (imax - imin) 1)%Z in
        if item arr imid <=? key then bisect steps' key arr (imid + 1)%Z imax
        else bisect steps' key arr imin imid
      else (imin - 1)%Z
  end.

Definition LIKELY_IN_CACHE_SIZE : Z := 8.

(** Returns [len] for a key above the last sample point and [-1] for one
    below the first; otherwise it looks next to [guess], the interval of the
    previous key, before it bisects. *)
Definition binary_search_with_guess (key : float) (arr : list float)
    (guess : Z) : Z :=
  let len := Z.of_nat (length arr) in
  if item arr (len - 1) <? key then len
  else if key <? item arr 0 then (-1)%Z
  else if (len <=? 4)%Z then linear_search key (List.tl arr) 1
  else
    let guess := if (len - 3 <? guess)%Z then (len - 3)%Z else guess in
    let guess := if (guess <? 1)%Z then 1%Z else guess in
    let search imin imax :=
      bisect (Z.to_nat (imax - imin)) key arr imin imax in
    if key <? item arr guess then
      if key <? item arr (guess - 1) then
        let imax := (guess - 1)%Z in
        let imin :=
          if (LIKELY_IN_CACHE_SIZE <? guess)%Z
             && (item arr (guess - LIKELY_IN_CACHE_SIZE) <=? key)
          then (guess - LIKELY_IN_CACHE_SIZE)%Z else 0%Z in
        search imin imax
      else (guess - 1)%Z
    else if key <? item arr (guess + 1) then guess
    else if key <? item arr (guess + 2) then (guess + 1)%Z
    else
      let imin := (guess + 2)%Z in
      let imax :=
        if (guess <? len - LIKELY_IN_CACHE_SIZE - 1)%Z
           && (key <? item arr (guess + LIKELY_IN_CACHE_SIZE))
        then (guess + LIKELY_IN_CACHE_SIZE)%Z else len in
      search imin imax.

(** The value at [x] once its interval [j] is found: the edge values of [fp]
    outside the sample points, [fp[j]] at a sample point, the line
    otherwise. *)
Definition interp_value (xp fp : list float) (x : float) (j : Z) : float :=
  let len := Z.of_nat (length xp) in
  if (j =? -1)%Z then item fp 0
  else if (j =? len)%Z then item fp (len - 1)
  else if (j =? len - 1)%Z then item fp j
  else if item xp j =? x then item fp j
  else lerp (item xp j) (item fp j) (item xp (j + 1)) (item fp (j + 1)) x.

(** The loop over the points [x]; the interval found for one point is the
    guess for the next. *)
Fixpoint interp_loop (xp fp : list float) (j : Z) (x : list float)
    : list float :=
  match x with
  | [] => []
  | x_val :: x' =>
      if is_nan x_val then x_val :: interp_loop xp fp j x'
      else
        let j := binary_search_with_guess x_val xp j in
        interp_value xp fp x_val j :: interp_loop xp fp j x'
  end.

(** [np.interp(x, xp, fp)] with the default [left] and [right], the edge
    values of [fp]. *)
Definition interp (x xp fp : list float) : outcome (list float) :=
  match xp with
  | [] => Raise (ValueError "array of sample points is empty")
  | xp_val :: xp' =>
      if Nat.eqb (length fp) (length xp) then
        match xp' with
        | [] =>
            let fp_val := item fp 0 in
            Ok ((fun x_val => if x_val <? xp_val then fp_val
                              else if xp_val <? x_val then fp_val
                              else fp_val) <$> x)
        | _ :: _ => Ok (interp_loop xp fp 0 x)
        end
      else Raise (ValueError "fp and xp are not of the same length.")
  end.

(** [np.maximum] on two scalars: NaN wins. *)
Definition maximum (a b : float) : float :=
  if is_nan a then a else if is_nan b then b
  else if a <? b then b else a.

(** [np.max(arr)] *)
Definition max (xs : list float) : outcome float :=
  match xs with
  | [] => Raise (ValueError
      "zero-size array to reduction operation maximum which has no identity")
  | x :: xs' => Ok (fold_left maximum xs' x)
  end.

(** The unrolled loop of numpy's [pairwise_sum] (loops_utils.h) on a block of
    at least 8 terms: the running sums [r0 .. r7] take one term each from every
    further group of 8; when fewer than 8 terms are left the running sums are
    added as a balanced tree and the terms left over are added to the result
    one by one. *)
Fixpoint unrolled_sum (r0 r1 r2 r3 r4 r5 r6 r7 : float) (a : list float)
    : float :=
  match a with
  | a0 :: a1 :: a2 :: a3 :: a4 :: a5 :: a6 :: a7 :: a' =>
      unrolled_sum (r0 + a0) (r1 + a1) (r2 + a2) (r3 + a3)
                   (r4 + a4) (r5 + a5) (r6 + a6) (r7 + a7) a'
  | _ =>
      fold_left PrimFloat.add a
        (((r0 + r1) + (r2 + r3)) + ((r4 + r5) + (r6 + r7)))
  end.

(** A block of at most 128 terms: fewer than 8 terms are added from left to
    right, starting from [-0.0]. *)
Definition block_sum (a : list float) : float :=
  match a with
  | r0 :: r1 :: r2 :: r3 :: r4 :: r5 :: r6 :: r7 :: a' =>
      unrolled_sum r0 r1 r2 r3 r4 r5 r6 r7 a'
  | _ => fold_left PrimFloat.add a (-0)
  end.

(** [pairwise_sum(a, n)]: more than 128 terms are split in two at
    [n2 = n / 2 - (n / 2) % 8] and the sums of the halves are added.  Both
    halves are shorter than [a], so [depth = length a] levels are enough
    ([pairwise_sum_depth]). *)
Fixpoint pairwise_sum (depth : nat) (a : list float) : float :=
  let n := length a in
  match depth with
  | S depth' =>
      if Nat.ltb 128 n then
        let n2 := (n / 2 - (n / 2) mod 8)%nat in
        pairwise_sum depth' (take n2 a) + pairwise_sum depth' (drop n2 a)
      else block_sum a
  | O => block_sum a
  end.

(** [arr.sum()] of a float64 array, that is [np.add.reduce(arr)]: the pairwise
    sum of the terms added to the identity [-0.0]; the sum of no terms is
    [0.0].  (Releases of numpy that start from [0.0] instead give the same
    value but for the sign of a sum that is zero.) *)
Definition sum (xs : list float) : float :=
  match xs with
  | [] => 0
  | _ :: _ => -0 + pairwise_sum (length xs) xs
  end.

(** [y[1:]] and [y[:-1]] *)
Definition tail_of (ys : list float) : list float := List.tl ys.
Definition init_of (ys : list float) : list float := List.removelast ys.

(** [np.trapz(y)]: [(dx * (y[1:] + y[:-1]) / 2.0).sum()] with [dx = 1.0]. *)
Definition trapz (ys : list float) : float :=
  sum (zip_with (fun hi lo => 1.0 * (hi + lo) / 2.0) (tail_of ys) (init_of ys)).

(** [np.diff(x)] *)
Definition diff (xs : list float) : list float :=
  zip_with PrimFloat.sub (tail_of xs) (init_of xs).

(** [np.trapz(y, x)]: [(diff(x) * (y[1:] + y[:-1]) / 2.0).sum()]. *)
Definition trapz_x (ys xs : list float) : float :=
  sum (zip_with (fun d s => d * s / 2.0) (diff xs)
         (zip_with PrimFloat.add (tail_of ys) (init_of ys))).

(** [np.sort]: ascending, NaN last. *)
Definition sort_le (a b : float) : bool := is_nan b || (a <=? b).

Fixpoint sort_insert (a : float) (xs : list float) : list float :=
  match xs with
  | [] => [a]
  | b :: xs' => if sort_le a b then a :: xs else b :: sort_insert a xs'
  end.

Definition sort (xs : list float) : list float :=
  fold_right sort_insert [] xs.

(** [np.median] of an already sorted array. *)
Definition median_sorted (xs : list float) : float :=
  let n := length xs in
  if existsb is_nan xs then nan
  else match n with
       | O => nan
       | _ =>
         if Nat.even n then
           (nth (n / 2 - 1) xs nan + nth (n / 2) xs nan) / 2
         else nth (n / 2) xs nan
       end.

(** [np.where(cond, c, arr)] for a scalar [c]. *)
Definition where_ (cond : float -> bool) (c : float) (xs : list float)
    : list float :=
  (fun x => if cond x then c else x) <$> xs.

End np.

(** ** converters.py *)

Open Scope float_scope.

Definition SPEED_OF_LIGHT : float := 2.99792458e8.
Definition PLANCK_CONSTANT : float := 6.62607015e-34.
Definition ELECTRON_VOLT : float := 1.602176634e-19.

(** [unit in ['angstrom', 'Å']] *)
Definition is_angstrom (u : string) : bool :=
  String.eqb u "angstrom" || String.eqb u "Å".

Definition wavelength_to_frequency (wl : list float) (wavelength_unit : string)
    : outcome (list float) :=
  let finish (wavelength_m : list float) :=
    Ok ((fun x => SPEED_OF_LIGHT / x) <$> wavelength_m) in
  if String.eqb wavelength_unit "nm" then
    finish ((fun x => x * 1e-9) <$> wl)
  else if is_angstrom wavelength_unit then
    finish ((fun x => x * 1e-10) <$> wl)
  else if String.eqb wavelength_unit "um" then
    finish ((fun x => x * 1e-6) <$> wl)
  else if String.eqb wavelength_unit "m" then
    finish wl
  else Raise (ValueError ("Unknown wavelength unit: " ++ wavelength_unit)).

Definition frequency_to_energy (frequency : list float) (unit : string)
    : outcome (list float) :=
  let energy_j := (fun f => PLANCK_CONSTANT * f) <$> frequency in
  if String.eqb unit "eV" then Ok ((fun e => e / ELECTRON_VOLT) <$> energy_j)
  else if String.eqb unit "J" then Ok energy_j
  else Raise (ValueError ("Unknown energy unit: " ++ unit)).

Definition frequency_to_wavelength (frequency : list float)
    (target_unit : string) : outcome (list float) :=
  let wavelength_m := (fun f => SPEED_OF_LIGHT / f) <$> frequency in
  if String.eqb target_unit "nm" then Ok ((fun x => x * 1e9) <$> wavelength_m)
  else if is_angstrom target_unit then
    Ok ((fun x => x * 1e10) <$> wavelength_m)
  else if String.eqb target_unit "um" then
    Ok ((fun x => x * 1e6) <$> wavelength_m)
  else if String.eqb target_unit "m" then Ok wavelength_m
  else Raise (ValueError ("Unknown wavelength unit: " ++ target_unit)).

Definition energy_to_frequency (energy : list float) (unit : string)
    : outcome (list float) :=
  let finish (energy_j : list float) :=
    Ok ((fun e => e / PLANCK_CONSTANT) <$> energy_j) in
  if String.eqb unit "eV" then finish ((fun e => e * ELECTRON_VOLT) <$> energy)
  else if String.eqb unit "J" then finish energy
  else Raise (ValueError ("Unknown energy unit: " ++ unit)).

(** The two halves of [convert_wavelength_units] once the units differ. *)
Definition to_meters (wl : list float) (from_unit : string)
    : outcome (list float) :=
  if String.eqb from_unit "nm" then Ok ((fun x => x * 1e-9) <$> wl)
  else if is_angstrom from_unit then Ok ((fun x => x * 1e-10) <$> wl)
  else if String.eqb from_unit "um" then Ok ((fun x => x * 1e-6) <$> wl)
  else if String.eqb from_unit "m" then Ok wl
  else Raise (ValueError ("Unknown source unit: " ++ from_unit)).

Definition from_meters (wavelength_m : list float) (to_unit : string)
    : outcome (list float) :=
  if String.eqb to_unit "nm" then Ok ((fun x => x * 1e9) <$> wavelength_m)
  else if is_angstrom to_unit then Ok ((fun x => x * 1e10) <$> wavelength_m)
  else if String.eqb to_unit "um" then Ok ((fun x => x * 1e6) <$> wavelength_m)
  else if String.eqb to_unit "m" then Ok wavelength_m
  else Raise (ValueError ("Unknown target unit: " ++ to_unit)).

(** Returns its argument itself, not a copy, when the units are equal. *)
Definition convert_wavelength_units (wl : loc) (from_unit to_unit : string)
    : M loc :=
  if String.eqb from_unit to_unit then mret wl
  else
    xs ← read_arr wl;
    wavelength_m ← lift (to_meters xs from_unit);
    ys ← lift (from_meters wavelength_m to_unit);
    alloc (OArr ys).

(** [dict.copy()] and [list.copy()]: a new container with the same items. *)
Definition dict_copy (l : loc) : M loc :=
  d ← read_dict l; alloc (ODict d).

Definition list_copy (l : loc) : M loc :=
  rs ← read_list l; alloc (OList rs).

(** [str(to_unit)] inside the f-string of the error message. *)
Definition show_unit (u : option string) : string :=
  match u with
  | Some s => s
  | None => "None"
  end.

Definition is_wavelength_unit (u : string) : bool :=
  String.eqb u "nm" || String.eqb u "angstrom" || String.eqb u "Å"
  || String.eqb u "um" || String.eqb u "m".

Definition convert_units (spectrum : Spectrum) (from_unit to_unit : option string)
    (axis : string) : M Spectrum :=
  if String.eqb axis "wavelength" then
    let from_unit :=
      match from_unit with
      | None => wavelength_unit spectrum
      | Some u => u
      end in
    '(new_wavelength, new_unit) ←
      match to_unit with
      | Some u =>
          if is_wavelength_unit u then
            l ← convert_wavelength_units (wavelength spectrum) from_unit u;
            mret (l, u)
          else if String.eqb u "Hz" then
            xs ← read_arr (wavelength spectrum);
            f ← lift (wavelength_to_frequency xs from_unit);
            l ← alloc (OArr f);
            mret (l, "Hz")
          else if String.eqb u "eV" then
            xs ← read_arr (wavelength spectrum);
            freq ← lift (wavelength_to_frequency xs from_unit);
            e ← lift (frequency_to_energy freq "eV");
            l ← alloc (OArr e);
            mret (l, "eV")
          else raise (ValueError ("Unknown target unit: " ++ u))
      | None => raise (ValueError ("Unknown target unit: " ++ show_unit None))
      end;
    fl ← ndarray_copy (flux spectrum);
    md ← dict_copy (metadata spectrum);
    pv ← list_copy (provenance spectrum);
    result ← __init__ (ArrRef new_wavelength) (ArrRef fl) new_unit
               (flux_unit spectrum) (Some md) (Some pv) (name spectrum);
    _ ← _add_provenance result "unit_conversion"
          [("axis", VStr "wavelength"); ("from_unit", VStr from_unit);
           ("to_unit", VStr (show_unit to_unit))];
    mret result
  else raise (NotImplementedError "Flux unit conversion not yet implemented").

(** ** operations.py *)

(** [b.name or "unnamed"] *)
Definition name_or_unnamed (nm : option string) : string :=
  match nm with
  | None | Some "" => "unnamed"
  | Some s => s
  end.

(** The grid alignment shared by subtraction and division: the second
    spectrum's flux, interpolated onto the first one's grid when asked for and
    the grids differ. *)
Definition align_flux (spectrum_a spectrum_b : Spectrum) (interpolate : bool)
    : M (list float) :=
  awl ← read_arr (wavelength spectrum_a);
  bwl ← read_arr (wavelength spectrum_b);
  if interpolate && negb (np.array_equal awl bwl) then
    bfl ← read_arr (flux spectrum_b);
    lift (np.interp awl bwl bfl)
  else if negb (Nat.eqb (length awl) (length bwl)) then
    raise (ValueError "Spectra must have same length or use interpolate=True")
  else read_arr (flux spectrum_b).

Definition subtract_spectra (spectrum_a spectrum_b : Spectrum)
    (interpolate : bool) : M Spectrum :=
  flux_b_interp ← align_flux spectrum_a spectrum_b interpolate;
  afl ← read_arr (flux spectrum_a);
  result_flux ← lift (np.sub afl flux_b_interp);
  fl ← alloc (OArr result_flux);
  wl ← ndarray_copy (wavelength spectrum_a);
  md ← dict_copy (metadata spectrum_a);
  pv ← list_copy (provenance spectrum_a);
  result ← __init__ (ArrRef wl) (ArrRef fl) (wavelength_unit spectrum_a)
             (flux_unit spectrum_a) (Some md) (Some pv) None;
  _ ← _add_provenance result "subtraction"
        [("operand", VStr (name_or_unnamed (name spectrum_b)));
         ("interpolated", VBool interpolate)];
  mret result.

(** [base[mask] = vals]: [vals] fills the positions where [mask] holds, in
    order. *)
Fixpoint mask_fill (base : list float) (mask : list bool) (vals : list float)
    : option (list float) :=
  match base, mask with
  | [], [] => match vals with [] => Some [] | _ => None end
  | x :: base', m :: mask' =>
      if m then
        match vals with
        | v :: vals' => cons v <$> mask_fill base' mask' vals'
        | [] => None
        end
      else cons x <$> mask_fill base' mask' vals
  | _, _ => None
  end.

Definition mask_assign (base : list float) (mask : list bool)
    (vals : list float) : outcome (list float) :=
  if Nat.eqb (length base) (length mask) then
    match mask_fill base mask vals with
    | Some r => Ok r
    | None => Raise (ValueError "shape mismatch in boolean index assignment")
    end
  else Raise IndexError.

(** The three zero-handling policies of [divide_spectra]. *)
Definition divide_flux (afl flux_b_interp : list float) (handle_zeros : string)
    : outcome (list float) :=
  if String.eqb handle_zeros "mask" then
    let mask := (fun y => negb (y =? 0)) <$> flux_b_interp in
    let result_flux := (fun _ => nan) <$> afl in
    match np_mask_select afl mask with
    | Raise e => Raise e
    | Ok num =>
        match np_mask_select flux_b_interp mask with
        | Raise e => Raise e
        | Ok den =>
            match np.div num den with
            | Raise e => Raise e
            | Ok q => mask_assign result_flux mask q
            end
        end
    end
  else if String.eqb handle_zeros "nan" then
    np.div afl flux_b_interp
  else if String.eqb handle_zeros "small" then
    let flux_b_safe := np.where_ (fun y => y =? 0) 1e-10 flux_b_interp in
    np.div afl flux_b_safe
  else Raise (ValueError "handle_zeros must be 'mask', 'nan', or 'small'").

Definition divide_spectra (spectrum_a spectrum_b : Spectrum)
    (interpolate : bool) (handle_zeros : string) : M Spectrum :=
  flux_b_interp ← align_flux spectrum_a spectrum_b interpolate;
  afl ← read_arr (flux spectrum_a);
  result_flux ← lift (divide_flux afl flux_b_interp handle_zeros);
  fl ← alloc (OArr result_flux);
  wl ← ndarray_copy (wavelength spectrum_a);
  md ← dict_copy (metadata spectrum_a);
  pv ← list_copy (provenance spectrum_a);
  result ← __init__ (ArrRef wl) (ArrRef fl) (wavelength_unit spectrum_a)
             ("(" ++ flux_unit spectrum_a ++ ")/(" ++ flux_unit spectrum_b ++ ")")
             (Some md) (Some pv) None;
  _ ← _add_provenance result "division"
        [("operand", VStr (name_or_unnamed (name spectrum_b)));
         ("interpolated", VBool interpolate);
         ("handle_zeros", VStr handle_zeros)];
  mret result.

(** [int(f)] for a finite float: truncation towards zero. *)
Definition int_of_float (f : float) : Z :=
  match Prim2SF f with
  | S754_finite s m e =>
      let a := match e with
               | Zneg p => Z.shiftr (Zpos m) (Zpos p)
               | _ => Z.shiftl (Zpos m) e
               end in
      if s then Z.opp a else a
  | _ => 0%Z
  end.

(** [float(n)] for an integer. *)
Definition float_of_Z (z : Z) : float :=
  SF2Prim (binary_normalize prec emax z 0 false).

(** The scalar normalization factor of each method. *)
Definition norm_factor_of (method : string) (flux_region : list float)
    : outcome float :=
  if String.eqb method "peak" then np.max flux_region
  else if String.eqb method "area" then Ok (np.trapz flux_region)
  else if String.eqb method "continuum" then
    let sorted_flux := np.sort flux_region in
    let top_10_percent :=
      Z.to_nat (int_of_float
                  (float_of_Z (Z.of_nat (length sorted_flux)) * 0.9)) in
    Ok (np.median_sorted (drop top_10_percent sorted_flux))
  else Raise (ValueError "method must be 'peak', 'area', or 'continuum'").

Definition opt_float (o : option float) : value :=
  match o with
  | Some f => VFloat f
  | None => VNone
  end.

Definition normalize_spectrum (spectrum : Spectrum) (method : string)
    (range_min range_max : option float) : M Spectrum :=
  fl0 ← read_arr (flux spectrum);
  flux_region ←
    match range_min, range_max with
    | Some lo, Some hi =>
        wl0 ← read_arr (wavelength spectrum);
        lift (np_mask_select fl0 (range_mask wl0 lo hi))
    | _, _ => mret fl0
    end;
  norm_factor ← lift (norm_factor_of method flux_region);
  if norm_factor =? 0 then
    raise (ValueError "Cannot normalize: normalization factor is zero")
  else
    let normalized_flux := (fun x => x / norm_factor) <$> fl0 in
    fl ← alloc (OArr normalized_flux);
    wl ← ndarray_copy (wavelength spectrum);
    md ← dict_copy (metadata spectrum);
    pv ← list_copy (provenance spectrum);
    result ← __init__ (ArrRef wl) (ArrRef fl) (wavelength_unit spectrum)
               "normalized" (Some md) (Some pv) (name spectrum);
    _ ← _add_provenance result "normalization"
          [("method", VStr method); ("norm_factor", VFloat norm_factor);
           ("range_min", opt_float range_min);
           ("range_max", opt_float range_max)];
    mret result.

Section Smoothing.

(** The three scipy filters are taken as given: [savgol_filter(x, window,
    polyorder)], [uniform_filter1d(x, size)] and
    [gaussian_filter1d(x, sigma)]. *)
Variable savgol_filter : list float -> Z -> Z -> outcome (list float).
Variable uniform_filter1d : list float -> Z -> outcome (list float).
Variable gaussian_filter1d : list float -> float -> outcome (list float).

Definition smooth_spectrum (spectrum : Spectrum) (window_size : Z)
    (method : string) : M Spectrum :=
  fl0 ← read_arr (flux spectrum);
  '(smoothed_flux, window_size) ←
    (if String.eqb method "savgol" then
       let window_size :=
         if Z.eqb (window_size mod 2) 0 then (window_size + 1)%Z
         else window_size in
       r ← lift (savgol_filter fl0 window_size 3);
       mret (r, window_size)
     else if String.eqb method "boxcar" then
       r ← lift (uniform_filter1d fl0 window_size);
       mret (r, window_size)
     else if String.eqb method "gaussian" then
       r ← lift (gaussian_filter1d fl0 (float_of_Z window_size / 3));
       mret (r, window_size)
     else raise (ValueError
                   "method must be 'savgol', 'boxcar', or 'gaussian'"));
  fl ← alloc (OArr smoothed_flux);
  wl ← ndarray_copy (wavelength spectrum);
  md ← dict_copy (metadata spectrum);
  pv ← list_copy (provenance spectrum);
  result ← __init__ (ArrRef wl) (ArrRef fl) (wavelength_unit spectrum)
             (flux_unit spectrum) (Some md) (Some pv) (name spectrum);
  _ ← _add_provenance result "smoothing"
        [("method", VStr method); ("window_size", VInt window_size)];
  mret result.

End Smoothing.

(** ** provenance.py *)

Module ProvenanceTracker.

(** [self.records] is a list object of its own. *)
Record t := Mk { records : loc }.

Definition __init__ : M t :=
  l ← alloc (OList []); mret (Mk l).

Definition add_record (self : t) (op : string) (dt : list (string * value))
    : M unit :=
  ts ← now;
  list_append (records self) (ProvRecord op ts dt).

End ProvenanceTracker.

(** * Vocabulary of the statements *)

Close Scope float_scope.

(** The record every constructor call appends. *)
Definition created_record (t : nat) : prov_record :=
  ProvRecord "created" (S t) [("timestamp", VTime t)].

(** [w ⊑ w1]: every object of [w] is still there, unchanged, in [w1]. *)
Definition grows (w w1 : world) : Prop := heap w `prefix_of` heap w1.

(** What an array argument denotes in a store. *)
Definition denotes (w : world) (a : arraylike) (xs : list float) : Prop :=
  match a with
  | ArrRef l => heap w !! l = Some (OArr xs)
  | ArrSeq ys => xs = ys
  end.

(** The invariant of the data model: both arrays exist and have one length. *)
Definition invariant (w : world) (s : Spectrum) : Prop :=
  exists xs ys,
    heap w !! wavelength s = Some (OArr xs) /\
    heap w !! flux s = Some (OArr ys) /\
    length xs = length ys.

(** The ending every transform shares: copy the metadata and the log of the
    input, build the result, append the record of the transform. *)
Definition derive (wl fl : loc) (wu fu : string) (mdl pvl : loc)
    (nm : option string) (op : string) (dt : list (string * value))
    : M Spectrum :=
  md ← dict_copy mdl;
  pv ← list_copy pvl;
  result ← __init__ (ArrRef wl) (ArrRef fl) wu fu (Some md) (Some pv) nm;
  _ ← _add_provenance result op dt;
  mret result.

(** What holds of the result of [derive] run in [w], for the arrays [xs],
    [ys], the metadata [d] and the log [p] it was given. *)
Definition derived (w : world) (wl fl : loc) (wu fu : string)
    (nm : option string) (op : string) (dt : list (string * value))
    (xs ys : list float) (d : gmap string value) (p : list prov_record)
    (r : Spectrum) (w' : world) : Prop :=
  wavelength r = wl /\ flux r = fl /\
  wavelength_unit r = wu /\ flux_unit r = fu /\ name r = nm /\
  grows w w' /\
  length (heap w) <= metadata r /\ length (heap w) <= provenance r /\
  heap w' !! metadata r = Some (ODict d) /\
  heap w' !! provenance r
  = Some (OList (p ++ [created_record (clock w);
                       ProvRecord op (S (S (clock w))) dt])) /\
  clock w' = S (S (S (clock w))).

(** The provenance log of a spectrum in a store. *)
Definition log_of (w : world) (s : Spectrum) (p : list prov_record) : Prop :=
  heap w !! provenance s = Some (OList p).

(** The log of the result [r] is the log of the input [s] followed by a
    ["created"] record and a record of the transform [op]. *)
Definition adds_created_and (op : string) (w : world) (s : Spectrum)
    (w' : world) (r : Spectrum) : Prop :=
  forall p, log_of w s p ->
    exists c t, operation c = "created" /\ operation t = op /\
                log_of w' r (p ++ [c; t]) /\
                length (p ++ [c; t]) = length p + 2.

(** [r] in [w'] was derived from [s] in [w] by the transform [op]: the
    shared ending ran in a store grown from [w], on arrays of one length and
    on the metadata and the log of [s]. *)
Definition transform_of (op : string) (w : world) (s : Spectrum)
    (r : Spectrum) (w' : world) : Prop :=
  exists wk wl fl wu fu nm dt xs ys d p,
    grows w wk /\
    heap wk !! wl = Some (OArr xs) /\
    heap wk !! fl = Some (OArr ys) /\
    length xs = length ys /\
    heap wk !! metadata s = Some (ODict d) /\
    heap wk !! provenance s = Some (OList p) /\
    derived wk wl fl wu fu nm op dt xs ys d p r w'.

(** The optional containers a caller passes to the constructor exist. *)
Definition valid_dict (w : world) (md : option loc) : Prop :=
  match md with
  | None => True
  | Some l => exists d, heap w !! l = Some (ODict d)
  end.

Definition valid_list (w : world) (pv : option loc) : Prop :=
  match pv with
  | None => True
  | Some l => exists p, heap w !! l = Some (OList p)
  end.

(** The contents of a spectrum in a store: its two arrays, its metadata and
    its provenance log. *)
Definition holds (w : world) (s : Spectrum) (xs ys : list float)
    (d : gmap string value) (p : list prov_record) : Prop :=
  heap w !! wavelength s = Some (OArr xs) /\
  heap w !! flux s = Some (OArr ys) /\
  heap w !! metadata s = Some (ODict d) /\
  heap w !! provenance s = Some (OList p).

(** The four objects a spectrum refers to. *)
Definition refs (s : Spectrum) : list loc :=
  [wavelength s; flux s; metadata s; provenance s].

(** [arr[...] = ...], [d[k] = v], [lst.append(x)]: any in-place change of the
    object at [l]. *)
Definition mutate (l : loc) (o : obj) (w : world) : world :=
  World (<[l := o]> (heap w)) (clock w).

(** The region of the flux that [normalize_spectrum] takes its factor from:
    the samples within [[range_min, range_max]] when both bounds are given,
    the whole array otherwise. *)
Definition flux_region_of (xs ys : list float) (range_min range_max : option float)
    : outcome (list float) :=
  match range_min, range_max with
  | Some lo, Some hi => np_mask_select ys (range_mask xs lo hi)
  | _, _ => Ok ys
  end.

(** The record [normalize_spectrum] appends. *)
Definition normalization_record (t : nat) (method : string) (norm_factor : float)
    (range_min range_max : option float) : prov_record :=
  ProvRecord "normalization" t
    [("method", VStr method); ("norm_factor", VFloat norm_factor);
     ("range_min", opt_float range_min); ("range_max", opt_float range_max)].

(** A grid without NaN whose samples strictly increase. *)
Definition no_nan (xs : list float) : Prop :=
  forall a, a ∈ xs -> is_nan a = false.

Definition increasing (xp : list float) : Prop :=
  no_nan xp /\
  forall i a b, xp !! i = Some a -> xp !! S i = Some b ->
                PrimFloat.ltb a b = true.

(** The same as a check that computes. *)
Fixpoint increasingb (xp : list float) : bool :=
  match xp with
  | [] => true
  | a :: tl =>
      match tl with
      | [] => negb (is_nan a)
      | b :: _ => PrimFloat.ltb a b && increasingb tl
      end
  end.

(** The point at [x] of the line through [(xj, yj)] and [(xk, yk)], worked
    out in binary64 from the end [(xe, ye)] of the interval. *)
Definition line_at (xj yj xk yk xe ye x : float) : float :=
  ((yk - yj) / (xk - xj) * (x - xe) + ye)%float.

(** [v] is the value at [x] of the line through two neighbouring samples: the
    value worked out from the left sample; when that is not a number, the
    value worked out from the right sample; and when neither is a number and
    the two samples have one and the same flux, that flux. *)
Inductive on_line (xj yj xk yk x : float) : float -> Prop :=
  | line_left :
      is_nan (line_at xj yj xk yk xj yj x) = false ->
      on_line xj yj xk yk x (line_at xj yj xk yk xj yj x)
  | line_right :
      is_nan (line_at xj yj xk yk xj yj x) = true ->
      is_nan (line_at xj yj xk yk xk yk x) = false
      \/ PrimFloat.eqb yj yk = false ->
      on_line xj yj xk yk x (line_at xj yj xk yk xk yk x)
  | line_level :
      is_nan (line_at xj yj xk yk xj yj x) = true ->
      is_nan (line_at xj yj xk yk xk yk x) = true ->
      PrimFloat.eqb yj yk = true ->
      on_line xj yj xk yk x yj.

(** [v] is the piecewise-linear interpolant of the samples [(xp, fp)] at [x]:
    the value at a sample point, the point of the line through the two
    neighbouring samples that [x] lies between, and the value of the nearest
    edge when [x] is below or above every sample point. *)
Inductive interpolates (xp fp : list float) (x : float) : float -> Prop :=
  | interp_below y0 :
      (forall a, a ∈ xp -> PrimFloat.ltb x a = true) ->
      fp !! 0 = Some y0 ->
      interpolates xp fp x y0
  | interp_above yn :
      (forall a, a ∈ xp -> PrimFloat.ltb a x = true) ->
      fp !! (length xp - 1) = Some yn ->
      interpolates xp fp x yn
  | interp_knot j xj yj :
      xp !! j = Some xj -> fp !! j = Some yj ->
      PrimFloat.eqb xj x = true ->
      interpolates xp fp x yj
  | interp_between j xj yj xk yk v :
      xp !! j = Some xj -> xp !! S j = Some xk ->
      fp !! j = Some yj -> fp !! S j = Some yk ->
      (PrimFloat.ltb xj x = true /\ PrimFloat.ltb x xk = true) \/
      (PrimFloat.ltb xk x = true /\ PrimFloat.ltb x xj = true) ->
      on_line xj yj xk yk x v ->
      interpolates xp fp x v.

(** ** Vocabulary of the further properties *)

(** The object at [l] did not exist in the store [w]. *)
Definition new_in (w : world) (l : loc) : Prop := length (heap w) <= l.

(** The result [r] of a call that took the store from [w] to [w'] shares
    nothing with [w]: every object of [w] is unchanged in [w'], and the four
    objects of [r] were made by the call. *)
Definition separate_from (w : world) (r : Spectrum) (w' : world) : Prop :=
  grows w w' /\ forall l, l ∈ refs r -> new_in w l.

(** A store with two spectra on one grid, [star] and [sky]. *)
Definition two_world : world :=
  World [OArr [1; 2; 3]%float; OArr [10; 20; 30]%float; ODict ∅;
         OList [created_record 0];
         OArr [1; 2; 3]%float; OArr [4; 0; 5]%float; ODict ∅;
         OList [created_record 2]] 4.

Definition star : Spectrum := MkSpectrum 0 1 "nm" "counts" 2 3 (Some "star").
Definition sky : Spectrum := MkSpectrum 4 5 "nm" "Jy" 6 7 (Some "sky").

(** [wl_min <= x <= wl_max] *)
Definition in_range (wl_min wl_max x : float) : bool :=
  PrimFloat.leb wl_min x && PrimFloat.leb x wl_max.

(** The samples [(wavelength, flux)] of a spectrum whose wavelength lies in
    [[wl_min, wl_max]], in their order. *)
Definition samples_in_range (wl_min wl_max : float) (xs ys : list float)
    : list (float * float) :=
  filter (fun s => in_range wl_min wl_max (fst s) = true) (zip xs ys).

(** The record [get_range] appends. *)
Definition range_record (t : nat) (wl_min wl_max : float) : prov_record :=
  ProvRecord "range_extraction" t
    [("wl_min", VFloat wl_min); ("wl_max", VFloat wl_max)].

(** The records [subtract_spectra] and [divide_spectra] append. *)
Definition subtraction_record (t : nat) (b : Spectrum) (interpolate : bool)
    : prov_record :=
  ProvRecord "subtraction" t
    [("operand", VStr (name_or_unnamed (name b)));
     ("interpolated", VBool interpolate)].

Definition division_record (t : nat) (b : Spectrum) (interpolate : bool)
    (handle_zeros : string) : prov_record :=
  ProvRecord "division" t
    [("operand", VStr (name_or_unnamed (name b)));
     ("interpolated", VBool interpolate);
     ("handle_zeros", VStr handle_zeros)].

(** The denominator that the policy ["small"] divides by. *)
Definition safe_denominator (y : float) : float :=
  if PrimFloat.eqb y 0 then 1e-10%float else y.

(** A spectrum with a NaN in its flux. *)
Definition gap_world : world :=
  World [OArr [1; 2; 3]%float; OArr [10; nan; 30]%float; ODict ∅;
         OList [created_record 0]] 2.

(** The record [smooth_spectrum] appends. *)
Definition smoothing_record (t : nat) (method : string) (window_size : Z)
    : prov_record :=
  ProvRecord "smoothing" t
    [("method", VStr method); ("window_size", VInt window_size)].

(** The unit [convert_units] converts from: the explicit [from_unit], or the
    label of the spectrum. *)
Definition source_unit (from_unit : option string) (s : Spectrum) : string :=
  match from_unit with
  | None => wavelength_unit s
  | Some u => u
  end.

(** The record [convert_units] appends. *)
Definition conversion_record (t : nat) (from_unit to_unit : string)
    : prov_record :=
  ProvRecord "unit_conversion" t
    [("axis", VStr "wavelength"); ("from_unit", VStr from_unit);
     ("to_unit", VStr to_unit)].

(** Two arrays and a metadata dict with one entry, before any spectrum is made
    of them. *)
Definition tagged_world : world :=
  World [OArr [1; 2]%float; OArr [3; 4]%float;
         ODict {[ "source" := VStr "lab" ]}] 0.

(** Calls of [add_record] on one tracker, made one after the other. *)
Fixpoint add_records (self : ProvenanceTracker.t)
    (calls : list (string * list (string * value))) : M unit :=
  match calls with
  | [] => mret tt
  | (op, dt) :: rest =>
      _ ← ProvenanceTracker.add_record self op dt;
      add_records self rest
  end.

(** The unit names of a wavelength and of an energy. *)
Definition wavelength_units : list string :=
  ["nm"; "angstrom"; "Å"; "um"; "m"].

Definition energy_units : list string := ["eV"; "J"].

(** [1.0] as a binary64 value: the mantissa [2^52] with the exponent [-52]. *)
Definition one_sf : spec_float := S754_finite false 4503599627370496 (-52).

(** A spectrum whose flux holds a zero and an infinity. *)
Definition edge_world : world :=
  World [OArr [1; 2; 3]%float; OArr [5; 0; infinity]%float; ODict ∅;
         OList [created_record 0]] 2.

(** * Reasoning about runs *)

Section MonadLaws.

Context {A B : Type}.
Implicit Types (m : M A) (f : A -> M B) (w : world).

Lemma bind_ok m f w a w1 :
  m w = (Ok a, w1) -> (m ≫= f) w = f a w1.
Proof. unfold mbind, M_bind. now intros ->. Qed.

Lemma bind_raise m f w e w1 :
  m w = (Raise e, w1) -> (m ≫= f) w = (Raise e, w1).
Proof. unfold mbind, M_bind. now intros ->. Qed.

Lemma bind_inv m f w b w2 :
  (m ≫= f) w = (Ok b, w2) ->
  exists a w1, m w = (Ok a, w1) /\ f a w1 = (Ok b, w2).
Proof.
  unfold mbind, M_bind. destruct (m w) as [[a|e] w1]; intros H.
  - now exists a, w1.
  - discriminate.
Qed.

End MonadLaws.

Lemma mret_run {A} (a : A) w : (mret a : M A) w = (Ok a, w).
Proof. reflexivity. Qed.

Lemma mret_inv {A} (a b : A) w w1 :
  (mret a : M A) w = (Ok b, w1) -> b = a /\ w1 = w.
Proof. unfold mret, M_ret. now intros [= -> ->]. Qed.

Lemma lift_inv {A} (o : outcome A) a w w1 :
  lift o w = (Ok a, w1) -> o = Ok a /\ w1 = w.
Proof. unfold lift. now intros [= -> ->]. Qed.

Lemma read_arr_ok w l xs :
  heap w !! l = Some (OArr xs) -> read_arr l w = (Ok xs, w).
Proof. unfold read_arr. now intros ->. Qed.

Lemma read_dict_ok w l d :
  heap w !! l = Some (ODict d) -> read_dict l w = (Ok d, w).
Proof. unfold read_dict. now intros ->. Qed.

Lemma read_list_ok w l rs :
  heap w !! l = Some (OList rs) -> read_list l w = (Ok rs, w).
Proof. unfold read_list. now intros ->. Qed.

Lemma read_arr_inv w l xs w1 :
  read_arr l w = (Ok xs, w1) -> heap w !! l = Some (OArr xs) /\ w1 = w.
Proof.
  unfold read_arr. destruct (heap w !! l) as [[]|]; intros [=]; now subst.
Qed.

Lemma read_dict_inv w l d w1 :
  read_dict l w = (Ok d, w1) -> heap w !! l = Some (ODict d) /\ w1 = w.
Proof.
  unfold read_dict. destruct (heap w !! l) as [[]|]; intros [=]; now subst.
Qed.

Lemma read_list_inv w l rs w1 :
  read_list l w = (Ok rs, w1) -> heap w !! l = Some (OList rs) /\ w1 = w.
Proof.
  unfold read_list. destruct (heap w !! l) as [[]|]; intros [=]; now subst.
Qed.

Lemma alloc_inv o w l w1 :
  alloc o w = (Ok l, w1) ->
  l = length (heap w) /\ w1 = World (heap w ++ [o]) (clock w).
Proof. unfold alloc. now intros [= <- <-]. Qed.

(** Reading the store after it has grown. *)
Lemma lookup_grow (h ext : list obj) l o :
  h !! l = Some o -> (h ++ ext) !! l = Some o.
Proof. apply lookup_app_l_Some. Qed.

Lemma lookup_new (h : list obj) o : (h ++ [o]) !! length h = Some o.
Proof. apply list_lookup_middle. reflexivity. Qed.

(** Decomposing a successful run, one step at a time. *)
Ltac minv H :=
  let a := fresh "a" in
  let w := fresh "w" in
  let H1 := fresh "R" in
  lazymatch type of H with
  | (_ ≫= _) _ = (Ok _, _) =>
      apply bind_inv in H; destruct H as (a & w & H1 & H)
  end.

Ltac minv_prim H :=
  lazymatch type of H with
  | read_arr _ _ = (Ok _, _) => apply read_arr_inv in H; destruct H as [H ->]
  | read_dict _ _ = (Ok _, _) => apply read_dict_inv in H; destruct H as [H ->]
  | read_list _ _ = (Ok _, _) => apply read_list_inv in H; destruct H as [H ->]
  | alloc _ _ = (Ok _, _) => apply alloc_inv in H; destruct H as [-> ->]
  | lift _ _ = (Ok _, _) => apply lift_inv in H; destruct H as [H ->]
  | mret _ _ = (Ok _, _) =>
      apply mret_inv in H; destruct H as [H ->];
      first [ subst | injection H as -> -> | idtac ]
  end.

(** Running a computation forward: the first step of a bind succeeds. *)
Ltac lookup_heap :=
  cbn [heap clock];
  first [ eassumption
        | apply lookup_new
        | apply lookup_grow; lookup_heap ].

Ltac run_prim :=
  lazymatch goal with
  | |- read_arr _ _ = _ => apply read_arr_ok; lookup_heap
  | |- read_dict _ _ = _ => apply read_dict_ok; lookup_heap
  | |- read_list _ _ = _ => apply read_list_ok; lookup_heap
  | |- (_ ≫= _) _ = _ =>
      erewrite bind_ok; cycle 1; [ run_prim | cbv beta; run_prim ]
  | |- _ => reflexivity
  end.

Ltac solve_len :=
  repeat (rewrite length_app || rewrite length_insert); cbn [length] in *; lia.

Ltac mstep :=
  erewrite bind_ok; cycle 1; [ run_prim | cbv beta; cbn [heap clock] ].

(** What [__init__] does on array references and existing containers, as one
    equation. *)
Lemma init_run w wl fl wu fu md pv nm xs ys d p :
  heap w !! wl = Some (OArr xs) ->
  heap w !! fl = Some (OArr ys) ->
  heap w !! md = Some (ODict d) ->
  heap w !! pv = Some (OList p) ->
  __init__ (ArrRef wl) (ArrRef fl) wu fu (Some md) (Some pv) nm w =
    let h1 := if Nat.eqb (size d) 0 then heap w ++ [ODict ∅] else heap w in
    let md' := if Nat.eqb (size d) 0 then length (heap w) else md in
    let c := created_record (clock w) in
    if negb (Nat.eqb (length xs) (length ys)) then
      (Raise (ValueError "Wavelength and flux arrays must have the same length"),
       w)
    else
    match p with
    | [] => (Ok (MkSpectrum wl fl wu fu md' (length h1) nm),
             World (<[length h1 := OList [c]]> (h1 ++ [OList []]))
                   (S (S (clock w))))
    | _ :: _ => (Ok (MkSpectrum wl fl wu fu md' pv nm),
                 World (<[pv := OList (p ++ [c])]> h1) (S (S (clock w))))
    end.
Proof.
  intros Hwl Hfl Hmd Hpv.
  unfold __init__, np_asarray.
  do 4 mstep. cbn zeta.
  destruct (negb (Nat.eqb (length xs) (length ys))); [reflexivity|].
  unfold or_new_dict, or_new_list, _add_provenance, list_append.
  destruct (Nat.eqb (size d) 0) eqn:Hd; cbn zeta.
  - erewrite bind_ok; cycle 1.
    { mstep. rewrite Hd. reflexivity. }
    unfold alloc at 1. cbn [heap clock].
    destruct p as [|r p'].
    + erewrite bind_ok; cycle 1.
      { mstep. reflexivity. }
      unfold alloc, now, write, mbind, M_bind, mret, M_ret, read_list. cbn.
      rewrite lookup_new. reflexivity.
    + erewrite bind_ok; cycle 1.
      { mstep. reflexivity. }
      unfold now, write, mbind, M_bind, mret, M_ret, read_list. cbn.
      erewrite lookup_grow by eassumption. reflexivity.
  - erewrite bind_ok; cycle 1.
    { mstep. rewrite Hd. reflexivity. }
    unfold mret at 1, M_ret.
    destruct p as [|r p'].
    + erewrite bind_ok; cycle 1.
      { mstep. reflexivity. }
      unfold alloc, now, write, mbind, M_bind, mret, M_ret, read_list. cbn.
      rewrite lookup_new. reflexivity.
    + erewrite bind_ok; cycle 1.
      { mstep. reflexivity. }
      unfold now, write, mbind, M_bind, mret, M_ret, read_list. cbn.
      rewrite Hpv. reflexivity.
Qed.

(** ** The store only grows *)

#[local] Instance grows_preorder : PreOrder grows.
Proof.
  split.
  - intros w. unfold grows. reflexivity.
  - intros a b c Hab Hbc. unfold grows in *. etransitivity; eassumption.
Qed.

Lemma grows_lookup w w1 l o :
  grows w w1 -> heap w !! l = Some o -> heap w1 !! l = Some o.
Proof. intros [ext ->] H. now apply lookup_grow. Qed.

Lemma grows_length w w1 : grows w w1 -> length (heap w) <= length (heap w1).
Proof. intros [ext ->]. rewrite length_app. lia. Qed.

Lemma grows_alloc w o : grows w (World (heap w ++ [o]) (clock w)).
Proof. now exists [o]. Qed.

(** An in-place update of an object allocated after [w] keeps [w] intact. *)
Lemma prefix_insert (h0 h : list obj) l o :
  h0 `prefix_of` h -> length h0 <= l -> h0 `prefix_of` <[l := o]> h.
Proof.
  intros [ext ->] Hl. exists (<[l - length h0 := o]> ext).
  now rewrite insert_app_r_alt.
Qed.

Lemma grows_insert w h l o :
  heap w `prefix_of` h -> length (heap w) <= l ->
  heap w `prefix_of` <[l := o]> h.
Proof. apply prefix_insert. Qed.

Lemma np_asarray_inv a w l w1 :
  np_asarray a w = (Ok l, w1) ->
  exists xs, denotes w a xs /\ heap w1 !! l = Some (OArr xs) /\
             grows w w1 /\ clock w1 = clock w /\
             (forall l0, a = ArrRef l0 -> l = l0 /\ w1 = w) /\
             (forall ys, a = ArrSeq ys -> l = length (heap w)).
Proof.
  destruct a as [l0|ys]; cbn [np_asarray]; intros H.
  - minv H. minv_prim R. minv_prim H. exists a. cbn.
    repeat split; try easy; try congruence.
  - minv_prim H. exists ys. cbn. rewrite lookup_new.
    repeat split; try easy. apply grows_alloc.
Qed.

Lemma np_asarray_run a w xs :
  denotes w a xs ->
  exists l w1, np_asarray a w = (Ok l, w1).
Proof.
  destruct a as [l0|ys]; cbn; intros H.
  - exists l0, w. mstep. reflexivity.
  - eexists _, _. reflexivity.
Qed.

Lemma or_new_dict_inv md w l w1 :
  or_new_dict md w = (Ok l, w1) ->
  clock w1 = clock w /\ grows w w1 /\
  ((w1 = w /\ md = Some l /\
    exists d, heap w !! l = Some (ODict d) /\ size d <> 0) \/
   (heap w1 = heap w ++ [ODict ∅] /\ l = length (heap w) /\
    (md = None \/
     exists l0 d0, md = Some l0 /\ heap w !! l0 = Some (ODict d0) /\
                   size d0 = 0))).
Proof.
  destruct md as [l0|]; cbn [or_new_dict]; intros H.
  - minv H. minv_prim R. destruct (Nat.eqb (size a) 0) eqn:E.
    + minv_prim H. cbn. split; [easy|]. split; [apply grows_alloc|].
      right. repeat split. right. exists l0, a.
      apply Nat.eqb_eq in E. easy.
    + minv_prim H. split; [easy|]. split; [reflexivity|].
      left. repeat split. exists a. apply Nat.eqb_neq in E. easy.
  - minv_prim H. cbn. split; [easy|]. split; [apply grows_alloc|].
    right. repeat split. now left.
Qed.

Lemma or_new_list_inv pv w l w1 :
  or_new_list pv w = (Ok l, w1) ->
  clock w1 = clock w /\ grows w w1 /\
  ((w1 = w /\ pv = Some l /\
    exists p, heap w !! l = Some (OList p) /\ p <> []) \/
   (heap w1 = heap w ++ [OList []] /\ l = length (heap w) /\
    (pv = None \/ exists l0, pv = Some l0 /\ heap w !! l0 = Some (OList [])))).
Proof.
  destruct pv as [l0|]; cbn [or_new_list]; intros H.
  - minv H. minv_prim R. destruct a as [|r p].
    + minv_prim H. cbn. split; [easy|]. split; [apply grows_alloc|].
      right. repeat split. right. now exists l0.
    + minv_prim H. split; [easy|]. split; [reflexivity|].
      left. repeat split. now exists (r :: p).
  - minv_prim H. cbn. split; [easy|]. split; [apply grows_alloc|].
    right. repeat split. now left.
Qed.

Lemma add_provenance_inv self op dt w u w1 :
  _add_provenance self op dt w = (Ok u, w1) ->
  exists p, heap w !! provenance self = Some (OList p) /\
            heap w1 = <[provenance self :=
                          OList (p ++ [ProvRecord op (clock w) dt])]> (heap w) /\
            clock w1 = S (clock w).
Proof.
  unfold _add_provenance, list_append. intros H.
  apply bind_inv in H. destruct H as (t & w0 & Ht & H).
  unfold now in Ht. injection Ht as <- <-.
  apply bind_inv in H. destruct H as (p & w2 & Hp & H).
  minv_prim Hp. cbn in Hp. unfold write in H. injection H as <- <-.
  now exists p.
Qed.

(** An in-place update of a list leaves arrays and dicts where they are. *)
Lemma insert_list_other (h : list obj) l l0 p p1 o :
  h !! l = Some (OList p) ->
  h !! l0 = Some o -> (forall q, o <> OList q) ->
  <[l := OList p1]> h !! l0 = Some o.
Proof.
  intros Hl Hl0 Hno. rewrite list_lookup_insert_ne; [easy|].
  intros ->. rewrite Hl in Hl0. injection Hl0 as <-. now apply (Hno p).
Qed.

Lemma insert_list_same (h : list obj) l o p1 :
  h !! l = Some o -> <[l := OList p1]> h !! l = Some (OList p1).
Proof.
  intros Hl. apply list_lookup_insert_eq. now apply lookup_lt_Some in Hl.
Qed.

(** The constructor, taken apart. *)
Lemma init_inv wl fl wu fu md pv nm w s w' :
  __init__ wl fl wu fu md pv nm w = (Ok s, w') ->
  exists w1 w2 w3 w4 xs ys p,
    np_asarray wl w = (Ok (wavelength s), w1) /\
    np_asarray fl w1 = (Ok (flux s), w2) /\
    heap w2 !! wavelength s = Some (OArr xs) /\
    heap w2 !! flux s = Some (OArr ys) /\
    length xs = length ys /\
    or_new_dict md w2 = (Ok (metadata s), w3) /\
    or_new_list pv w3 = (Ok (provenance s), w4) /\
    heap w4 !! provenance s = Some (OList p) /\
    heap w' = <[provenance s := OList (p ++ [created_record (clock w)])]>
                (heap w4) /\
    clock w' = S (S (clock w)) /\
    wavelength_unit s = wu /\ flux_unit s = fu /\ name s = nm.
Proof.
  unfold __init__. intros H.
  minv H. rename a into wl', w0 into w1, R into Hwl.
  minv H. rename a into fl', w0 into w2, R into Hfl.
  minv H. minv_prim R. rename a into xs, R into Hxs.
  minv H. minv_prim R. rename a into ys, R into Hys.
  destruct (Nat.eqb (length xs) (length ys)) eqn:E; cbn [negb] in H;
    [|discriminate].
  apply Nat.eqb_eq in E.
  minv H. rename a into md', w0 into w3, R into Hmd.
  minv H. rename a into pv', w0 into w4, R into Hpv.
  cbn zeta in H.
  minv H. unfold now in R. injection R as <- <-.
  minv H. minv_prim H.
  apply add_provenance_inv in R. cbn in R. destruct R as (p & Hp & Hh & Hc).
  exists w1, w2, w3, w4, xs, ys, p. cbn.
  destruct (np_asarray_inv _ _ _ _ Hwl) as (? & _ & _ & _ & Hc1 & _).
  destruct (np_asarray_inv _ _ _ _ Hfl) as (? & _ & _ & _ & Hc2 & _).
  destruct (or_new_dict_inv _ _ _ _ Hmd) as (Hc3 & _).
  destruct (or_new_list_inv _ _ _ _ Hpv) as (Hc4 & _).
  assert (clock w4 = clock w) as Hck by congruence.
  rewrite Hh, Hc, Hck. unfold created_record. repeat split; try easy.
Qed.

(** * Unit conversion *)

Open Scope float_scope.

(** C5, as the specification words it, fails: the unit [Å] is not one of
    [nm], [angstrom], [um], [m], and it is accepted. *)
Lemma wavelength_to_frequency_accepts_angstrom_sign :
  ~ (forall (wl : list float) (u : string),
       u <> "nm" -> u <> "angstrom" -> u <> "um" -> u <> "m" ->
       exists e, wavelength_to_frequency wl u = Raise e).
Proof.
  intros H.
  destruct (H [5000] "Å") as [e He]; try discriminate.
Qed.

(** C5 (amended): [wavelength_to_frequency] returns [c / wavelength_m] with
    [c = 2.99792458e8], where [wavelength_m] is the input times [1e-9] for
    [nm], times [1e-10] for [angstrom] and for [Å], times [1e-6] for [um] and
    the input itself for [m]; for every other unit string it fails with the
    unknown-unit [ValueError]. *)
Theorem wavelength_to_frequency_units :
  SPEED_OF_LIGHT = 2.99792458e8 /\
  (forall wl, wavelength_to_frequency wl "nm"
              = Ok ((fun x => SPEED_OF_LIGHT / (x * 1e-9)) <$> wl)) /\
  (forall wl, wavelength_to_frequency wl "angstrom"
              = Ok ((fun x => SPEED_OF_LIGHT / (x * 1e-10)) <$> wl)) /\
  (forall wl, wavelength_to_frequency wl "Å"
              = Ok ((fun x => SPEED_OF_LIGHT / (x * 1e-10)) <$> wl)) /\
  (forall wl, wavelength_to_frequency wl "um"
              = Ok ((fun x => SPEED_OF_LIGHT / (x * 1e-6)) <$> wl)) /\
  (forall wl, wavelength_to_frequency wl "m"
              = Ok ((fun x => SPEED_OF_LIGHT / x) <$> wl)) /\
  (forall wl u,
     u <> "nm" -> u <> "angstrom" -> u <> "Å" -> u <> "um" -> u <> "m" ->
     wavelength_to_frequency wl u
     = Raise (ValueError ("Unknown wavelength unit: " ++ u))).
Proof.
  split; [reflexivity|].
  repeat split; intros wl; unfold wavelength_to_frequency; cbn;
    try (rewrite <- list_fmap_compose; reflexivity); try reflexivity.
  intros u H1 H2 H3 H4 H5. unfold is_angstrom.
  apply String.eqb_neq in H1, H2, H3, H4, H5.
  now rewrite H1, H2, H3, H4, H5.
Qed.

Lemma wavelength_to_frequency_units_witness :
  wavelength_to_frequency [500] "nm" = Ok [SPEED_OF_LIGHT / (500 * 1e-9)] /\
  wavelength_to_frequency [500] "Hz"
  = Raise (ValueError "Unknown wavelength unit: Hz").
Proof.
  destruct wavelength_to_frequency_units as (_ & Hnm & _ & _ & _ & _ & Hbad).
  split.
  - apply (Hnm [500]).
  - apply (Hbad [500] "Hz"); discriminate.
Defined.

Close Scope float_scope.

(** * The shared ending of the transforms *)

Lemma add_provenance_run self op dt w p :
  heap w !! provenance self = Some (OList p) ->
  _add_provenance self op dt w =
    (Ok tt, World (<[provenance self :=
                       OList (p ++ [ProvRecord op (clock w) dt])]> (heap w))
                  (S (clock w))).
Proof.
  intros Hp. unfold _add_provenance, list_append, now.
  unfold mbind at 1, M_bind at 1. cbv beta iota.
  mstep. reflexivity.
Qed.

Lemma derive_run w wl fl wu fu mdl pvl nm op dt xs ys d p :
  heap w !! wl = Some (OArr xs) ->
  heap w !! fl = Some (OArr ys) ->
  heap w !! mdl = Some (ODict d) ->
  heap w !! pvl = Some (OList p) ->
  (length xs <> length ys /\
   exists w1, derive wl fl wu fu mdl pvl nm op dt w
              = (Raise (ValueError
                   "Wavelength and flux arrays must have the same length"), w1))
  \/
  (length xs = length ys /\
   exists r w', derive wl fl wu fu mdl pvl nm op dt w = (Ok r, w') /\
                derived w wl fl wu fu nm op dt xs ys d p r w').
Proof.
  intros Hwl Hfl Hmd Hpv.
  unfold derive, dict_copy, list_copy.
  do 2 mstep.
  set (w2 := World ((heap w ++ [ODict d]) ++ [OList p]) (clock w)).
  assert (grows w w2) as Hg.
  { exists [ODict d; OList p]. cbn. now rewrite <- app_assoc. }
  assert (length (heap w ++ [ODict d]) = S (length (heap w))) as Hl1.
  { solve_len. }
  assert (length (heap w2) = S (S (length (heap w)))) as Hlen2.
  { cbn. solve_len. }
  assert (heap w2 !! length (heap w) = Some (ODict d)) as Hmd2
    by (subst w2; lookup_heap).
  assert (heap w2 !! length (heap w ++ [ODict d]) = Some (OList p)) as Hpv2
    by (subst w2; lookup_heap).
  pose proof (init_run w2 wl fl wu fu (length (heap w))
                (length (heap w ++ [ODict d])) nm xs ys d p
                (grows_lookup _ _ _ _ Hg Hwl) (grows_lookup _ _ _ _ Hg Hfl)
                Hmd2 Hpv2) as Hrun.
  cbn zeta in Hrun.
  destruct (Nat.eqb (length xs) (length ys)) eqn:E; cbn [negb] in Hrun.
  2:{ left. apply Nat.eqb_neq in E. split; [easy|]. eexists.
      erewrite bind_raise by exact Hrun. reflexivity. }
  right. apply Nat.eqb_eq in E. split; [easy|].
  destruct (Nat.eqb (size d) 0) eqn:Hd; destruct p as [|r0 p'];
    (erewrite bind_ok by exact Hrun); clear Hrun.
  - (* empty metadata, empty log: both replaced by new containers *)
    erewrite bind_ok; cycle 1.
    { apply add_provenance_run. cbn [provenance heap].
      apply list_lookup_insert_eq. solve_len. }
    eexists _, _. split; [reflexivity|].
    unfold derived. cbn [wavelength flux wavelength_unit flux_unit name
                         metadata provenance heap clock].
    rewrite list_insert_insert_eq.
    apply Nat.eqb_eq in Hd. apply map_size_empty_iff in Hd. subst d.
    repeat split; try lia; try solve_len.
    + unfold grows. cbn [heap]. apply grows_insert.
      * destruct Hg as [ext Hext]. rewrite Hext.
        exists ((ext ++ [ODict ∅]) ++ [OList []]).
        now rewrite !app_assoc.
      * solve_len.
    + rewrite list_lookup_insert_ne by solve_len.
      apply lookup_grow. apply lookup_new.
    + apply list_lookup_insert_eq. solve_len.
  - (* empty metadata, the copied log is kept *)
    erewrite bind_ok; cycle 1.
    { apply add_provenance_run. cbn [provenance heap].
      apply list_lookup_insert_eq. solve_len. }
    eexists _, _. split; [reflexivity|].
    unfold derived. cbn [wavelength flux wavelength_unit flux_unit name
                         metadata provenance heap clock].
    rewrite list_insert_insert_eq.
    apply Nat.eqb_eq in Hd. apply map_size_empty_iff in Hd. subst d.
    repeat split; try solve_len.
    + unfold grows. cbn [heap]. apply grows_insert; [|solve_len].
      destruct Hg as [ext Hext]. rewrite Hext. exists (ext ++ [ODict ∅]).
      now rewrite app_assoc.
    + rewrite list_lookup_insert_ne by solve_len. apply lookup_new.
    + rewrite <- app_assoc. cbn [app].
      apply list_lookup_insert_eq. solve_len.
  - (* the copied metadata is kept, the empty log is replaced *)
    erewrite bind_ok; cycle 1.
    { apply add_provenance_run. cbn [provenance heap].
      apply list_lookup_insert_eq. solve_len. }
    eexists _, _. split; [reflexivity|].
    unfold derived. cbn [wavelength flux wavelength_unit flux_unit name
                         metadata provenance heap clock].
    rewrite list_insert_insert_eq.
    repeat split; try solve_len.
    + unfold grows. cbn [heap]. apply grows_insert; [|solve_len].
      destruct Hg as [ext Hext]. rewrite Hext. exists (ext ++ [OList []]).
      now rewrite app_assoc.
    + rewrite list_lookup_insert_ne by solve_len. now apply lookup_grow.
    + apply list_lookup_insert_eq. solve_len.
  - (* both copies are kept *)
    erewrite bind_ok; cycle 1.
    { apply add_provenance_run. cbn [provenance heap].
      apply list_lookup_insert_eq. solve_len. }
    eexists _, _. split; [reflexivity|].
    unfold derived. cbn [wavelength flux wavelength_unit flux_unit name
                         metadata provenance heap clock].
    rewrite list_insert_insert_eq.
    repeat split; try solve_len.
    + unfold grows. cbn [heap]. apply grows_insert; [easy|solve_len].
    + rewrite list_lookup_insert_ne by solve_len. easy.
    + rewrite <- app_assoc. cbn [app].
      apply list_lookup_insert_eq. solve_len.
Qed.

Lemma lookup_shrink (h : list obj) o l x :
  (h ++ [o]) !! l = Some x -> x <> o -> h !! l = Some x.
Proof.
  intros H Hne. apply lookup_app_Some in H. destruct H as [H|[_ H]]; [easy|].
  destruct (l - length h) as [|n]; cbn in H; [|discriminate].
  injection H as <-. easy.
Qed.

Lemma derive_inv w wl fl wu fu mdl pvl nm op dt r w' :
  derive wl fl wu fu mdl pvl nm op dt w = (Ok r, w') ->
  exists xs ys d p,
    heap w !! wl = Some (OArr xs) /\
    heap w !! fl = Some (OArr ys) /\
    length xs = length ys /\
    heap w !! mdl = Some (ODict d) /\
    heap w !! pvl = Some (OList p) /\
    derived w wl fl wu fu nm op dt xs ys d p r w'.
Proof.
  intros H. pose proof H as H0. unfold derive in H0.
  apply bind_inv in H0. destruct H0 as (md & w1 & Hmd & H0).
  unfold dict_copy in Hmd.
  apply bind_inv in Hmd. destruct Hmd as (d & ? & Hd & Hmd).
  minv_prim Hd. minv_prim Hmd.
  apply bind_inv in H0. destruct H0 as (pv & w2 & Hpv & H0).
  unfold list_copy in Hpv.
  apply bind_inv in Hpv. destruct Hpv as (p & ? & Hp & Hpv).
  minv_prim Hp. minv_prim Hpv. cbn [heap clock] in *.
  apply lookup_shrink in Hp; [|discriminate].
  apply bind_inv in H0. destruct H0 as (res & w3 & Hinit & _).
  apply init_inv in Hinit.
  destruct Hinit as (v1 & v2 & _ & _ & xs & ys & _ & Hwl & Hfl & Hxs & Hys
                     & Hlen & _).
  apply np_asarray_inv in Hwl. destruct Hwl as (_ & _ & _ & _ & _ & Hwl & _).
  destruct (Hwl wl eq_refl) as [Ewl ->]. clear Hwl.
  apply np_asarray_inv in Hfl. destruct Hfl as (_ & _ & _ & _ & _ & Hfl & _).
  destruct (Hfl fl eq_refl) as [Efl ->]. clear Hfl.
  rewrite Ewl in Hxs. rewrite Efl in Hys. cbn [heap] in *.
  apply lookup_shrink in Hxs; [|discriminate].
  apply lookup_shrink in Hxs; [|discriminate].
  apply lookup_shrink in Hys; [|discriminate].
  apply lookup_shrink in Hys; [|discriminate].
  destruct (derive_run w wl fl wu fu mdl pvl nm op dt _ _ _ _ Hxs Hys Hd Hp)
    as [(_ & w0 & Hr)|(_ & r0 & w0 & Hr & Hpost)].
  - rewrite Hr in H. discriminate.
  - rewrite Hr in H. injection H as <- <-.
    now exists xs, ys, d, p.
Qed.

(** * Provenance of the transforms *)

(** Taking a successful run apart down to the shared ending. *)
Ltac minv_all H :=
  repeat first
    [ minv_prim H
    | let a := fresh "a" in
      let w := fresh "w" in
      let R := fresh "R" in
      lazymatch type of H with
      | (dict_copy _ ≫= _) _ = (Ok _, _) => fail
      | (deepcopy_dict _ ≫= _) _ = (Ok _, _) => fail
      | (_ ≫= _) _ = (Ok _, _) =>
          apply bind_inv in H; destruct H as (a & w & R & H);
          try minv_all R
      end ];
  cbn [heap clock] in *.

Lemma derive_transform op w wk s wl fl wu fu nm dt r w' :
  grows w wk ->
  derive wl fl wu fu (metadata s) (provenance s) nm op dt wk = (Ok r, w') ->
  transform_of op w s r w'.
Proof.
  intros Hg H. apply derive_inv in H.
  destruct H as (xs & ys & d & p & Hxs & Hys & Hlen & Hd & Hp & Hpost).
  exists wk, wl, fl, wu, fu, nm, dt, xs, ys, d, p. easy.
Qed.

Lemma transform_adds op w s r w' :
  transform_of op w s r w' -> adds_created_and op w s w' r.
Proof.
  intros (wk & wl & fl & wu & fu & nm & dt & xs & ys & d & p
          & Hg & _ & _ & _ & _ & Hp & Hd) p0 Hp0.
  unfold log_of in *.
  destruct Hd as (_ & _ & _ & _ & _ & _ & _ & _ & _ & Hlog & _).
  rewrite (grows_lookup _ _ _ _ Hg Hp0) in Hp. injection Hp as <-.
  eexists _, _. split; [|split; [|split; [exact Hlog|]]]; try reflexivity.
  rewrite length_app. reflexivity.
Qed.

Lemma transform_invariant op w s r w' :
  transform_of op w s r w' -> invariant w' r.
Proof.
  intros (wk & wl & fl & wu & fu & nm & dt & xs & ys & d & p
          & _ & Hxs & Hys & Hlen & _ & _ & Hd).
  destruct Hd as (<- & <- & _ & _ & _ & Hg & _).
  exists xs, ys. eauto using grows_lookup.
Qed.

Ltac solve_grows :=
  unfold grows; cbn [heap];
  first [ reflexivity
        | repeat rewrite <- app_assoc; eexists; reflexivity ].

Lemma get_range_transform self wl_min wl_max w r w' :
  get_range self wl_min wl_max w = (Ok r, w') ->
  transform_of "range_extraction" w self r w'.
Proof.
  unfold get_range. intros H. minv_all H.
  eapply derive_transform; [|exact H]. solve_grows.
Qed.

(** The grid alignment reads the store and leaves it as it is. *)
Lemma align_flux_inv a b interpolate w f w1 :
  align_flux a b interpolate w = (Ok f, w1) ->
  w1 = w /\
  exists awl bwl bfl,
    heap w !! wavelength a = Some (OArr awl) /\
    heap w !! wavelength b = Some (OArr bwl) /\
    heap w !! flux b = Some (OArr bfl) /\
    ((interpolate = true /\ np.array_equal awl bwl = false /\
      np.interp awl bwl bfl = Ok f) \/
     ((interpolate = false \/ np.array_equal awl bwl = true) /\
      length awl = length bwl /\ f = bfl)).
Proof.
  unfold align_flux. intros H.
  apply bind_inv in H. destruct H as (awl & ? & Ha & H). minv_prim Ha.
  apply bind_inv in H. destruct H as (bwl & ? & Hb & H). minv_prim Hb.
  destruct (interpolate && negb (np.array_equal awl bwl)) eqn:E.
  - apply bind_inv in H. destruct H as (bfl & ? & Hf & H). minv_prim Hf.
    minv_prim H. split; [easy|]. exists awl, bwl, bfl.
    apply andb_true_iff in E. destruct E as [-> E].
    apply negb_true_iff in E. repeat split; try easy. now left.
  - destruct (Nat.eqb (length awl) (length bwl)) eqn:El; cbn [negb] in H;
      [|discriminate].
    minv_prim H. split; [easy|]. exists awl, bwl, f.
    apply Nat.eqb_eq in El. repeat split; try easy. right.
    repeat split; try easy.
    apply andb_false_iff in E. destruct E as [E|E]; [now left|right].
    now apply negb_false_iff in E.
Qed.

Lemma subtract_spectra_transform a b interpolate w r w' :
  subtract_spectra a b interpolate w = (Ok r, w') ->
  transform_of "subtraction" w a r w'.
Proof.
  unfold subtract_spectra, ndarray_copy. intros H.
  apply bind_inv in H. destruct H as (f & ? & Hal & H).
  apply align_flux_inv in Hal. destruct Hal as [-> _].
  minv_all H. eapply derive_transform; [|exact H]. solve_grows.
Qed.

Lemma divide_spectra_transform a b interpolate handle_zeros w r w' :
  divide_spectra a b interpolate handle_zeros w = (Ok r, w') ->
  transform_of "division" w a r w'.
Proof.
  unfold divide_spectra, ndarray_copy. intros H.
  apply bind_inv in H. destruct H as (f & ? & Hal & H).
  apply align_flux_inv in Hal. destruct Hal as [-> _].
  minv_all H. eapply derive_transform; [|exact H]. solve_grows.
Qed.

Lemma normalize_spectrum_transform s method range_min range_max w r w' :
  normalize_spectrum s method range_min range_max w = (Ok r, w') ->
  transform_of "normalization" w s r w'.
Proof.
  unfold normalize_spectrum, ndarray_copy. intros H.
  apply bind_inv in H. destruct H as (fl0 & ? & Hf & H). minv_prim Hf.
  apply bind_inv in H. destruct H as (region & w1 & Hr & H).
  assert (w1 = w) as ->.
  { destruct range_min, range_max; minv_all Hr; reflexivity. }
  apply bind_inv in H. destruct H as (nf & ? & Hn & H). minv_prim Hn.
  destruct (PrimFloat.eqb nf 0); [discriminate|].
  minv_all H. eapply derive_transform; [|exact H]. solve_grows.
Qed.

Lemma smooth_spectrum_transform sg uf gf s window_size method w r w' :
  smooth_spectrum sg uf gf s window_size method w = (Ok r, w') ->
  transform_of "smoothing" w s r w'.
Proof.
  unfold smooth_spectrum, ndarray_copy. intros H.
  apply bind_inv in H. destruct H as (fl0 & ? & Hf & H). minv_prim Hf.
  apply bind_inv in H. destruct H as ([sm ws] & w1 & Hr & H).
  assert (w1 = w) as ->.
  { repeat (destruct (String.eqb method _); [minv_all Hr; reflexivity|]).
    discriminate. }
  minv_all H. eapply derive_transform; [|exact H]. solve_grows.
Qed.

(** The new axis of [convert_units] is the old array or a new one; the store
    only grows. *)
Lemma convert_wavelength_units_inv wl from_unit to_unit w l w1 :
  convert_wavelength_units wl from_unit to_unit w = (Ok l, w1) ->
  grows w w1 /\ clock w1 = clock w.
Proof.
  unfold convert_wavelength_units. intros H.
  destruct (String.eqb from_unit to_unit).
  - minv_prim H. split; [reflexivity|easy].
  - minv_all H. split; [solve_grows|easy].
Qed.

Lemma convert_units_transform s from_unit to_unit axis w r w' :
  convert_units s from_unit to_unit axis w = (Ok r, w') ->
  transform_of "unit_conversion" w s r w'.
Proof.
  unfold convert_units, ndarray_copy. intros H.
  destruct (String.eqb axis "wavelength"); [|discriminate].
  apply bind_inv in H. destruct H as ([nw nu] & w1 & Hr & H).
  assert (grows w w1) as Hg.
  { destruct to_unit as [u|]; [|discriminate].
    destruct (is_wavelength_unit u).
    - apply bind_inv in Hr. destruct Hr as (l & w2 & Hc & Hr).
      minv_prim Hr. now apply convert_wavelength_units_inv in Hc.
    - repeat (destruct (String.eqb u _); [minv_all Hr; solve_grows|]).
      discriminate. }
  apply bind_inv in H. destruct H as (fl & w2 & Hf & H).
  apply bind_inv in Hf. destruct Hf as (ys0 & ? & Hf & Hf').
  minv_prim Hf. minv_prim Hf'.
  eapply derive_transform; [|exact H].
  etransitivity; [exact Hg|]. solve_grows.
Qed.

(** A small store with one spectrum in it, as the constructor leaves it. *)
Definition sample_world : world :=
  World [OArr [1; 2; 3; 4; 5]%float; OArr [10; 20; 30; 40; 50]%float;
         ODict ∅; OList [created_record 0]] 2.

Definition sample_spectrum : Spectrum := MkSpectrum 0 1 "nm" "counts" 2 3 None.

(** C1, as the specification words it, fails: the log of the result of
    [get_range] is two records longer than the log of its input, not one. *)
Lemma get_range_log_is_two_longer :
  ~ (forall self wl_min wl_max w r w' p p',
       get_range self wl_min wl_max w = (Ok r, w') ->
       log_of w self p -> log_of w' r p' ->
       length p' = length p + 1).
Proof.
  intros H.
  pose (r := MkSpectrum 4 5 "nm" "counts" 8 7 None).
  pose (w' := snd (get_range sample_spectrum 2 4 sample_world)).
  specialize (H sample_spectrum 2%float 4%float sample_world r w'
                [created_record 0]
                [created_record 0; created_record 2;
                 ProvRecord "range_extraction" 4
                   [("wl_min", VFloat 2); ("wl_max", VFloat 4)]]).
  discriminate H; reflexivity.
Qed.

(** C1 (amended): the provenance log of the spectrum returned by
    [subtract_spectra], [divide_spectra], [normalize_spectrum],
    [smooth_spectrum], [convert_units] and [get_range] is the log of the input
    followed by exactly two new records, so its length is the input's plus
    two: first the ["created"] record that the constructor of the result
    appends, then a record whose [operation] field names the transform. *)
Theorem transforms_append_created_and_operation :
  (forall a b interpolate w r w',
     subtract_spectra a b interpolate w = (Ok r, w') ->
     adds_created_and "subtraction" w a w' r) /\
  (forall a b interpolate handle_zeros w r w',
     divide_spectra a b interpolate handle_zeros w = (Ok r, w') ->
     adds_created_and "division" w a w' r) /\
  (forall s method range_min range_max w r w',
     normalize_spectrum s method range_min range_max w = (Ok r, w') ->
     adds_created_and "normalization" w s w' r) /\
  (forall savgol_filter uniform_filter1d gaussian_filter1d
          s window_size method w r w',
     smooth_spectrum savgol_filter uniform_filter1d gaussian_filter1d
       s window_size method w = (Ok r, w') ->
     adds_created_and "smoothing" w s w' r) /\
  (forall s from_unit to_unit axis w r w',
     convert_units s from_unit to_unit axis w = (Ok r, w') ->
     adds_created_and "unit_conversion" w s w' r) /\
  (forall self wl_min wl_max w r w',
     get_range self wl_min wl_max w = (Ok r, w') ->
     adds_created_and "range_extraction" w self w' r).
Proof.
  repeat split; intros; apply transform_adds;
    eauto using subtract_spectra_transform, divide_spectra_transform,
      normalize_spectrum_transform, smooth_spectrum_transform,
      convert_units_transform, get_range_transform.
Qed.

Lemma transforms_append_created_and_operation_witness :
  exists r w' c t,
    normalize_spectrum sample_spectrum "peak" None None sample_world
    = (Ok r, w') /\
    operation c = "created" /\ operation t = "normalization" /\
    log_of w' r ([created_record 0] ++ [c; t]) /\
    length ([created_record 0] ++ [c; t]) = 1 + 2.
Proof.
  destruct transforms_append_created_and_operation
    as (_ & _ & Hnorm & _ & _ & _).
  pose (run := normalize_spectrum sample_spectrum "peak" None None
                 sample_world).
  assert (run = (Ok (MkSpectrum 5 4 "nm" "normalized" 8 7 None), snd run))
    as Hrun by (vm_compute; reflexivity).
  destruct (Hnorm _ _ _ _ _ _ _ Hrun [created_record 0] eq_refl)
    as (c & t & Hc & Ht & Hlog & Hlen).
  exists (MkSpectrum 5 4 "nm" "normalized" 8 7 None), (snd run), c, t.
  repeat split; assumption.
Defined.

(** * The length invariant *)

Lemma bind_raise_inv {A B} (m : M A) (f : A -> M B) w e w2 :
  (m ≫= f) w = (Raise e, w2) ->
  m w = (Raise e, w2) \/
  exists a w1, m w = (Ok a, w1) /\ f a w1 = (Raise e, w2).
Proof.
  unfold mbind, M_bind. destruct (m w) as [[a|e0] w1]; intros H.
  - right. now exists a, w1.
  - left. now injection H as -> ->.
Qed.

Lemma read_list_raise l w e w1 :
  read_list l w = (Raise e, w1) -> e = TypeError.
Proof.
  unfold read_list. destruct (heap w !! l) as [[]|]; now intros [= <- <-].
Qed.

Lemma read_dict_raise l w e w1 :
  read_dict l w = (Raise e, w1) -> e = TypeError.
Proof.
  unfold read_dict. destruct (heap w !! l) as [[]|]; now intros [= <- <-].
Qed.

Lemma or_new_dict_raise md w e w1 :
  or_new_dict md w = (Raise e, w1) -> e = TypeError.
Proof.
  destruct md as [l|]; cbn [or_new_dict]; intros H; [|discriminate].
  apply bind_raise_inv in H. destruct H as [H|(d & w0 & _ & H)].
  - now apply read_dict_raise in H.
  - destruct (Nat.eqb (size d) 0); discriminate.
Qed.

Lemma or_new_list_raise pv w e w1 :
  or_new_list pv w = (Raise e, w1) -> e = TypeError.
Proof.
  destruct pv as [l|]; cbn [or_new_list]; intros H; [|discriminate].
  apply bind_raise_inv in H. destruct H as [H|(p & w0 & _ & H)].
  - now apply read_list_raise in H.
  - destruct p; discriminate.
Qed.

Lemma add_provenance_raise self op dt w e w1 :
  _add_provenance self op dt w = (Raise e, w1) -> e = TypeError.
Proof.
  unfold _add_provenance, list_append. intros H.
  apply bind_raise_inv in H. destruct H as [H|(t & w0 & _ & H)];
    [discriminate|].
  apply bind_raise_inv in H. destruct H as [H|(p & w2 & _ & H)].
  - now apply read_list_raise in H.
  - discriminate.
Qed.

(** The constructor up to its length check, for any two array arguments. *)
Lemma init_check wl fl wu fu md pv nm w xs ys :
  denotes w wl xs -> denotes w fl ys ->
  exists wl' fl' w2,
    grows w w2 /\ clock w2 = clock w /\
    heap w2 !! wl' = Some (OArr xs) /\ heap w2 !! fl' = Some (OArr ys) /\
    __init__ wl fl wu fu md pv nm w =
      (if negb (Nat.eqb (length xs) (length ys)) then
         raise (ValueError
                  "Wavelength and flux arrays must have the same length")
       else
         md' ← or_new_dict md;
         pv' ← or_new_list pv;
         t ← now;
         _ ← _add_provenance (MkSpectrum wl' fl' wu fu md' pv' nm) "created"
               [("timestamp", VTime t)];
         mret (MkSpectrum wl' fl' wu fu md' pv' nm)) w2.
Proof.
  intros Hx Hy. unfold __init__.
  destruct wl as [l1|xs1], fl as [l2|ys1]; cbn in Hx, Hy;
    try subst xs1; try subst ys1; cbn [np_asarray].
  - exists l1, l2, w. do 4 mstep. repeat split; try easy.
  - exists l1, (length (heap w)), (World (heap w ++ [OArr ys]) (clock w)).
    do 4 mstep. repeat split; try easy; try lookup_heap. solve_grows.
  - exists (length (heap w)), l2, (World (heap w ++ [OArr xs]) (clock w)).
    do 4 mstep. repeat split; try easy; try lookup_heap. solve_grows.
  - exists (length (heap w)), (length (heap w ++ [OArr xs])),
      (World ((heap w ++ [OArr xs]) ++ [OArr ys]) (clock w)).
    do 4 mstep. repeat split; try easy; try lookup_heap. solve_grows.
Qed.

Lemma init_raises_value_error_iff wl fl wu fu md pv nm w xs ys :
  denotes w wl xs -> denotes w fl ys ->
  (exists msg w1,
     __init__ wl fl wu fu md pv nm w = (Raise (ValueError msg), w1))
  <-> length xs <> length ys.
Proof.
  intros Hx Hy.
  destruct (init_check wl fl wu fu md pv nm w xs ys Hx Hy)
    as (wl' & fl' & w2 & _ & _ & _ & _ & ->).
  destruct (Nat.eqb (length xs) (length ys)) eqn:E; cbn [negb].
  - apply Nat.eqb_eq in E. split; [|easy]. intros (msg & w1 & H). exfalso.
    apply bind_raise_inv in H. destruct H as [H|(md' & w3 & _ & H)].
    { now apply or_new_dict_raise in H. }
    apply bind_raise_inv in H. destruct H as [H|(pv' & w4 & _ & H)].
    { now apply or_new_list_raise in H. }
    apply bind_raise_inv in H. destruct H as [H|(t & w5 & _ & H)];
      [discriminate|].
    apply bind_raise_inv in H. destruct H as [H|(u & w6 & _ & H)].
    { now apply add_provenance_raise in H. }
    discriminate.
  - apply Nat.eqb_neq in E. split; [easy|]. intros _.
    eexists _, _. reflexivity.
Qed.

Lemma init_invariant wl fl wu fu md pv nm w s w' :
  __init__ wl fl wu fu md pv nm w = (Ok s, w') -> invariant w' s.
Proof.
  intros H. apply init_inv in H.
  destruct H as (w1 & w2 & w3 & w4 & xs & ys & p & _ & _ & Hxs & Hys & Hlen
                 & Hmd & Hpv & Hp & Hh & _).
  apply or_new_dict_inv in Hmd. destruct Hmd as (_ & Hg3 & _).
  apply or_new_list_inv in Hpv. destruct Hpv as (_ & Hg4 & _).
  assert (grows w2 w4) as Hg by (etransitivity; eassumption).
  exists xs, ys. rewrite Hh. repeat split; [| |exact Hlen].
  - eapply insert_list_other; [exact Hp| |discriminate].
    eapply grows_lookup; eassumption.
  - eapply insert_list_other; [exact Hp| |discriminate].
    eapply grows_lookup; eassumption.
Qed.

Lemma copy_invariant self w r w' :
  copy self w = (Ok r, w') -> invariant w' r.
Proof.
  unfold copy. intros H.
  apply bind_inv in H. destruct H as (? & ? & _ & H).
  apply bind_inv in H. destruct H as (? & ? & _ & H).
  apply bind_inv in H. destruct H as (? & ? & _ & H).
  apply bind_inv in H. destruct H as (? & ? & _ & H).
  now apply init_invariant in H.
Qed.

Lemma from_dict_invariant data w r w' :
  from_dict data w = (Ok r, w') -> invariant w' r.
Proof.
  unfold from_dict. intros H.
  do 6 (apply bind_inv in H; destruct H as (? & ? & _ & H)).
  now apply init_invariant in H.
Qed.

Lemma or_new_dict_run md w :
  valid_dict w md -> exists l w1, or_new_dict md w = (Ok l, w1).
Proof.
  destruct md as [l|]; cbn.
  - intros [d Hd]. mstep. destruct (Nat.eqb (size d) 0); eexists _, _;
      reflexivity.
  - intros _. eexists _, _. reflexivity.
Qed.

Lemma or_new_list_run pv w :
  valid_list w pv -> exists l w1, or_new_list pv w = (Ok l, w1).
Proof.
  destruct pv as [l|]; cbn.
  - intros [p Hp]. mstep. destruct p; eexists _, _; reflexivity.
  - intros _. eexists _, _. reflexivity.
Qed.

Lemma valid_dict_grows w w1 md :
  grows w w1 -> valid_dict w md -> valid_dict w1 md.
Proof.
  intros Hg. destruct md as [l|]; cbn; [|easy].
  intros [d Hd]. exists d. eauto using grows_lookup.
Qed.

Lemma valid_list_grows w w1 pv :
  grows w w1 -> valid_list w pv -> valid_list w1 pv.
Proof.
  intros Hg. destruct pv as [l|]; cbn; [|easy].
  intros [p Hp]. exists p. eauto using grows_lookup.
Qed.

Lemma or_new_list_holds pv w l w1 :
  or_new_list pv w = (Ok l, w1) -> exists p, heap w1 !! l = Some (OList p).
Proof.
  intros H. apply or_new_list_inv in H.
  destruct H as (_ & _ & [(-> & _ & p & Hp & _)|(Hh & -> & _)]).
  - now exists p.
  - exists []. rewrite Hh. apply lookup_new.
Qed.

(** With arrays of one length and existing containers the constructor
    returns. *)
Lemma init_total wl fl wu fu md pv nm w xs ys :
  denotes w wl xs -> denotes w fl ys ->
  valid_dict w md -> valid_list w pv ->
  length xs = length ys ->
  exists s w', __init__ wl fl wu fu md pv nm w = (Ok s, w').
Proof.
  intros Hx Hy Hmd Hpv Hlen.
  destruct (init_check wl fl wu fu md pv nm w xs ys Hx Hy)
    as (wl' & fl' & w2 & Hg & _ & _ & _ & ->).
  rewrite Hlen, Nat.eqb_refl. cbn [negb].
  destruct (or_new_dict_run md w2) as (md' & w3 & Hrun3);
    [eauto using valid_dict_grows|].
  erewrite bind_ok by exact Hrun3.
  apply or_new_dict_inv in Hrun3. destruct Hrun3 as (_ & Hg3 & _).
  destruct (or_new_list_run pv w3) as (pv' & w4 & Hrun4).
  { eapply valid_list_grows; [|exact Hpv]. etransitivity; eassumption. }
  erewrite bind_ok by exact Hrun4.
  apply or_new_list_holds in Hrun4. destruct Hrun4 as [p Hp].
  erewrite bind_ok by reflexivity.
  erewrite bind_ok by (apply add_provenance_run; exact Hp).
  eexists _, _. reflexivity.
Qed.

(** C3: the constructor fails with a [ValueError] exactly when the two arrays
    differ in length (and returns when they do not); a constructed spectrum
    has arrays of one length; and so has the result of every operation that
    returns a spectrum. *)
Theorem length_invariant :
  (forall wl fl wu fu md pv nm w xs ys,
     denotes w wl xs -> denotes w fl ys ->
     ((exists msg w1,
         __init__ wl fl wu fu md pv nm w = (Raise (ValueError msg), w1))
      <-> length xs <> length ys) /\
     (valid_dict w md -> valid_list w pv -> length xs = length ys ->
      exists s w', __init__ wl fl wu fu md pv nm w = (Ok s, w'))) /\
  (forall wl fl wu fu md pv nm w s w',
     __init__ wl fl wu fu md pv nm w = (Ok s, w') -> invariant w' s) /\
  (forall self w r w', copy self w = (Ok r, w') -> invariant w' r) /\
  (forall self wl_min wl_max w r w',
     get_range self wl_min wl_max w = (Ok r, w') -> invariant w' r) /\
  (forall data w r w', from_dict data w = (Ok r, w') -> invariant w' r) /\
  (forall a b interpolate w r w',
     subtract_spectra a b interpolate w = (Ok r, w') -> invariant w' r) /\
  (forall a b interpolate handle_zeros w r w',
     divide_spectra a b interpolate handle_zeros w = (Ok r, w') ->
     invariant w' r) /\
  (forall s method range_min range_max w r w',
     normalize_spectrum s method range_min range_max w = (Ok r, w') ->
     invariant w' r) /\
  (forall savgol_filter uniform_filter1d gaussian_filter1d
          s window_size method w r w',
     smooth_spectrum savgol_filter uniform_filter1d gaussian_filter1d
       s window_size method w = (Ok r, w') ->
     invariant w' r) /\
  (forall s from_unit to_unit axis w r w',
     convert_units s from_unit to_unit axis w = (Ok r, w') ->
     invariant w' r).
Proof.
  split; [|repeat split]; intros.
  - split.
    + now apply init_raises_value_error_iff.
    + intros. eapply init_total; eassumption.
  - eapply init_invariant; eassumption.
  - eapply copy_invariant; eassumption.
  - eapply transform_invariant, get_range_transform; eassumption.
  - eapply from_dict_invariant; eassumption.
  - eapply transform_invariant, subtract_spectra_transform; eassumption.
  - eapply transform_invariant, divide_spectra_transform; eassumption.
  - eapply transform_invariant, normalize_spectrum_transform; eassumption.
  - eapply transform_invariant, smooth_spectrum_transform; eassumption.
  - eapply transform_invariant, convert_units_transform; eassumption.
Qed.

Lemma length_invariant_witness :
  (exists msg w1,
     __init__ (ArrSeq [1; 2; 3]%float) (ArrSeq [10; 20]%float) "nm" "counts"
       None None None (World [] 0) = (Raise (ValueError msg), w1)) /\
  (exists r w',
     get_range sample_spectrum 2 4 sample_world = (Ok r, w') /\
     invariant w' r).
Proof.
  destruct length_invariant as (Hinit & _ & _ & Hrange & _).
  split.
  - apply (Hinit (ArrSeq [1; 2; 3]%float) (ArrSeq [10; 20]%float) "nm"
             "counts" None None None (World [] 0) _ _ eq_refl eq_refl).
    cbn. lia.
  - pose (run := get_range sample_spectrum 2 4 sample_world).
    assert (run = (Ok (MkSpectrum 4 5 "nm" "counts" 8 7 None), snd run))
      as Hrun by (vm_compute; reflexivity).
    exists (MkSpectrum 4 5 "nm" "counts" 8 7 None), (snd run).
    split; [exact Hrun|]. exact (Hrange _ _ _ _ _ _ Hrun).
Defined.

(** * The constructor on existing containers *)

(** What [__init__] leaves behind when it is handed two arrays, a dict and a
    list that all exist in [w]. *)
Lemma init_post wl fl wu fu md pv nm w s w' xs ys d p :
  heap w !! wl = Some (OArr xs) ->
  heap w !! fl = Some (OArr ys) ->
  heap w !! md = Some (ODict d) ->
  heap w !! pv = Some (OList p) ->
  __init__ (ArrRef wl) (ArrRef fl) wu fu (Some md) (Some pv) nm w
  = (Ok s, w') ->
  length xs = length ys /\
  wavelength s = wl /\ flux s = fl /\
  wavelength_unit s = wu /\ flux_unit s = fu /\ name s = nm /\
  heap w' !! metadata s = Some (ODict d) /\
  heap w' !! provenance s = Some (OList (p ++ [created_record (clock w)])) /\
  (metadata s = md \/ length (heap w) <= metadata s) /\
  (p <> [] -> provenance s = pv) /\
  (p = [] -> length (heap w) <= provenance s /\ grows w w') /\
  (forall l o, heap w !! l = Some o -> l <> pv -> heap w' !! l = Some o) /\
  (forall h0, h0 `prefix_of` heap w -> length h0 <= pv ->
              h0 `prefix_of` heap w') /\
  clock w' = S (S (clock w)).
Proof.
  intros Hwl Hfl Hmd Hpv H.
  rewrite (init_run w wl fl wu fu md pv nm xs ys d p Hwl Hfl Hmd Hpv) in H.
  cbn zeta in H.
  destruct (Nat.eqb (length xs) (length ys)) eqn:E; cbn [negb] in H;
    [|discriminate].
  apply Nat.eqb_eq in E. split; [exact E|].
  pose proof (lookup_lt_Some _ _ _ Hmd) as Lmd.
  pose proof (lookup_lt_Some _ _ _ Hpv) as Lpv.
  destruct (Nat.eqb (size d) 0) eqn:Hd; destruct p as [|r0 p'];
    injection H as <- <-;
    cbn [wavelength flux wavelength_unit flux_unit name metadata provenance
         heap clock];
    try (apply Nat.eqb_eq in Hd; apply map_size_empty_iff in Hd; subst d).
  - repeat apply conj; try reflexivity.
    + rewrite list_lookup_insert_ne by solve_len.
      apply lookup_grow, lookup_new.
    + apply list_lookup_insert_eq. solve_len.
    + right. solve_len.
    + intros Hne. now destruct Hne.
    + intros _. split; [solve_len|].
      apply grows_insert; [|solve_len].
      exists [ODict ∅; OList []]. now rewrite <- app_assoc.
    + intros l o Hl _. pose proof (lookup_lt_Some _ _ _ Hl).
      rewrite list_lookup_insert_ne by solve_len.
      now apply lookup_grow, lookup_grow.
    + intros h0 Hpre Hle. apply prefix_insert; [|solve_len].
      now apply prefix_app_r, prefix_app_r.
  - repeat apply conj; try reflexivity.
    + rewrite list_lookup_insert_ne by solve_len. apply lookup_new.
    + apply list_lookup_insert_eq. solve_len.
    + right. solve_len.
    + discriminate.
    + intros l o Hl Hne. rewrite list_lookup_insert_ne by easy.
      now apply lookup_grow.
    + intros h0 Hpre Hle. apply prefix_insert; [|easy].
      now apply prefix_app_r.
  - repeat apply conj; try reflexivity.
    + rewrite list_lookup_insert_ne by solve_len. now apply lookup_grow.
    + apply list_lookup_insert_eq. solve_len.
    + now left.
    + intros Hne. now destruct Hne.
    + intros _. split; [solve_len|].
      apply grows_insert; [|solve_len]. now exists [OList []].
    + intros l o Hl _. pose proof (lookup_lt_Some _ _ _ Hl).
      rewrite list_lookup_insert_ne by solve_len. now apply lookup_grow.
    + intros h0 Hpre Hle. apply prefix_insert; [|solve_len].
      now apply prefix_app_r.
  - repeat apply conj; try reflexivity.
    + rewrite list_lookup_insert_ne; [easy|]. intros <-.
      rewrite Hmd in Hpv. discriminate.
    + now apply list_lookup_insert_eq.
    + now left.
    + discriminate.
    + intros l o Hl Hne. now rewrite list_lookup_insert_ne.
    + intros h0 Hpre Hle. now apply prefix_insert.
Qed.

(** * Copies *)

Lemma copy_run w s xs ys d p :
  holds w s xs ys d p -> length xs = length ys ->
  exists c w',
    copy s w = (Ok c, w') /\
    holds w' c xs ys d (p ++ [created_record (clock w)]) /\
    wavelength_unit c = wavelength_unit s /\
    flux_unit c = flux_unit s /\ name c = name s /\
    grows w w' /\
    (forall l, l ∈ refs c -> length (heap w) <= l).
Proof.
  intros (Hwl & Hfl & Hmd & Hpv) Hlen.
  unfold copy, ndarray_copy, deepcopy_dict, deepcopy_list.
  do 4 mstep.
  set (w4 := World ((((heap w ++ [OArr xs]) ++ [OArr ys]) ++ [ODict d])
                      ++ [OList p]) (clock w)).
  assert (grows w w4) as Hg.
  { exists [OArr xs; OArr ys; ODict d; OList p]. cbn.
    now rewrite <- !app_assoc. }
  assert (length (heap w4) = 4 + length (heap w)) as Hl4
    by (cbn; solve_len).
  assert (heap w4 !! length (heap w) = Some (OArr xs)) as H1
    by (subst w4; lookup_heap).
  assert (heap w4 !! length (heap w ++ [OArr xs]) = Some (OArr ys)) as H2
    by (subst w4; lookup_heap).
  assert (heap w4 !! length ((heap w ++ [OArr xs]) ++ [OArr ys])
          = Some (ODict d)) as H3 by (subst w4; lookup_heap).
  assert (heap w4 !! length (((heap w ++ [OArr xs]) ++ [OArr ys])
                               ++ [ODict d]) = Some (OList p)) as H4
    by (subst w4; lookup_heap).
  destruct (init_total (ArrRef (length (heap w)))
              (ArrRef (length (heap w ++ [OArr xs])))
              (wavelength_unit s) (flux_unit s)
              (Some (length ((heap w ++ [OArr xs]) ++ [OArr ys])))
              (Some (length (((heap w ++ [OArr xs]) ++ [OArr ys])
                               ++ [ODict d])))
              (name s) w4 xs ys H1 H2) as (c & w' & Hrun);
    [now exists d|now exists p|exact Hlen|].
  exists c, w'. split; [exact Hrun|].
  destruct (init_post _ _ _ _ _ _ _ _ _ _ _ _ _ _ H1 H2 H3 H4 Hrun)
    as (_ & Ewl & Efl & Ewu & Efu & Enm & Lmd & Lpv & Fmd & Fpv & Fnil
        & Frame & Fpre & _).
  assert (length (heap w) <= provenance c) as Fp.
  { destruct p as [|r0 p'].
    - destruct (Fnil eq_refl) as [Hge _]. lia.
    - rewrite Fpv by discriminate. solve_len. }
  assert (forall l o, heap w !! l = Some o -> heap w' !! l = Some o) as Hold.
  { intros l o Hl. pose proof (lookup_lt_Some _ _ _ Hl).
    apply Frame; [eauto using grows_lookup|solve_len]. }
  repeat apply conj; try assumption.
  - rewrite Ewl. apply Frame; [exact H1|solve_len].
  - rewrite Efl. apply Frame; [exact H2|solve_len].
  - apply Fpre; [exact Hg|solve_len].
  - intros l Hl. unfold refs in Hl. rewrite Ewl, Efl in Hl.
    apply elem_of_cons in Hl. destruct Hl as [->|Hl]; [solve_len|].
    apply elem_of_cons in Hl. destruct Hl as [->|Hl]; [solve_len|].
    apply elem_of_cons in Hl. destruct Hl as [->|Hl].
    { destruct Fmd as [->|Hge]; solve_len. }
    apply elem_of_cons in Hl. destruct Hl as [->|Hl]; [exact Fp|].
    now apply elem_of_nil in Hl.
Qed.

(** C2, as the specification words it, fails: the log of a copy is not the
    log of the original, it has one more record. *)
Lemma copy_log_is_not_the_original_log :
  ~ (forall self w c w' p,
       copy self w = (Ok c, w') -> log_of w self p -> log_of w' c p).
Proof.
  intros H.
  pose (w' := snd (copy sample_spectrum sample_world)).
  specialize (H sample_spectrum sample_world
                (MkSpectrum 4 5 "nm" "counts" 8 7 None) w'
                [created_record 0] eq_refl eq_refl).
  vm_compute in H. discriminate H.
Qed.

(** C2 (amended): for every spectrum [s] (with arrays of one length),
    [s.copy()] returns a spectrum whose wavelength, flux, metadata, units and
    name equal those of [s] and whose provenance log is the log of [s]
    followed by one ["created"] record, appended by the constructor of the
    copy.  [s] itself is unchanged, and the arrays, the metadata and the log
    of the copy are objects of their own: changing any of them in place
    leaves [s] as it was. *)
Theorem copy_is_independent :
  forall w s xs ys d p,
    holds w s xs ys d p -> length xs = length ys ->
    exists c w',
      copy s w = (Ok c, w') /\
      holds w' c xs ys d (p ++ [created_record (clock w)]) /\
      wavelength_unit c = wavelength_unit s /\
      flux_unit c = flux_unit s /\ name c = name s /\
      holds w' s xs ys d p /\
      (forall l o, l ∈ refs c -> holds (mutate l o w') s xs ys d p).
Proof.
  intros w s xs ys d p Hs Hlen.
  destruct (copy_run w s xs ys d p Hs Hlen)
    as (c & w' & Hrun & Hc & Hwu & Hfu & Hnm & Hg & Hfresh).
  exists c, w'.
  split; [exact Hrun|]. split; [exact Hc|]. split; [exact Hwu|].
  split; [exact Hfu|]. split; [exact Hnm|]. split.
  - destruct Hs as (H1 & H2 & H3 & H4).
    repeat split; eauto using grows_lookup.
  - intros l o Hl. apply Hfresh in Hl.
    destruct Hs as (H1 & H2 & H3 & H4). unfold holds, mutate. cbn [heap].
    pose proof (lookup_lt_Some _ _ _ H1).
    pose proof (lookup_lt_Some _ _ _ H2).
    pose proof (lookup_lt_Some _ _ _ H3).
    pose proof (lookup_lt_Some _ _ _ H4).
    repeat split; (rewrite list_lookup_insert_ne by lia);
      eauto using grows_lookup.
Qed.

Lemma copy_is_independent_witness :
  exists c w',
    copy sample_spectrum sample_world = (Ok c, w') /\
    holds w' c [1; 2; 3; 4; 5]%float [10; 20; 30; 40; 50]%float ∅
      [created_record 0; created_record 2] /\
    holds (mutate (flux c) (OArr []) w') sample_spectrum
      [1; 2; 3; 4; 5]%float [10; 20; 30; 40; 50]%float ∅ [created_record 0].
Proof.
  destruct (copy_is_independent sample_world sample_spectrum
              [1; 2; 3; 4; 5]%float [10; 20; 30; 40; 50]%float ∅
              [created_record 0])
    as (c & w' & Hrun & Hc & _ & _ & _ & _ & Hmut).
  - repeat split; reflexivity.
  - reflexivity.
  - exists c, w'. repeat split; try apply Hc; try exact Hrun;
      apply (Hmut (flux c) (OArr [])); unfold refs;
      apply elem_of_cons; right; apply elem_of_cons; now left.
Defined.

(** * The constructor and the caller's provenance list *)

Lemma init_keeps_nonempty_list wl fl wu fu md pv nm w s w' p :
  heap w !! pv = Some (OList p) -> p <> [] ->
  __init__ wl fl wu fu md (Some pv) nm w = (Ok s, w') ->
  provenance s = pv /\
  heap w' !! pv = Some (OList (p ++ [created_record (clock w)])).
Proof.
  intros Hp Hne H. apply init_inv in H.
  destruct H as (w1 & w2 & w3 & w4 & xs & ys & p' & Hwl & Hfl & _ & _ & _
                 & Hmd & Hpv & Hp' & Hh & _).
  apply np_asarray_inv in Hwl. destruct Hwl as (_ & _ & _ & Hg1 & _).
  apply np_asarray_inv in Hfl. destruct Hfl as (_ & _ & _ & Hg2 & _).
  apply or_new_dict_inv in Hmd. destruct Hmd as (_ & Hg3 & _).
  assert (grows w w3) as Hg.
  { etransitivity; [exact Hg1|]. etransitivity; eassumption. }
  pose proof (grows_lookup _ _ _ _ Hg Hp) as Hp3.
  apply or_new_list_inv in Hpv.
  destruct Hpv as (_ & _ & [(-> & E & _)|(_ & _ & [E|(l0 & E & Hnil)])]).
  - injection E as E. subst pv. rewrite Hp3 in Hp'.
    injection Hp' as <-. split; [reflexivity|].
    rewrite Hh. eapply insert_list_same. exact Hp3.
  - discriminate.
  - injection E as <-. rewrite Hp3 in Hnil. injection Hnil as ->.
    now destruct Hne.
Qed.

Lemma init_replaces_missing_list wl fl wu fu md pv nm w s w' :
  pv = None \/ (exists l, pv = Some l /\ heap w !! l = Some (OList [])) ->
  __init__ wl fl wu fu md pv nm w = (Ok s, w') ->
  length (heap w) <= provenance s /\
  heap w' !! provenance s = Some (OList [created_record (clock w)]) /\
  grows w w'.
Proof.
  intros Hpv0 H. apply init_inv in H.
  destruct H as (w1 & w2 & w3 & w4 & xs & ys & p' & Hwl & Hfl & _ & _ & _
                 & Hmd & Hpv & Hp' & Hh & _).
  apply np_asarray_inv in Hwl. destruct Hwl as (_ & _ & _ & Hg1 & _).
  apply np_asarray_inv in Hfl. destruct Hfl as (_ & _ & _ & Hg2 & _).
  apply or_new_dict_inv in Hmd. destruct Hmd as (_ & Hg3 & _).
  assert (grows w w3) as Hg.
  { etransitivity; [exact Hg1|]. etransitivity; eassumption. }
  apply or_new_list_inv in Hpv.
  destruct Hpv as (_ & _ & [(-> & E & q & Hq & Hqne)|(Hh4 & El & _)]).
  - exfalso. destruct Hpv0 as [->|(l & -> & Hl)]; [discriminate|].
    injection E as E. subst l. rewrite (grows_lookup _ _ _ _ Hg Hl) in Hq.
    injection Hq as <-. now destruct Hqne.
  - rewrite Hh4 in Hp', Hh. rewrite El in *.
    rewrite lookup_new in Hp'. injection Hp' as <-.
    pose proof (grows_length _ _ Hg) as Hle.
    split; [exact Hle|]. split.
    + rewrite Hh. apply list_lookup_insert_eq. solve_len.
    + unfold grows. rewrite Hh. apply grows_insert; [|exact Hle].
      destruct Hg as [ext ->]. exists (ext ++ [OList []]).
      now rewrite app_assoc.
Qed.

Lemma to_dict_inv self w data w1 :
  to_dict self w = (Ok data, w1) ->
  w1 = w /\
  d_metadata data = Some (metadata self) /\
  d_provenance data = Some (provenance self) /\
  d_wavelength_unit data = Some (wavelength_unit self) /\
  d_flux_unit data = Some (flux_unit self) /\
  d_name data = name self /\
  exists xs ys,
    heap w !! wavelength self = Some (OArr xs) /\
    heap w !! flux self = Some (OArr ys) /\
    d_wavelength data = Some xs /\ d_flux data = Some ys.
Proof.
  unfold to_dict. intros H.
  apply bind_inv in H. destruct H as (xs & ? & Hx & H). minv_prim Hx.
  apply bind_inv in H. destruct H as (ys & ? & Hy & H). minv_prim Hy.
  apply mret_inv in H. destruct H as [-> ->]. cbn.
  repeat split. now exists xs, ys.
Qed.

(** [from_dict] up to its constructor call. *)
Lemma from_dict_unfold data w xs ys :
  d_wavelength data = Some xs -> d_flux data = Some ys ->
  from_dict data w =
    __init__ (ArrRef (length (heap w)))
      (ArrRef (length (heap w ++ [OArr xs])))
      (get_or (d_wavelength_unit data) "nm")
      (get_or (d_flux_unit data) "counts")
      (Some (get_or (d_metadata data)
               (length ((heap w ++ [OArr xs]) ++ [OArr ys]))))
      (Some (get_or (d_provenance data)
               (length (((heap w ++ [OArr xs]) ++ [OArr ys]) ++ [ODict ∅]))))
      (d_name data)
      (World ((((heap w ++ [OArr xs]) ++ [OArr ys]) ++ [ODict ∅])
                ++ [OList []]) (clock w)).
Proof.
  intros Hx Hy. unfold from_dict. rewrite Hx, Hy. cbn [getitem].
  do 6 mstep. reflexivity.
Qed.

Lemma from_dict_inv_arrays data w r w' :
  from_dict data w = (Ok r, w') ->
  exists xs ys, d_wavelength data = Some xs /\ d_flux data = Some ys.
Proof.
  unfold from_dict. intros H.
  apply bind_inv in H. destruct H as (xs & w1 & Hx & H).
  apply bind_inv in H. destruct H as (? & w2 & _ & H).
  apply bind_inv in H. destruct H as (ys & w3 & Hy & _).
  destruct (d_wavelength data) as [xs0|]; [|discriminate].
  destruct (d_flux data) as [ys0|]; [|discriminate].
  now exists xs0, ys0.
Qed.

Lemma from_dict_keeps_nonempty_list data w r w' pv p :
  d_provenance data = Some pv ->
  heap w !! pv = Some (OList p) -> p <> [] ->
  from_dict data w = (Ok r, w') ->
  provenance r = pv /\
  heap w' !! pv = Some (OList (p ++ [created_record (clock w)])).
Proof.
  intros Hd Hp Hne H.
  destruct (from_dict_inv_arrays _ _ _ _ H) as (xs & ys & Hx & Hy).
  rewrite (from_dict_unfold data w xs ys Hx Hy), Hd in H. cbn [get_or] in H.
  eapply init_keeps_nonempty_list in H; [exact H| |exact Hne].
  cbn [heap]. lookup_heap.
Qed.

(** C10: a non-empty provenance list handed to the constructor is stored as
    it is, and the ["created"] record is appended to that very list, in the
    caller's hands too; so it is for [from_dict], whose dict may hold the
    list that [to_dict] of another spectrum returned by reference.  When the
    argument is [None] or an empty list, the spectrum gets a new list and
    nothing that existed before the call is changed. *)
Theorem constructor_appends_to_callers_list :
  (forall wl fl wu fu md pv nm w s w' p,
     heap w !! pv = Some (OList p) -> p <> [] ->
     __init__ wl fl wu fu md (Some pv) nm w = (Ok s, w') ->
     provenance s = pv /\
     heap w' !! pv = Some (OList (p ++ [created_record (clock w)]))) /\
  (forall self w data w1,
     to_dict self w = (Ok data, w1) ->
     w1 = w /\ d_provenance data = Some (provenance self)) /\
  (forall data w r w' pv p,
     d_provenance data = Some pv ->
     heap w !! pv = Some (OList p) -> p <> [] ->
     from_dict data w = (Ok r, w') ->
     provenance r = pv /\
     heap w' !! pv = Some (OList (p ++ [created_record (clock w)]))) /\
  (forall wl fl wu fu md pv nm w s w',
     pv = None \/ (exists l, pv = Some l /\ heap w !! l = Some (OList [])) ->
     __init__ wl fl wu fu md pv nm w = (Ok s, w') ->
     length (heap w) <= provenance s /\
     heap w' !! provenance s = Some (OList [created_record (clock w)]) /\
     grows w w').
Proof.
  repeat apply conj.
  - intros. eapply init_keeps_nonempty_list; eassumption.
  - intros self w data w1 H. apply to_dict_inv in H. easy.
  - intros. eapply from_dict_keeps_nonempty_list; eassumption.
  - intros. eapply init_replaces_missing_list; eassumption.
Qed.

Lemma constructor_appends_to_callers_list_witness :
  exists data r w',
    to_dict sample_spectrum sample_world = (Ok data, sample_world) /\
    from_dict data sample_world = (Ok r, w') /\
    provenance r = provenance sample_spectrum /\
    log_of w' sample_spectrum [created_record 0; created_record 2].
Proof.
  destruct constructor_appends_to_callers_list as (_ & _ & Hfrom & _).
  pose (data := MkSdict (Some [1; 2; 3; 4; 5]%float)
                  (Some [10; 20; 30; 40; 50]%float) (Some "nm")
                  (Some "counts") (Some 2) (Some 3) None).
  pose (run := from_dict data sample_world).
  assert (run = (Ok (MkSpectrum 4 5 "nm" "counts" 8 3 None), snd run))
    as Hrun by (vm_compute; reflexivity).
  exists data, (MkSpectrum 4 5 "nm" "counts" 8 3 None), (snd run).
  split; [reflexivity|]. split; [exact Hrun|].
  apply (Hfrom data sample_world _ _ 3 [created_record 0] eq_refl eq_refl);
    [discriminate|exact Hrun].
Defined.

(** * Serialization round trip *)

(** C4: [Spectrum.from_dict(s.to_dict())] returns a spectrum whose wavelength
    array, flux array, units, metadata and name equal those of [s]. *)
Theorem from_dict_to_dict_round_trip :
  forall w s xs ys d p,
    holds w s xs ys d p -> length xs = length ys ->
    exists data r w',
      to_dict s w = (Ok data, w) /\
      from_dict data w = (Ok r, w') /\
      heap w' !! wavelength r = Some (OArr xs) /\
      heap w' !! flux r = Some (OArr ys) /\
      wavelength_unit r = wavelength_unit s /\
      flux_unit r = flux_unit s /\
      heap w' !! metadata r = Some (ODict d) /\
      name r = name s.
Proof.
  intros w s xs ys d p (Hwl & Hfl & Hmd & Hpv) Hlen.
  pose (data := MkSdict (Some xs) (Some ys) (Some (wavelength_unit s))
                  (Some (flux_unit s)) (Some (metadata s))
                  (Some (provenance s)) (name s)).
  exists data.
  assert (to_dict s w = (Ok data, w)) as Hto.
  { unfold to_dict. do 2 mstep. reflexivity. }
  pose proof (from_dict_unfold data w xs ys eq_refl eq_refl) as Hfd.
  cbn [data d_wavelength_unit d_flux_unit d_metadata d_provenance d_name
       get_or] in Hfd.
  rewrite Hfd. clear Hfd.
  set (w4 := World ((((heap w ++ [OArr xs]) ++ [OArr ys]) ++ [ODict ∅])
                      ++ [OList []]) (clock w)).
  assert (grows w w4) as Hg.
  { exists [OArr xs; OArr ys; ODict ∅; OList []]. cbn.
    now rewrite <- !app_assoc. }
  assert (heap w4 !! length (heap w) = Some (OArr xs)) as H1
    by (subst w4; lookup_heap).
  assert (heap w4 !! length (heap w ++ [OArr xs]) = Some (OArr ys)) as H2
    by (subst w4; lookup_heap).
  pose proof (grows_lookup _ _ _ _ Hg Hmd) as H3.
  pose proof (grows_lookup _ _ _ _ Hg Hpv) as H4.
  destruct (init_total (ArrRef (length (heap w)))
              (ArrRef (length (heap w ++ [OArr xs])))
              (wavelength_unit s) (flux_unit s)
              (Some (metadata s)) (Some (provenance s))
              (name s) w4 xs ys H1 H2) as (r & w' & Hrun);
    [now exists d|now exists p|exact Hlen|].
  exists r, w'. split; [exact Hto|]. split; [exact Hrun|].
  destruct (init_post _ _ _ _ _ _ _ _ _ _ _ _ _ _ H1 H2 H3 H4 Hrun)
    as (_ & Ewl & Efl & Ewu & Efu & Enm & Lmd & _ & _ & _ & _ & Frame & _).
  pose proof (lookup_lt_Some _ _ _ Hpv) as Lpv.
  rewrite Ewl, Efl. repeat apply conj; try assumption.
  - apply Frame; [exact H1|lia].
  - apply Frame; [exact H2|solve_len].
Qed.

Lemma from_dict_to_dict_round_trip_witness :
  exists data r w',
    to_dict sample_spectrum sample_world = (Ok data, sample_world) /\
    from_dict data sample_world = (Ok r, w') /\
    heap w' !! wavelength r = Some (OArr [1; 2; 3; 4; 5]%float) /\
    heap w' !! flux r = Some (OArr [10; 20; 30; 40; 50]%float) /\
    wavelength_unit r = "nm" /\ flux_unit r = "counts" /\
    heap w' !! metadata r = Some (ODict ∅) /\ name r = None.
Proof.
  apply (from_dict_to_dict_round_trip sample_world sample_spectrum
           [1; 2; 3; 4; 5]%float [10; 20; 30; 40; 50]%float ∅
           [created_record 0]).
  - repeat split; reflexivity.
  - reflexivity.
Defined.

(** * Normalization *)

(** A successful [normalize_spectrum], taken apart. *)
Lemma normalize_spectrum_inv w s xs ys d p method range_min range_max r w' :
  holds w s xs ys d p ->
  normalize_spectrum s method range_min range_max w = (Ok r, w') ->
  exists region nf,
    flux_region_of xs ys range_min range_max = Ok region /\
    norm_factor_of method region = Ok nf /\
    PrimFloat.eqb nf 0 = false /\
    heap w' !! flux r = Some (OArr ((fun x => PrimFloat.div x nf) <$> ys)) /\
    heap w' !! wavelength r = Some (OArr xs) /\
    flux_unit r = "normalized" /\
    log_of w' r (p ++ [created_record (clock w);
                       normalization_record (S (S (clock w))) method nf
                         range_min range_max]).
Proof.
  intros (Hwl & Hfl & Hmd & Hpv) H.
  unfold normalize_spectrum, ndarray_copy in H.
  apply bind_inv in H. destruct H as (fl0 & ? & Hf & H). minv_prim Hf.
  rewrite Hfl in Hf. injection Hf as <-.
  apply bind_inv in H. destruct H as (region & w1 & Hr & H).
  assert (w1 = w /\ flux_region_of xs ys range_min range_max = Ok region)
    as [-> Hreg].
  { unfold flux_region_of.
    destruct range_min as [lo|], range_max as [hi|];
      try (minv_prim Hr; now subst).
    apply bind_inv in Hr. destruct Hr as (wl0 & ? & Hw & Hr). minv_prim Hw.
    rewrite Hwl in Hw. injection Hw as <-. now minv_prim Hr. }
  apply bind_inv in H. destruct H as (nf & ? & Hn & H). minv_prim Hn.
  destruct (PrimFloat.eqb nf 0) eqn:Hz; [discriminate|].
  exists region, nf. split; [exact Hreg|]. split; [exact Hn|].
  split; [exact Hz|].
  minv_all H. apply derive_inv in H.
  destruct H as (xs' & ys' & d' & p' & Hxs' & Hys' & _ & _ & Hp' & Hpost).
  destruct Hpost as (Ewl & Efl & _ & Efu & _ & Hg & _ & _ & _ & Hlog & _).
  cbn [heap clock] in *.
  pose proof (grows_lookup _ _ _ _ Hg Hxs') as Hx2.
  pose proof (grows_lookup _ _ _ _ Hg Hys') as Hy2.
  rewrite lookup_new in Hxs'. injection Hxs' as <-.
  rewrite (lookup_grow _ [_] _ _ (lookup_new _ _)) in Hys'.
  injection Hys' as <-.
  rewrite (lookup_grow _ [_] _ _ (lookup_grow _ [_] _ _ Hpv)) in Hp'.
  injection Hp' as <-.
  rewrite (lookup_grow _ [_] _ _ Hwl) in R0. injection R0 as <-.
  rewrite Ewl, Efl. repeat apply conj; try assumption.
Qed.

(** * Forward runs of the transforms *)

(** From the allocation of the new flux array to the end of a transform. *)
Lemma finish_run w s xs ys d p zs wu fu nm op dt :
  holds w s xs ys d p -> length zs = length xs ->
  exists r w',
    (fl ← alloc (OArr zs);
     wl ← ndarray_copy (wavelength s);
     derive wl fl wu fu (metadata s) (provenance s) nm op dt) w = (Ok r, w') /\
    heap w' !! flux r = Some (OArr zs) /\
    heap w' !! wavelength r = Some (OArr xs) /\
    wavelength_unit r = wu /\ flux_unit r = fu /\ name r = nm /\
    heap w' !! metadata r = Some (ODict d) /\
    log_of w' r (p ++ [created_record (clock w);
                       ProvRecord op (S (S (clock w))) dt]) /\
    grows w w'.
Proof.
  intros (Hwl & Hfl & Hmd & Hpv) Hlen.
  unfold ndarray_copy. do 2 mstep.
  set (wk := World ((heap w ++ [OArr zs]) ++ [OArr xs]) (clock w)).
  assert (grows w wk) as Hg.
  { exists [OArr zs; OArr xs]. cbn. now rewrite <- app_assoc. }
  assert (heap wk !! length (heap w ++ [OArr zs]) = Some (OArr xs)) as H1
    by (subst wk; lookup_heap).
  assert (heap wk !! length (heap w) = Some (OArr zs)) as H2
    by (subst wk; lookup_heap).
  destruct (derive_run wk _ _ wu fu _ _ nm op dt _ _ _ _ H1 H2
              (grows_lookup _ _ _ _ Hg Hmd) (grows_lookup _ _ _ _ Hg Hpv))
    as [(Hne & _)|(_ & r & w' & Hrun & Hpost)]; [now destruct Hne|].
  exists r, w'. split; [exact Hrun|].
  destruct Hpost as (Ewl & Efl & Ewu & Efu & Enm & Hg' & _ & _ & Hd & Hlog & _).
  rewrite Ewl, Efl. unfold log_of.
  repeat apply conj; try assumption; eauto using grows_lookup.
  etransitivity; eassumption.
Qed.

Lemma array_equal_length xs ys :
  np.array_equal xs ys = true -> length xs = length ys.
Proof.
  unfold np.array_equal. intros H. apply andb_true_iff in H.
  destruct H as [H _]. now apply Nat.eqb_eq.
Qed.

(** On grids that compare equal nothing is interpolated. *)
Lemma align_flux_same_grid w a b interpolate awl bwl bfl :
  heap w !! wavelength a = Some (OArr awl) ->
  heap w !! wavelength b = Some (OArr bwl) ->
  heap w !! flux b = Some (OArr bfl) ->
  np.array_equal awl bwl = true ->
  align_flux a b interpolate w = (Ok bfl, w).
Proof.
  intros Ha Hb Hf Heq. unfold align_flux. do 2 mstep.
  rewrite Heq, andb_false_r, (array_equal_length _ _ Heq), Nat.eqb_refl.
  cbn [negb]. now apply read_arr_ok.
Qed.

(** * Division *)

(** The flux [divide_spectra] computes under ["mask"], position by
    position. *)
Definition masked_quotient (x y : float) : float :=
  if PrimFloat.eqb y 0 then nan else PrimFloat.div x y.

Lemma mask_select_cons (x : float) (xs : list float) (m : bool)
    (mask : list bool) :
  fst <$> filter (fun p : float * bool => snd p = true) (zip (x :: xs) (m :: mask))
  = (if m then [x] else [])
    ++ (fst <$> filter (fun p : float * bool => snd p = true) (zip xs mask)).
Proof.
  cbn [zip zip_with]. rewrite filter_cons. destruct m; cbn.
  - reflexivity.
  - reflexivity.
Qed.

Lemma mask_fill_quotient afl bfl :
  length afl = length bfl ->
  let mask := (fun y => negb (PrimFloat.eqb y 0)) <$> bfl in
  let sel (xs : list float) :=
    fst <$> filter (fun p : float * bool => snd p = true) (zip xs mask) in
  length (sel afl) = length (sel bfl) /\
  mask_fill ((fun _ => nan) <$> afl) mask
    (zip_with PrimFloat.div (sel afl) (sel bfl))
  = Some (zip_with masked_quotient afl bfl).
Proof.
  revert bfl. induction afl as [|x afl IH]; intros [|y bfl] Hlen;
    try discriminate.
  - cbn. easy.
  - injection Hlen as Hlen. specialize (IH bfl Hlen). cbn zeta in *.
    destruct IH as [IHl IHf].
    rewrite !fmap_cons, !mask_select_cons.
    change (zip_with masked_quotient (x :: afl) (y :: bfl))
      with (masked_quotient x y :: zip_with masked_quotient afl bfl).
    unfold masked_quotient at 1.
    destruct (PrimFloat.eqb y 0); cbn [negb app length zip_with mask_fill].
    + split; [exact IHl|]. now rewrite IHf.
    + split; [now rewrite IHl|]. now rewrite IHf.
Qed.

Lemma divide_flux_mask afl bfl :
  length afl = length bfl ->
  divide_flux afl bfl "mask" = Ok (zip_with masked_quotient afl bfl).
Proof.
  intros Hlen. unfold divide_flux. cbn [String.eqb Ascii.eqb Bool.eqb].
  destruct (mask_fill_quotient afl bfl Hlen) as [Hl Hf]. cbn zeta in Hl, Hf.
  unfold np_mask_select, mask_assign, np.div, np.broadcast2.
  rewrite !length_fmap, Hlen, Nat.eqb_refl, Hl, Nat.eqb_refl.
  rewrite Hf. reflexivity.
Qed.

Lemma divide_spectra_mask_run w a b interpolate awl afl ad ap bwl bfl bd bp :
  holds w a awl afl ad ap -> holds w b bwl bfl bd bp ->
  length afl = length awl -> length bfl = length bwl ->
  np.array_equal awl bwl = true ->
  exists r w',
    divide_spectra a b interpolate "mask" w = (Ok r, w') /\
    heap w' !! flux r = Some (OArr (zip_with masked_quotient afl bfl)) /\
    heap w' !! wavelength r = Some (OArr awl).
Proof.
  intros Ha Hb Hla Hlb Heq.
  pose proof (array_equal_length _ _ Heq) as Hl.
  assert (length afl = length bfl) as Hlen by congruence.
  destruct (finish_run w a awl afl ad ap (zip_with masked_quotient afl bfl)
              (wavelength_unit a)
              ("(" ++ flux_unit a ++ ")/(" ++ flux_unit b ++ ")")%string None
              "division"
              [("operand", VStr (name_or_unnamed (name b)));
               ("interpolated", VBool interpolate);
               ("handle_zeros", VStr "mask")] Ha)
    as (r & w' & Hrun & Hfl & Hwl & _).
  { rewrite length_zip_with. lia. }
  exists r, w'. split; [|easy].
  destruct Ha as (Hawl & Hafl & _). destruct Hb as (Hbwl & Hbfl & _).
  unfold divide_spectra.
  erewrite bind_ok by (eapply align_flux_same_grid; eassumption).
  mstep.
  erewrite bind_ok by (unfold lift; rewrite (divide_flux_mask _ _ Hlen);
                       reflexivity).
  exact Hrun.
Qed.

(** The two-spectra store of the division examples: [a] holds a NaN (left by
    an earlier masked division) where [b] is not zero. *)
Definition nan_world : world :=
  World [OArr [1; 2]%float; OArr [nan; 6]%float; ODict ∅;
         OList [created_record 0];
         OArr [1; 2]%float; OArr [1; 0]%float; ODict ∅;
         OList [created_record 2]] 4.

Definition nan_a : Spectrum := MkSpectrum 0 1 "nm" "counts" 2 3 None.
Definition nan_b : Spectrum := MkSpectrum 4 5 "nm" "counts" 6 7 None.

(** C6, as the specification words it, fails: the result is NaN at a
    position where the denominator is not zero, because the numerator is NaN
    there. *)
Lemma masked_division_nan_off_the_zeros :
  ~ (forall w a b interpolate awl afl ad ap bwl bfl bd bp r w' zs,
       holds w a awl afl ad ap -> holds w b bwl bfl bd bp ->
       np.array_equal awl bwl = true ->
       divide_spectra a b interpolate "mask" w = (Ok r, w') ->
       heap w' !! flux r = Some (OArr zs) ->
       forall i z y, zs !! i = Some z -> bfl !! i = Some y ->
                     (is_nan z = true <-> PrimFloat.eqb y 0 = true)).
Proof.
  intros H.
  pose (run := divide_spectra nan_a nan_b true "mask" nan_world).
  assert (run = (Ok (MkSpectrum 9 8 "nm" "(counts)/(counts)" 12 11 None),
                 snd run)) as Hrun by (vm_compute; reflexivity).
  assert (heap (snd run) !! 8 = Some (OArr [nan; nan]%float)) as Hz
    by (vm_compute; reflexivity).
  specialize (H nan_world nan_a nan_b true
                [1; 2]%float [nan; 6]%float ∅ [created_record 0]
                [1; 2]%float [1; 0]%float ∅ [created_record 2]
                (MkSpectrum 9 8 "nm" "(counts)/(counts)" 12 11 None)
                (snd run) [nan; nan]%float).
  destruct (H ltac:(repeat split; reflexivity) ltac:(repeat split; reflexivity)
              eq_refl Hrun Hz 0 nan 1%float eq_refl eq_refl) as [Hnan _].
  specialize (Hnan eq_refl). vm_compute in Hnan. discriminate Hnan.
Qed.

(** C6 (amended): on grids that compare equal,
    [divide_spectra(a, b, handle_zeros="mask")] returns a flux array that is
    NaN at every position where the flux of [b] is exactly zero and equals
    [a.flux / b.flux] at every other position; so a position of the result
    holds NaN exactly when the flux of [b] is zero there or the quotient
    itself is NaN. *)
Theorem masked_division_pointwise :
  forall w a b interpolate awl afl ad ap bwl bfl bd bp,
    holds w a awl afl ad ap -> holds w b bwl bfl bd bp ->
    length afl = length awl -> length bfl = length bwl ->
    np.array_equal awl bwl = true ->
    exists r w' zs,
      divide_spectra a b interpolate "mask" w = (Ok r, w') /\
      heap w' !! flux r = Some (OArr zs) /\
      length zs = length afl /\
      forall i x y,
        afl !! i = Some x -> bfl !! i = Some y ->
        exists z,
          zs !! i = Some z /\
          (PrimFloat.eqb y 0 = true -> z = nan) /\
          (PrimFloat.eqb y 0 = false -> z = PrimFloat.div x y) /\
          (is_nan z = true <->
           PrimFloat.eqb y 0 = true \/ is_nan (PrimFloat.div x y) = true).
Proof.
  intros w a b interpolate awl afl ad ap bwl bfl bd bp Ha Hb Hla Hlb Heq.
  destruct (divide_spectra_mask_run w a b interpolate _ _ _ _ _ _ _ _
              Ha Hb Hla Hlb Heq) as (r & w' & Hrun & Hfl & _).
  exists r, w', (zip_with masked_quotient afl bfl).
  split; [exact Hrun|]. split; [exact Hfl|]. split.
  { rewrite length_zip_with.
    pose proof (array_equal_length _ _ Heq). lia. }
  intros i x y Hx Hy. exists (masked_quotient x y).
  split; [rewrite lookup_zip_with, Hx, Hy; reflexivity|].
  unfold masked_quotient.
  destruct (PrimFloat.eqb y 0).
  - repeat split; try easy. intros _. now left.
  - repeat split; try easy.
    + intros Hn. now right.
    + intros [Hc|Hn]; [discriminate|exact Hn].
Qed.

Lemma masked_division_pointwise_witness :
  exists r w' zs,
    divide_spectra nan_a nan_b true "mask" nan_world = (Ok r, w') /\
    heap w' !! flux r = Some (OArr zs) /\ length zs = 2.
Proof.
  destruct (masked_division_pointwise nan_world nan_a nan_b true
              [1; 2]%float [nan; 6]%float ∅ [created_record 0]
              [1; 2]%float [1; 0]%float ∅ [created_record 2])
    as (r & w' & zs & Hrun & Hz & Hlen & _);
    try reflexivity; try (repeat split; reflexivity).
  now exists r, w', zs.
Defined.

(** * Summation *)

Lemma pairwise_sum_S d a :
  np.pairwise_sum (S d) a
  = if Nat.ltb 128 (length a) then
      let n2 := length a / 2 - (length a / 2) mod 8 in
      PrimFloat.add (np.pairwise_sum d (take n2 a))
                    (np.pairwise_sum d (drop n2 a))
    else np.block_sum a.
Proof. reflexivity. Qed.

Lemma split_point_bounds n :
  128 < n ->
  let n2 := n / 2 - (n / 2) mod 8 in 0 < n2 /\ n2 < n.
Proof.
  intros Hn. cbn zeta.
  pose proof (Nat.div_mod_eq n 2) as E2.
  pose proof (Nat.mod_upper_bound n 2 ltac:(lia)) as B2.
  pose proof (Nat.mod_upper_bound (n / 2) 8 ltac:(lia)) as B8.
  lia.
Qed.

(** The halves of a split are shorter than the array, so the depth never
    runs out: any [depth] from [length a - 128] on gives the same sum. *)
Lemma pairwise_sum_depth d :
  forall a d', length a <= 128 + d -> d <= d' ->
    np.pairwise_sum d' a = np.pairwise_sum d a.
Proof.
  induction d as [|d IH]; intros a d' Hlen Hd.
  - destruct d' as [|d']; [reflexivity|]. rewrite pairwise_sum_S.
    replace (Nat.ltb 128 (length a)) with false; [reflexivity|].
    symmetry. apply Nat.ltb_ge. lia.
  - destruct d' as [|d']; [lia|]. rewrite !pairwise_sum_S.
    destruct (Nat.ltb 128 (length a)) eqn:Hn; [|reflexivity].
    apply Nat.ltb_lt in Hn. cbn zeta.
    destruct (split_point_bounds _ Hn) as [Hlo Hhi]. cbn zeta in Hlo, Hhi.
    rewrite (IH (take _ a) d'), (IH (drop _ a) d'); try lia; try reflexivity.
    + rewrite length_drop. lia.
    + rewrite length_take. lia.
Qed.

Lemma pairwise_sum_enough d a :
  length a <= d -> np.pairwise_sum d a = np.pairwise_sum (length a) a.
Proof.
  intros H. destruct (Nat.le_gt_cases (length a) 128) as [Hs|Hb].
  - rewrite (pairwise_sum_depth 0 a d), (pairwise_sum_depth 0 a (length a));
      try lia. reflexivity.
  - rewrite (pairwise_sum_depth (length a - 128) a d),
            (pairwise_sum_depth (length a - 128) a (length a)); try lia.
    reflexivity.
Qed.

(** Fewer than 8 terms are added from left to right. *)
Lemma sum_short a :
  a <> [] -> length a < 8 ->
  np.sum a = PrimFloat.add (-0) (fold_left PrimFloat.add a (-0)%float).
Proof.
  intros Hne Hlen. unfold np.sum. destruct a as [|x a]; [easy|].
  destruct (length (x :: a)) as [|d] eqn:E; [discriminate|].
  rewrite pairwise_sum_S, E.
  replace (Nat.ltb 128 (S d)) with false
    by (symmetry; apply Nat.ltb_ge; lia).
  do 7 (destruct a as [|? a]; [reflexivity|]). cbn in E. lia.
Qed.

(** From 8 terms on the order is not the order of the terms: the 8 terms
    [2^53, 1, 1, -2^53, 0, 0, 0, 0] add up to [1], where adding them one after
    the other gives [0]. *)
Lemma sum_of_eight_terms :
  let a := [9007199254740992; 1; 1; -9007199254740992; 0; 0; 0; 0]%float in
  np.sum a = 1%float /\ fold_left PrimFloat.add a 0%float = 0%float.
Proof. split; reflexivity. Qed.

(** * The area factor *)

(** A spectrum on an uneven grid. *)
Definition uneven_world : world :=
  World [OArr [0; 10]%float; OArr [1; 3]%float; ODict ∅;
         OList [created_record 0]] 2.

(** C8, as the specification words it, fails: on the grid [[0, 10]] the
    trapezoid of the flux [[1, 3]] against the wavelength axis is [20], and
    the code divides by [2]. *)
Lemma area_factor_ignores_the_wavelength_axis :
  ~ (forall w s xs ys d p r w',
       holds w s xs ys d p ->
       normalize_spectrum s "area" None None w = (Ok r, w') ->
       heap w' !! flux r
       = Some (OArr ((fun x => PrimFloat.div x (np.trapz_x ys xs)) <$> ys))).
Proof.
  intros H.
  pose (run := normalize_spectrum sample_spectrum "area" None None
                 uneven_world).
  assert (run = (Ok (MkSpectrum 5 4 "nm" "normalized" 8 7 None), snd run))
    as Hrun by (vm_compute; reflexivity).
  specialize (H uneven_world sample_spectrum [0; 10]%float [1; 3]%float ∅
                [created_record 0] _ _
                ltac:(repeat split; reflexivity) Hrun).
  apply (f_equal (fun o => match o with
                           | Some (OArr (x :: _)) => PrimFloat.eqb x 0.5
                           | _ => false
                           end)) in H.
  vm_compute in H. discriminate H.
Qed.

(** C8 (amended): with [method="area"] the normalization factor is the
    trapezoidal-rule sum of the flux over the selected region with unit
    sample spacing, [sum((1.0 * (y[i+1] + y[i])) / 2.0)], the terms added up
    as [np.sum] adds them; the wavelength axis selects the region and has no
    part in the sum.  The whole flux is divided by this factor, and the
    factor is written to the provenance record. *)
Theorem area_factor_is_unit_spacing_trapezoid :
  forall w s xs ys d p range_min range_max r w',
    holds w s xs ys d p ->
    normalize_spectrum s "area" range_min range_max w = (Ok r, w') ->
    exists region,
      flux_region_of xs ys range_min range_max = Ok region /\
      let norm_factor :=
        np.sum (zip_with (fun hi lo => (1.0 * (hi + lo) / 2.0)%float)
                  (List.tl region) (List.removelast region)) in
      heap w' !! flux r
      = Some (OArr ((fun x => PrimFloat.div x norm_factor) <$> ys)) /\
      log_of w' r (p ++ [created_record (clock w);
                         normalization_record (S (S (clock w))) "area"
                           norm_factor range_min range_max]).
Proof.
  intros w s xs ys d p range_min range_max r w' Hs H.
  destruct (normalize_spectrum_inv _ _ _ _ _ _ _ _ _ _ _ Hs H)
    as (region & nf & Hreg & Hnf & _ & Hfl & _ & _ & Hlog).
  exists region. split; [exact Hreg|].
  unfold norm_factor_of in Hnf. cbn [String.eqb Ascii.eqb Bool.eqb] in Hnf.
  injection Hnf as <-. split; [exact Hfl|exact Hlog].
Qed.

(** A spectrum of 9 samples whose 8 trapezoid terms are
    [2^53, 1, 1, -2^53, 0, 0, 0, 0]: their sum is [1]. *)
Definition nine_world : world :=
  World [OArr [1; 2; 3; 4; 5; 6; 7; 8; 9]%float;
         OArr [0; 18014398509481984; -18014398509481982; 18014398509481984;
               -36028797018963968; 36028797018963968; -36028797018963968;
               36028797018963968; -36028797018963968]%float;
         ODict ∅; OList [created_record 0]] 2.

Lemma area_factor_is_unit_spacing_trapezoid_witness :
  exists r w',
    normalize_spectrum sample_spectrum "area" None None nine_world
    = (Ok r, w') /\
    heap w' !! flux r
    = Some (OArr [0; 18014398509481984; -18014398509481982;
                  18014398509481984; -36028797018963968; 36028797018963968;
                  -36028797018963968; 36028797018963968;
                  -36028797018963968]%float) /\
    log_of w' r [created_record 0; created_record 2;
                 normalization_record 4 "area" 1 None None].
Proof.
  pose (run := normalize_spectrum sample_spectrum "area" None None
                 nine_world).
  assert (run = (Ok (MkSpectrum 5 4 "nm" "normalized" 8 7 None), snd run))
    as Hrun by (vm_compute; reflexivity).
  destruct (area_factor_is_unit_spacing_trapezoid nine_world
              sample_spectrum _ _ ∅ [created_record 0] None None _ _
              ltac:(repeat split; reflexivity) Hrun)
    as (region & Hreg & Hfl & Hlog).
  injection Hreg as <-.
  exists (MkSpectrum 5 4 "nm" "normalized" 8 7 None), (snd run).
  split; [exact Hrun|]. split; [exact Hfl|exact Hlog].
Defined.

(** * The order of binary64 values *)

Lemma SFcompare_antisym x y :
  SFcompare y x = option_map CompOpp (SFcompare x y).
Proof.
  destruct x as [sx|sx| |sx mx ex], y as [sy|sy| |sy my ey]; cbn;
    try reflexivity;
    try (destruct sx; reflexivity); try (destruct sy; reflexivity);
    try (destruct sx, sy; reflexivity).
  rewrite (Z.compare_antisym ex ey).
  change (PosDef.Pos.compare_cont Eq my mx) with (Pos.compare my mx).
  change (PosDef.Pos.compare_cont Eq mx my) with (Pos.compare mx my).
  rewrite (Pos.compare_antisym mx my).
  destruct sx, sy, (ex ?= ey)%Z, (mx ?= my)%positive; reflexivity.
Qed.

Lemma SFcompare_lt_trans x y z :
  SFcompare x y = Some Lt -> SFcompare y z = Some Lt ->
  SFcompare x z = Some Lt.
Proof.
  destruct x as [sx|sx| |sx mx ex], y as [sy|sy| |sy my ey],
           z as [sz|sz| |sz mz ez]; cbn;
    try discriminate;
    try (destruct sx; try discriminate; destruct sy; try discriminate;
         destruct sz; try discriminate; reflexivity);
    try (destruct sx, sy; discriminate);
    try (destruct sy, sz; discriminate);
    try (destruct sx, sz; try discriminate; try reflexivity;
         destruct sy; discriminate).
  all: try (destruct sx, sy; try discriminate; try reflexivity;
            destruct sz; try discriminate; try reflexivity; fail).
  all: try (destruct sy, sz; try discriminate; try reflexivity;
            destruct sx; try discriminate; try reflexivity; fail).
  all: change (PosDef.Pos.compare_cont Eq) with Pos.compare.
  all: destruct sx, sy, sz; try discriminate; try reflexivity.
  all: repeat match goal with
       | |- context [(?a ?= ?b)%Z] => destruct (Z.compare_spec a b)
       | |- context [(?a ?= ?b)%positive] => destruct (Pos.compare_spec a b)
       end; cbn; try discriminate; try reflexivity; intros; exfalso; lia.
Qed.

(** The comparison of two floats, [None] when one of them is NaN. *)
Definition fcompare (x y : float) : option comparison :=
  SFcompare (Prim2SF x) (Prim2SF y).

Lemma ltb_fcompare x y : PrimFloat.ltb x y = true <-> fcompare x y = Some Lt.
Proof.
  rewrite FloatAxioms.ltb_spec. unfold SFltb, fcompare.
  destruct (SFcompare _ _) as [[]|]; split; congruence.
Qed.

Lemma leb_fcompare x y :
  PrimFloat.leb x y = true <-> fcompare x y = Some Lt \/ fcompare x y = Some Eq.
Proof.
  rewrite FloatAxioms.leb_spec. unfold SFleb, fcompare.
  destruct (SFcompare _ _) as [[]|]; split; try congruence; auto;
    intros [H|H]; congruence.
Qed.

Lemma eqb_fcompare x y : PrimFloat.eqb x y = true <-> fcompare x y = Some Eq.
Proof.
  rewrite FloatAxioms.eqb_spec. unfold SFeqb, fcompare.
  destruct (SFcompare _ _) as [[]|]; split; congruence.
Qed.

Lemma fcompare_antisym x y : fcompare y x = option_map CompOpp (fcompare x y).
Proof. apply SFcompare_antisym. Qed.

Lemma fcompare_not_nan x y :
  is_nan x = false -> is_nan y = false -> exists c, fcompare x y = Some c.
Proof.
  unfold is_nan. intros Hx Hy.
  apply negb_false_iff, eqb_fcompare in Hx.
  apply negb_false_iff, eqb_fcompare in Hy.
  unfold fcompare in *.
  destruct (Prim2SF x) as [| | |], (Prim2SF y) as [| | |];
    try discriminate; cbn; eauto.
Qed.

Lemma fcompare_some_not_nan x y c :
  fcompare x y = Some c -> is_nan x = false /\ is_nan y = false.
Proof.
  unfold is_nan. intros H.
  assert (fcompare x x = Some Eq /\ fcompare y y = Some Eq) as [Hx Hy].
  { unfold fcompare in *.
    destruct (Prim2SF x) as [|[]| |[] mx ex], (Prim2SF y) as [|[]| |[] my ey];
      try discriminate; cbn; rewrite ?Z.compare_refl, ?Pos.compare_cont_refl;
      split; reflexivity. }
  apply eqb_fcompare in Hx, Hy. now rewrite Hx, Hy.
Qed.

Lemma ltb_trans x y z :
  PrimFloat.ltb x y = true -> PrimFloat.ltb y z = true ->
  PrimFloat.ltb x z = true.
Proof.
  rewrite !ltb_fcompare. apply SFcompare_lt_trans.
Qed.

Lemma ltb_not_nan x y :
  PrimFloat.ltb x y = true -> is_nan x = false /\ is_nan y = false.
Proof. rewrite ltb_fcompare. apply fcompare_some_not_nan. Qed.

(** Of two numbers, one is below the other or they are equal. *)
Lemma float_trichotomy x y :
  is_nan x = false -> is_nan y = false ->
  PrimFloat.ltb x y = true \/ PrimFloat.eqb x y = true
  \/ PrimFloat.ltb y x = true.
Proof.
  intros Hx Hy. destruct (fcompare_not_nan x y Hx Hy) as [c Hc].
  rewrite !ltb_fcompare, eqb_fcompare, (fcompare_antisym x y), Hc.
  destruct c; cbn; auto.
Qed.

Lemma not_ltb_leb x y :
  is_nan x = false -> is_nan y = false ->
  PrimFloat.ltb x y = false -> PrimFloat.leb y x = true.
Proof.
  intros Hx Hy Hlt. apply leb_fcompare.
  destruct (float_trichotomy x y Hx Hy) as [H|[H|H]].
  - congruence.
  - apply eqb_fcompare in H. rewrite (fcompare_antisym x y), H. now right.
  - apply ltb_fcompare in H. now left.
Qed.

Lemma not_leb_ltb x y :
  is_nan x = false -> is_nan y = false ->
  PrimFloat.leb x y = false -> PrimFloat.ltb y x = true.
Proof.
  intros Hx Hy Hle.
  destruct (float_trichotomy x y Hx Hy) as [H|[H|H]]; [| |exact H].
  - apply ltb_fcompare in H.
    assert (PrimFloat.leb x y = true) by (apply leb_fcompare; now left).
    congruence.
  - apply eqb_fcompare in H.
    assert (PrimFloat.leb x y = true) by (apply leb_fcompare; now right).
    congruence.
Qed.

Lemma leb_not_eqb_ltb x y :
  PrimFloat.leb x y = true -> PrimFloat.eqb x y = false ->
  PrimFloat.ltb x y = true.
Proof.
  intros Hle Hne. apply leb_fcompare in Hle. apply ltb_fcompare.
  destruct Hle as [H|H]; [exact H|].
  apply eqb_fcompare in H. congruence.
Qed.

Lemma leb_not_ltb_eqb x y :
  PrimFloat.leb x y = true -> PrimFloat.ltb x y = false ->
  PrimFloat.eqb x y = true.
Proof.
  intros Hle Hnl. apply leb_fcompare in Hle. apply eqb_fcompare.
  destruct Hle as [H|H]; [|exact H].
  apply ltb_fcompare in H. congruence.
Qed.

(** * What the transforms share with their inputs *)

Lemma new_in_grows w wk l : grows w wk -> new_in wk l -> new_in w l.
Proof. unfold new_in. intros Hg Hl. apply grows_length in Hg. lia. Qed.

Lemma derived_labels w wl fl wu fu nm op dt xs ys d p r w' :
  derived w wl fl wu fu nm op dt xs ys d p r w' ->
  wavelength r = wl /\ flux r = fl /\
  wavelength_unit r = wu /\ flux_unit r = fu /\ name r = nm.
Proof. intros (? & ? & ? & ? & ? & _). easy. Qed.

Lemma derived_new w wk wl fl wu fu nm op dt xs ys d p r w' :
  grows w wk ->
  derived wk wl fl wu fu nm op dt xs ys d p r w' ->
  grows w w' /\ new_in w (metadata r) /\ new_in w (provenance r).
Proof.
  intros Hg (_ & _ & _ & _ & _ & Hg' & Fmd & Fpv & _).
  split; [etransitivity; eassumption|].
  split; eapply new_in_grows; eassumption.
Qed.

Lemma derived_separate w wk wl fl wu fu nm op dt xs ys d p r w' :
  grows w wk -> new_in w wl -> new_in w fl ->
  derived wk wl fl wu fu nm op dt xs ys d p r w' ->
  separate_from w r w'.
Proof.
  intros Hg Nwl Nfl Hd.
  destruct (derived_new _ _ _ _ _ _ _ _ _ _ _ _ _ _ _ Hg Hd) as (Hg' & Nmd & Npv).
  destruct (derived_labels _ _ _ _ _ _ _ _ _ _ _ _ _ _ Hd) as (Ewl & Efl & _).
  split; [exact Hg'|]. intros l Hl. unfold refs in Hl.
  rewrite Ewl, Efl in Hl.
  repeat (apply elem_of_cons in Hl; destruct Hl as [->|Hl]; [assumption|]).
  now apply elem_of_nil in Hl.
Qed.

Ltac ending H :=
  let Hpost := fresh "Hpost" in
  apply derive_inv in H;
  destruct H as (? & ? & ? & ? & _ & _ & _ & _ & _ & Hpost).

Ltac solve_new := unfold new_in; cbn [heap]; solve_len.

Lemma get_range_ending self wl_min wl_max w r w' :
  get_range self wl_min wl_max w = (Ok r, w') ->
  separate_from w r w' /\
  wavelength_unit r = wavelength_unit self /\
  flux_unit r = flux_unit self /\ name r = name self.
Proof.
  unfold get_range. intros H. minv_all H. ending H.
  split.
  - eapply derived_separate; [| | |exact Hpost];
      [solve_grows|solve_new|solve_new].
  - now apply derived_labels in Hpost.
Qed.

Lemma subtract_spectra_ending a b interpolate w r w' :
  subtract_spectra a b interpolate w = (Ok r, w') ->
  separate_from w r w' /\
  wavelength_unit r = wavelength_unit a /\
  flux_unit r = flux_unit a /\ name r = None.
Proof.
  unfold subtract_spectra, ndarray_copy. intros H.
  apply bind_inv in H. destruct H as (f & ? & Hal & H).
  apply align_flux_inv in Hal. destruct Hal as [-> _].
  minv_all H. ending H.
  split.
  - eapply derived_separate; [| | |exact Hpost];
      [solve_grows|solve_new|solve_new].
  - now apply derived_labels in Hpost.
Qed.

Lemma divide_spectra_ending a b interpolate handle_zeros w r w' :
  divide_spectra a b interpolate handle_zeros w = (Ok r, w') ->
  separate_from w r w' /\
  wavelength_unit r = wavelength_unit a /\
  flux_unit r = ("(" ++ flux_unit a ++ ")/(" ++ flux_unit b ++ ")")%string /\
  name r = None.
Proof.
  unfold divide_spectra, ndarray_copy. intros H.
  apply bind_inv in H. destruct H as (f & ? & Hal & H).
  apply align_flux_inv in Hal. destruct Hal as [-> _].
  minv_all H. ending H.
  split.
  - eapply derived_separate; [| | |exact Hpost];
      [solve_grows|solve_new|solve_new].
  - now apply derived_labels in Hpost.
Qed.

Lemma normalize_spectrum_ending s method range_min range_max w r w' :
  normalize_spectrum s method range_min range_max w = (Ok r, w') ->
  separate_from w r w' /\
  wavelength_unit r = wavelength_unit s /\
  flux_unit r = "normalized" /\ name r = name s.
Proof.
  unfold normalize_spectrum, ndarray_copy. intros H.
  apply bind_inv in H. destruct H as (fl0 & ? & Hf & H). minv_prim Hf.
  apply bind_inv in H. destruct H as (region & w1 & Hr & H).
  assert (w1 = w) as ->.
  { destruct range_min, range_max; minv_all Hr; reflexivity. }
  apply bind_inv in H. destruct H as (nf & ? & Hn & H). minv_prim Hn.
  destruct (PrimFloat.eqb nf 0); [discriminate|].
  minv_all H. ending H.
  split.
  - eapply derived_separate; [| | |exact Hpost];
      [solve_grows|solve_new|solve_new].
  - now apply derived_labels in Hpost.
Qed.

Lemma smooth_spectrum_ending sg uf gf s window_size method w r w' :
  smooth_spectrum sg uf gf s window_size method w = (Ok r, w') ->
  separate_from w r w' /\
  wavelength_unit r = wavelength_unit s /\
  flux_unit r = flux_unit s /\ name r = name s.
Proof.
  unfold smooth_spectrum, ndarray_copy. intros H.
  apply bind_inv in H. destruct H as (fl0 & ? & Hf & H). minv_prim Hf.
  apply bind_inv in H. destruct H as ([sm ws] & w1 & Hr & H).
  assert (w1 = w) as ->.
  { repeat (destruct (String.eqb method _); [minv_all Hr; reflexivity|]).
    discriminate. }
  minv_all H. ending H.
  split.
  - eapply derived_separate; [| | |exact Hpost];
      [solve_grows|solve_new|solve_new].
  - now apply derived_labels in Hpost.
Qed.

Lemma convert_units_ending s from_unit to_unit axis w r w' :
  convert_units s from_unit to_unit axis w = (Ok r, w') ->
  grows w w' /\ new_in w (flux r) /\ new_in w (metadata r) /\
  new_in w (provenance r) /\
  to_unit = Some (wavelength_unit r) /\
  flux_unit r = flux_unit s /\ name r = name s.
Proof.
  unfold convert_units, ndarray_copy. intros H.
  destruct (String.eqb axis "wavelength"); [|discriminate].
  apply bind_inv in H. destruct H as ([nw nu] & w1 & Hr & H).
  assert (grows w w1 /\ to_unit = Some nu) as [Hg Hu].
  { destruct to_unit as [u|]; [|discriminate].
    destruct (is_wavelength_unit u).
    - apply bind_inv in Hr. destruct Hr as (l & w2 & Hc & Hr).
      minv_prim Hr. injection Hr as -> ->.
      apply convert_wavelength_units_inv in Hc. easy.
    - destruct (String.eqb u "Hz") eqn:E1.
      { apply String.eqb_eq in E1. subst u. minv_all Hr.
        injection Hr as -> ->. split; [solve_grows|reflexivity]. }
      destruct (String.eqb u "eV") eqn:E2; [|discriminate].
      apply String.eqb_eq in E2. subst u. minv_all Hr.
      injection Hr as -> ->. split; [solve_grows|reflexivity]. }
  apply bind_inv in H. destruct H as (fl & w2 & Hf & H).
  apply bind_inv in Hf. destruct Hf as (ys0 & ? & Hf & Hf').
  minv_prim Hf. minv_prim Hf'.
  ending H.
  pose proof (grows_length _ _ Hg) as Hlen.
  assert (grows w (World (heap w1 ++ [OArr ys0]) (clock w1))) as Hgk.
  { etransitivity; [exact Hg|]. solve_grows. }
  destruct (derived_new _ _ _ _ _ _ _ _ _ _ _ _ _ _ _ Hgk Hpost)
    as (Hg' & Nmd & Npv).
  destruct (derived_labels _ _ _ _ _ _ _ _ _ _ _ _ _ _ Hpost)
    as (_ & Efl & Ewu & Efu & Enm).
  repeat apply conj; try assumption.
  - unfold new_in. rewrite Efl. exact Hlen.
  - now rewrite Ewu.
Qed.

(** X1: the six transforms never change an object that existed before the
    call, the arrays, metadata and logs of their inputs among them: the
    store only grows. The wavelength array, the flux array, the metadata
    dict and the provenance log of the result are objects made by the call;
    for [convert_units] this holds of the flux, the metadata and the log
    (its wavelength array can be the one of the input, see X15). *)
Theorem transforms_share_nothing_with_their_inputs :
  (forall self wl_min wl_max w r w',
     get_range self wl_min wl_max w = (Ok r, w') -> separate_from w r w') /\
  (forall a b interpolate w r w',
     subtract_spectra a b interpolate w = (Ok r, w') ->
     separate_from w r w') /\
  (forall a b interpolate handle_zeros w r w',
     divide_spectra a b interpolate handle_zeros w = (Ok r, w') ->
     separate_from w r w') /\
  (forall s method range_min range_max w r w',
     normalize_spectrum s method range_min range_max w = (Ok r, w') ->
     separate_from w r w') /\
  (forall savgol_filter uniform_filter1d gaussian_filter1d
          s window_size method w r w',
     smooth_spectrum savgol_filter uniform_filter1d gaussian_filter1d
       s window_size method w = (Ok r, w') ->
     separate_from w r w') /\
  (forall s from_unit to_unit axis w r w',
     convert_units s from_unit to_unit axis w = (Ok r, w') ->
     grows w w' /\ new_in w (flux r) /\ new_in w (metadata r) /\
     new_in w (provenance r)).
Proof.
  repeat apply conj.
  - intros * H. now apply get_range_ending in H.
  - intros * H. now apply subtract_spectra_ending in H.
  - intros * H. now apply divide_spectra_ending in H.
  - intros * H. now apply normalize_spectrum_ending in H.
  - intros * H. now apply smooth_spectrum_ending in H.
  - intros * H. apply convert_units_ending in H.
    destruct H as (? & ? & ? & ? & _). easy.
Qed.

Lemma transforms_share_nothing_with_their_inputs_witness :
  exists r w',
    subtract_spectra star sky true two_world = (Ok r, w') /\
    separate_from two_world r w'.
Proof.
  destruct transforms_share_nothing_with_their_inputs as (_ & Hsub & _).
  pose (run := subtract_spectra star sky true two_world).
  assert (run = (Ok (MkSpectrum 9 8 "nm" "counts" 12 11 None), snd run))
    as Hrun by (vm_compute; reflexivity).
  exists (MkSpectrum 9 8 "nm" "counts" 12 11 None), (snd run).
  split; [exact Hrun|]. exact (Hsub _ _ _ _ _ _ Hrun).
Defined.

(** X2: the labels of a result. [get_range] and [smooth_spectrum] keep both
    units and the name; [normalize_spectrum] keeps the wavelength unit and
    the name and sets the flux unit to [normalized]; [convert_units] keeps
    the flux unit and the name and labels the axis with the target unit;
    [subtract_spectra] and [divide_spectra] keep the wavelength unit of the
    first operand and return an unnamed spectrum, with the flux unit of the
    first operand for a difference and [(unit of a)/(unit of b)] for a
    quotient. *)
Theorem transforms_result_labels :
  (forall self wl_min wl_max w r w',
     get_range self wl_min wl_max w = (Ok r, w') ->
     wavelength_unit r = wavelength_unit self /\
     flux_unit r = flux_unit self /\ name r = name self) /\
  (forall a b interpolate w r w',
     subtract_spectra a b interpolate w = (Ok r, w') ->
     wavelength_unit r = wavelength_unit a /\
     flux_unit r = flux_unit a /\ name r = None) /\
  (forall a b interpolate handle_zeros w r w',
     divide_spectra a b interpolate handle_zeros w = (Ok r, w') ->
     wavelength_unit r = wavelength_unit a /\
     flux_unit r = ("(" ++ flux_unit a ++ ")/(" ++ flux_unit b ++ ")")%string /\
     name r = None) /\
  (forall s method range_min range_max w r w',
     normalize_spectrum s method range_min range_max w = (Ok r, w') ->
     wavelength_unit r = wavelength_unit s /\
     flux_unit r = "normalized" /\ name r = name s) /\
  (forall savgol_filter uniform_filter1d gaussian_filter1d
          s window_size method w r w',
     smooth_spectrum savgol_filter uniform_filter1d gaussian_filter1d
       s window_size method w = (Ok r, w') ->
     wavelength_unit r = wavelength_unit s /\
     flux_unit r = flux_unit s /\ name r = name s) /\
  (forall s from_unit to_unit axis w r w',
     convert_units s from_unit to_unit axis w = (Ok r, w') ->
     to_unit = Some (wavelength_unit r) /\
     flux_unit r = flux_unit s /\ name r = name s).
Proof.
  repeat apply conj.
  - intros * H. now apply get_range_ending in H.
  - intros * H. now apply subtract_spectra_ending in H.
  - intros * H. now apply divide_spectra_ending in H.
  - intros * H. now apply normalize_spectrum_ending in H.
  - intros * H. now apply smooth_spectrum_ending in H.
  - intros * H. apply convert_units_ending in H.
    destruct H as (_ & _ & _ & _ & ? & ? & ?). easy.
Qed.

Lemma transforms_result_labels_witness :
  exists r w',
    divide_spectra star sky true "mask" two_world = (Ok r, w') /\
    wavelength_unit r = "nm" /\ flux_unit r = "(counts)/(Jy)" /\
    name r = None.
Proof.
  destruct transforms_result_labels as (_ & _ & Hdiv & _).
  pose (run := divide_spectra star sky true "mask" two_world).
  assert (run = (Ok (MkSpectrum 9 8 "nm" "(counts)/(Jy)" 12 11 None),
                 snd run)) as Hrun by (vm_compute; reflexivity).
  exists (MkSpectrum 9 8 "nm" "(counts)/(Jy)" 12 11 None), (snd run).
  split; [exact Hrun|]. exact (Hdiv _ _ _ _ _ _ _ Hrun).
Defined.

(** * Range extraction *)

Lemma derived_holds w wl fl wu fu nm op dt xs ys d p r w' :
  heap w !! wl = Some (OArr xs) ->
  heap w !! fl = Some (OArr ys) ->
  derived w wl fl wu fu nm op dt xs ys d p r w' ->
  holds w' r xs ys d (p ++ [created_record (clock w);
                            ProvRecord op (S (S (clock w))) dt]).
Proof.
  intros Hx Hy (Ewl & Efl & _ & _ & _ & Hg & _ & _ & Hmd & Hlog & _).
  unfold holds. rewrite Ewl, Efl.
  repeat apply conj; eauto using grows_lookup.
Qed.

Lemma holds_grows w w' s xs ys d p :
  grows w w' -> holds w s xs ys d p -> holds w' s xs ys d p.
Proof.
  intros Hg (H1 & H2 & H3 & H4).
  repeat apply conj; eauto using grows_lookup.
Qed.

(** Selecting with a mask computed from the wavelengths. *)
Lemma select_by_axis (f : float -> bool) (xs ys : list float) :
  length xs = length ys ->
  fst <$> filter (fun p : float * bool => snd p = true) (zip xs (f <$> xs))
  = fst <$> filter (fun s : float * float => f (fst s) = true) (zip xs ys)
  /\
  fst <$> filter (fun p : float * bool => snd p = true) (zip ys (f <$> xs))
  = snd <$> filter (fun s : float * float => f (fst s) = true) (zip xs ys).
Proof.
  revert ys. induction xs as [|x xs IH]; intros [|y ys] Hlen;
    try discriminate; [easy|].
  injection Hlen as Hlen. destruct (IH ys Hlen) as [IH1 IH2].
  rewrite fmap_cons. cbn [zip zip_with]. rewrite !filter_cons.
  cbn [fst snd]. destruct (f x).
  - rewrite !decide_True by reflexivity. rewrite !fmap_cons.
    cbn [fst snd]. now rewrite IH1, IH2.
  - rewrite !decide_False by discriminate. easy.
Qed.

Lemma mask_select_axis (f : float -> bool) (xs ys : list float) :
  length xs = length ys ->
  np_mask_select xs (f <$> xs)
  = Ok (fst <$> filter (fun s : float * float => f (fst s) = true) (zip xs ys))
  /\
  np_mask_select ys (f <$> xs)
  = Ok (snd <$> filter (fun s : float * float => f (fst s) = true) (zip xs ys)).
Proof.
  intros Hlen. unfold np_mask_select.
  rewrite !length_fmap, <- Hlen, Nat.eqb_refl.
  destruct (select_by_axis f xs ys Hlen) as [-> ->]. easy.
Qed.

(** [get_range] on a well-formed spectrum, run forward. *)
Lemma get_range_run w s xs ys d p wl_min wl_max :
  holds w s xs ys d p -> length xs = length ys ->
  exists r w',
    get_range s wl_min wl_max w = (Ok r, w') /\
    holds w' r (fst <$> samples_in_range wl_min wl_max xs ys)
      (snd <$> samples_in_range wl_min wl_max xs ys) d
      (p ++ [created_record (clock w);
             range_record (S (S (clock w))) wl_min wl_max]) /\
    wavelength_unit r = wavelength_unit s /\
    flux_unit r = flux_unit s /\ name r = name s /\
    grows w w' /\ clock w' = S (S (S (clock w))).
Proof.
  intros (Hwl & Hfl & Hmd & Hpv) Hlen.
  destruct (mask_select_axis (in_range wl_min wl_max) xs ys Hlen)
    as [Hsx Hsy].
  fold (samples_in_range wl_min wl_max xs ys) in Hsx, Hsy.
  set (kept := samples_in_range wl_min wl_max xs ys) in *.
  unfold get_range. mstep.
  change (range_mask xs wl_min wl_max) with (in_range wl_min wl_max <$> xs).
  cbn zeta. rewrite Hsx.
  erewrite bind_ok by reflexivity.
  do 2 mstep.
  rewrite Hsy.
  erewrite bind_ok by reflexivity.
  mstep.
  set (wk := World ((heap w ++ [OArr (fst <$> kept)]) ++ [OArr (snd <$> kept)])
                   (clock w)).
  assert (grows w wk) as Hg.
  { exists [OArr (fst <$> kept); OArr (snd <$> kept)]. cbn.
    now rewrite <- app_assoc. }
  assert (heap wk !! length (heap w) = Some (OArr (fst <$> kept))) as H1
    by (subst wk; lookup_heap).
  assert (heap wk !! length (heap w ++ [OArr (fst <$> kept)])
          = Some (OArr (snd <$> kept))) as H2 by (subst wk; lookup_heap).
  destruct (derive_run wk _ _ (wavelength_unit s) (flux_unit s) _ _ (name s)
              "range_extraction"
              [("wl_min", VFloat wl_min); ("wl_max", VFloat wl_max)]
              _ _ _ _ H1 H2
              (grows_lookup _ _ _ _ Hg Hmd) (grows_lookup _ _ _ _ Hg Hpv))
    as [(Hne & _)|(_ & r & w' & Hrun & Hpost)].
  { rewrite !length_fmap in Hne. now destruct Hne. }
  exists r, w'. split; [exact Hrun|].
  pose proof (derived_holds _ _ _ _ _ _ _ _ _ _ _ _ _ _ H1 H2 Hpost) as Hh.
  destruct (derived_labels _ _ _ _ _ _ _ _ _ _ _ _ _ _ Hpost)
    as (_ & _ & Ewu & Efu & Enm).
  destruct Hpost as (_ & _ & _ & _ & _ & Hg' & _ & _ & _ & _ & Hclk).
  repeat apply conj; try assumption; try apply Hh.
  etransitivity; eassumption.
Qed.

Ltac SFcompare_chain :=
  let go sx sy sz :=
    cbn;
    try discriminate;
    try (destruct sx; try discriminate; destruct sy; try discriminate;
         destruct sz; try discriminate; reflexivity);
    try (destruct sx, sy; discriminate);
    try (destruct sy, sz; discriminate);
    try (destruct sx, sz; try discriminate; try reflexivity;
         destruct sy; discriminate);
    try (destruct sx, sy; try discriminate; try reflexivity;
         destruct sz; try discriminate; try reflexivity; fail);
    try (destruct sy, sz; try discriminate; try reflexivity;
         destruct sx; try discriminate; try reflexivity; fail);
    change (PosDef.Pos.compare_cont Eq) with Pos.compare;
    destruct sx, sy, sz; try discriminate; try reflexivity;
    repeat match goal with
      | |- context [(?a ?= ?b)%Z] => destruct (Z.compare_spec a b)
      | |- context [(?a ?= ?b)%positive] => destruct (Pos.compare_spec a b)
      end; cbn; try discriminate; try reflexivity; intros; exfalso; lia in
  lazymatch goal with
  | |- SFcompare ?x ?y = _ -> SFcompare ?y ?z = _ -> _ =>
      destruct x as [sx|sx| |sx mx ex], y as [sy|sy| |sy my ey],
               z as [sz|sz| |sz mz ez]; go sx sy sz
  end.

Lemma SFcompare_lt_eq x y z :
  SFcompare x y = Some Lt -> SFcompare y z = Some Eq ->
  SFcompare x z = Some Lt.
Proof. SFcompare_chain. Qed.

Lemma SFcompare_eq_lt x y z :
  SFcompare x y = Some Eq -> SFcompare y z = Some Lt ->
  SFcompare x z = Some Lt.
Proof. SFcompare_chain. Qed.

Lemma SFcompare_eq_eq x y z :
  SFcompare x y = Some Eq -> SFcompare y z = Some Eq ->
  SFcompare x z = Some Eq.
Proof. SFcompare_chain. Qed.

Lemma ltb_leb_trans x y z :
  PrimFloat.ltb x y = true -> PrimFloat.leb y z = true ->
  PrimFloat.ltb x z = true.
Proof.
  rewrite !ltb_fcompare, leb_fcompare. intros Hxy [Hyz|Hyz].
  - eapply SFcompare_lt_trans; eassumption.
  - eapply SFcompare_lt_eq; eassumption.
Qed.

Lemma leb_ltb_trans x y z :
  PrimFloat.leb x y = true -> PrimFloat.ltb y z = true ->
  PrimFloat.ltb x z = true.
Proof.
  rewrite !ltb_fcompare, leb_fcompare. intros [Hxy|Hxy] Hyz.
  - eapply SFcompare_lt_trans; eassumption.
  - eapply SFcompare_eq_lt; eassumption.
Qed.

Lemma leb_trans x y z :
  PrimFloat.leb x y = true -> PrimFloat.leb y z = true ->
  PrimFloat.leb x z = true.
Proof.
  rewrite !leb_fcompare. intros [Hxy|Hxy] [Hyz|Hyz].
  - left. eapply SFcompare_lt_trans; eassumption.
  - left. eapply SFcompare_lt_eq; eassumption.
  - left. eapply SFcompare_eq_lt; eassumption.
  - right. eapply SFcompare_eq_eq; eassumption.
Qed.

Lemma ltb_irrefl x : PrimFloat.ltb x x = false.
Proof.
  destruct (PrimFloat.ltb x x) eqn:E; [|reflexivity].
  apply ltb_fcompare in E. pose proof (fcompare_antisym x x) as Ha.
  rewrite E in Ha. discriminate Ha.
Qed.

Lemma leb_not_nan x y :
  PrimFloat.leb x y = true -> is_nan x = false /\ is_nan y = false.
Proof.
  rewrite leb_fcompare. intros [H|H]; eapply fcompare_some_not_nan, H.
Qed.

(** No number lies in a range whose bounds are crossed or not numbers. *)
Lemma in_range_empty wl_min wl_max x :
  is_nan wl_min = true \/ is_nan wl_max = true
  \/ PrimFloat.ltb wl_max wl_min = true ->
  in_range wl_min wl_max x = false.
Proof.
  intros Hb. unfold in_range.
  destruct (PrimFloat.leb wl_min x) eqn:E1; [|reflexivity].
  destruct (PrimFloat.leb x wl_max) eqn:E2; [|reflexivity].
  exfalso. pose proof (leb_trans _ _ _ E1 E2) as E.
  destruct (leb_not_nan _ _ E) as [N1 N2].
  destruct Hb as [Hb|[Hb|Hb]]; try congruence.
  pose proof (ltb_leb_trans _ _ _ Hb E) as Hc.
  rewrite ltb_irrefl in Hc. discriminate.
Qed.

Lemma samples_in_range_empty wl_min wl_max xs ys :
  is_nan wl_min = true \/ is_nan wl_max = true
  \/ PrimFloat.ltb wl_max wl_min = true ->
  samples_in_range wl_min wl_max xs ys = [].
Proof.
  intros Hb. unfold samples_in_range.
  induction (zip xs ys) as [|s l IH]; [reflexivity|].
  rewrite filter_cons, decide_False; [exact IH|].
  rewrite (in_range_empty _ _ _ Hb). discriminate.
Qed.

Lemma samples_in_range_nested lo1 hi1 lo2 hi2 xs ys :
  samples_in_range lo2 hi2 (fst <$> samples_in_range lo1 hi1 xs ys)
    (snd <$> samples_in_range lo1 hi1 xs ys)
  = filter (fun s => in_range lo1 hi1 (fst s) && in_range lo2 hi2 (fst s)
                     = true) (zip xs ys).
Proof.
  unfold samples_in_range at 1. rewrite zip_fst_snd.
  unfold samples_in_range.
  induction (zip xs ys) as [|s l IH]; [reflexivity|].
  rewrite !filter_cons.
  destruct (in_range lo1 hi1 s.1) eqn:E1; cbn [andb].
  - rewrite (decide_True (P := true = true)) by reflexivity.
    rewrite filter_cons. destruct (in_range lo2 hi2 s.1) eqn:E2.
    + rewrite !decide_True by reflexivity. now rewrite IH.
    + rewrite !decide_False by discriminate. exact IH.
  - rewrite !decide_False by discriminate. exact IH.
Qed.

Lemma samples_in_range_length wl_min wl_max xs ys :
  length (fst <$> samples_in_range wl_min wl_max xs ys)
  = length (snd <$> samples_in_range wl_min wl_max xs ys).
Proof. now rewrite !length_fmap. Qed.

(** X3: on a spectrum whose arrays have one length, [get_range] returns; the
    result holds, in their order, exactly the samples [(wavelength, flux)]
    with [wl_min <= wavelength <= wl_max], the metadata of the input, and
    the log of the input followed by a [created] and a [range_extraction]
    record with the two bounds. The input is as it was. *)
Theorem get_range_keeps_the_samples_in_range :
  forall w s xs ys d p wl_min wl_max,
    holds w s xs ys d p -> length xs = length ys ->
    exists r w',
      get_range s wl_min wl_max w = (Ok r, w') /\
      holds w' r (fst <$> samples_in_range wl_min wl_max xs ys)
        (snd <$> samples_in_range wl_min wl_max xs ys) d
        (p ++ [created_record (clock w);
               range_record (S (S (clock w))) wl_min wl_max]) /\
      (forall x y, (x, y) ∈ samples_in_range wl_min wl_max xs ys <->
                   (x, y) ∈ zip xs ys /\
                   PrimFloat.leb wl_min x = true /\
                   PrimFloat.leb x wl_max = true) /\
      holds w' s xs ys d p.
Proof.
  intros w s xs ys d p wl_min wl_max Hs Hlen.
  destruct (get_range_run w s xs ys d p wl_min wl_max Hs Hlen)
    as (r & w' & Hrun & Hr & _ & _ & _ & Hg & _).
  exists r, w'. split; [exact Hrun|]. split; [exact Hr|]. split.
  - intros x y. unfold samples_in_range. rewrite list_elem_of_filter.
    unfold in_range. cbn [fst]. rewrite andb_true_iff. tauto.
  - eapply holds_grows; eassumption.
Qed.

Lemma get_range_keeps_the_samples_in_range_witness :
  exists r w',
    get_range sample_spectrum 2 4 sample_world = (Ok r, w') /\
    holds w' r [2; 3; 4]%float [20; 30; 40]%float ∅
      [created_record 0; created_record 2; range_record 4 2 4].
Proof.
  destruct (get_range_keeps_the_samples_in_range sample_world sample_spectrum
              [1; 2; 3; 4; 5]%float [10; 20; 30; 40; 50]%float ∅
              [created_record 0] 2%float 4%float)
    as (r & w' & Hrun & Hr & _).
  - repeat split; reflexivity.
  - reflexivity.
  - exists r, w'. split; [exact Hrun|]. exact Hr.
Defined.

(** X4: when a bound of [get_range] is NaN, or the upper bound is below the
    lower one, no sample is kept: the call returns a spectrum with two empty
    arrays, and it is not an error. *)
Theorem get_range_of_an_empty_range :
  forall w s xs ys d p wl_min wl_max,
    holds w s xs ys d p -> length xs = length ys ->
    is_nan wl_min = true \/ is_nan wl_max = true
    \/ PrimFloat.ltb wl_max wl_min = true ->
    exists r w',
      get_range s wl_min wl_max w = (Ok r, w') /\
      holds w' r [] [] d
        (p ++ [created_record (clock w);
               range_record (S (S (clock w))) wl_min wl_max]).
Proof.
  intros w s xs ys d p wl_min wl_max Hs Hlen Hb.
  destruct (get_range_run w s xs ys d p wl_min wl_max Hs Hlen)
    as (r & w' & Hrun & Hr & _).
  rewrite (samples_in_range_empty _ _ _ _ Hb) in Hr.
  now exists r, w'.
Qed.

Lemma get_range_of_an_empty_range_witness :
  exists r w',
    get_range sample_spectrum 4 2 sample_world = (Ok r, w') /\
    holds w' r [] [] ∅
      [created_record 0; created_record 2; range_record 4 4 2].
Proof.
  apply (get_range_of_an_empty_range sample_world sample_spectrum
           [1; 2; 3; 4; 5]%float [10; 20; 30; 40; 50]%float ∅
           [created_record 0] 4%float 2%float).
  - repeat split; reflexivity.
  - reflexivity.
  - right. right. reflexivity.
Defined.

(** X5: two range extractions, one after the other, keep the samples that
    lie in both ranges, and the log grows by four records; repeating an
    extraction with the same bounds keeps the samples of the first one. *)
Theorem get_range_nested :
  forall w s xs ys d p lo1 hi1 lo2 hi2,
    holds w s xs ys d p -> length xs = length ys ->
    exists r1 w1 r2 w2,
      get_range s lo1 hi1 w = (Ok r1, w1) /\
      get_range r1 lo2 hi2 w1 = (Ok r2, w2) /\
      let both :=
        filter (fun s => in_range lo1 hi1 (fst s) && in_range lo2 hi2 (fst s)
                         = true) (zip xs ys) in
      holds w2 r2 (fst <$> both) (snd <$> both) d
        (p ++ [created_record (clock w);
               range_record (S (S (clock w))) lo1 hi1;
               created_record (S (S (S (clock w))));
               range_record (S (S (S (S (S (clock w)))))) lo2 hi2]) /\
      (lo2 = lo1 -> hi2 = hi1 ->
       both = samples_in_range lo1 hi1 xs ys).
Proof.
  intros w s xs ys d p lo1 hi1 lo2 hi2 Hs Hlen.
  destruct (get_range_run w s xs ys d p lo1 hi1 Hs Hlen)
    as (r1 & w1 & Hrun1 & Hr1 & _ & _ & _ & _ & Hc1).
  destruct (get_range_run w1 r1 _ _ _ _ lo2 hi2 Hr1
              (samples_in_range_length _ _ _ _))
    as (r2 & w2 & Hrun2 & Hr2 & _).
  exists r1, w1, r2, w2. split; [exact Hrun1|]. split; [exact Hrun2|].
  cbn zeta. rewrite samples_in_range_nested in Hr2.
  rewrite Hc1, <- app_assoc in Hr2. cbn [app] in Hr2.
  split; [exact Hr2|].
  intros -> ->. unfold samples_in_range. apply list_filter_iff.
  intros s0. rewrite andb_diag. reflexivity.
Qed.

Lemma get_range_nested_witness :
  exists r1 w1 r2 w2,
    get_range sample_spectrum 2 5 sample_world = (Ok r1, w1) /\
    get_range r1 1 4 w1 = (Ok r2, w2) /\
    heap w2 !! wavelength r2 = Some (OArr [2; 3; 4]%float) /\
    heap w2 !! flux r2 = Some (OArr [20; 30; 40]%float).
Proof.
  destruct (get_range_nested sample_world sample_spectrum
              [1; 2; 3; 4; 5]%float [10; 20; 30; 40; 50]%float ∅
              [created_record 0] 2%float 5%float 1%float 4%float)
    as (r1 & w1 & r2 & w2 & Hrun1 & Hrun2 & Hr2 & _).
  - repeat split; reflexivity.
  - reflexivity.
  - exists r1, w1, r2, w2. split; [exact Hrun1|]. split; [exact Hrun2|].
    split; apply Hr2.
Defined.

(** * Subtraction and division on aligned grids *)

(** Without interpolation, or on grids that compare equal, the alignment is
    a check of the two lengths. *)
Lemma align_flux_plain w a b interpolate awl bwl bfl :
  heap w !! wavelength a = Some (OArr awl) ->
  heap w !! wavelength b = Some (OArr bwl) ->
  heap w !! flux b = Some (OArr bfl) ->
  interpolate = false \/ np.array_equal awl bwl = true ->
  align_flux a b interpolate w =
    if Nat.eqb (length awl) (length bwl) then (Ok bfl, w)
    else (Raise (ValueError
                   "Spectra must have same length or use interpolate=True"),
          w).
Proof.
  intros Ha Hb Hf Hc. unfold align_flux. do 2 mstep.
  assert (interpolate && negb (np.array_equal awl bwl) = false) as ->.
  { destruct Hc as [->| ->]; [reflexivity|apply andb_false_r]. }
  destruct (Nat.eqb (length awl) (length bwl)); cbn [negb].
  - now apply read_arr_ok.
  - reflexivity.
Qed.

(** From the aligned flux of the second operand to the result. *)
Lemma subtract_spectra_run w a b interpolate awl afl ad ap f zs :
  holds w a awl afl ad ap ->
  align_flux a b interpolate w = (Ok f, w) ->
  np.sub afl f = Ok zs -> length zs = length awl ->
  exists r w',
    subtract_spectra a b interpolate w = (Ok r, w') /\
    holds w' r awl zs ad
      (ap ++ [created_record (clock w);
              subtraction_record (S (S (clock w))) b interpolate]) /\
    grows w w'.
Proof.
  intros Ha Hal Hsub Hlen.
  destruct (finish_run w a awl afl ad ap zs (wavelength_unit a) (flux_unit a)
              None "subtraction"
              [("operand", VStr (name_or_unnamed (name b)));
               ("interpolated", VBool interpolate)] Ha Hlen)
    as (r & w' & Hrun & Hfl & Hwl & _ & _ & _ & Hmd & Hlog & Hg).
  exists r, w'. split; [|split; [repeat split; assumption|exact Hg]].
  destruct Ha as (_ & Hafl & _).
  unfold subtract_spectra.
  erewrite bind_ok by exact Hal. mstep.
  rewrite Hsub. erewrite bind_ok by reflexivity.
  exact Hrun.
Qed.

Lemma divide_spectra_run w a b interpolate handle_zeros awl afl ad ap f zs :
  holds w a awl afl ad ap ->
  align_flux a b interpolate w = (Ok f, w) ->
  divide_flux afl f handle_zeros = Ok zs -> length zs = length awl ->
  exists r w',
    divide_spectra a b interpolate handle_zeros w = (Ok r, w') /\
    holds w' r awl zs ad
      (ap ++ [created_record (clock w);
              division_record (S (S (clock w))) b interpolate handle_zeros])
    /\ grows w w'.
Proof.
  intros Ha Hal Hdiv Hlen.
  destruct (finish_run w a awl afl ad ap zs (wavelength_unit a)
              ("(" ++ flux_unit a ++ ")/(" ++ flux_unit b ++ ")")%string
              None "division"
              [("operand", VStr (name_or_unnamed (name b)));
               ("interpolated", VBool interpolate);
               ("handle_zeros", VStr handle_zeros)] Ha Hlen)
    as (r & w' & Hrun & Hfl & Hwl & _ & _ & _ & Hmd & Hlog & Hg).
  exists r, w'. split; [|split; [repeat split; assumption|exact Hg]].
  destruct Ha as (_ & Hafl & _).
  unfold divide_spectra.
  erewrite bind_ok by exact Hal. mstep.
  rewrite Hdiv. erewrite bind_ok by reflexivity.
  exact Hrun.
Qed.

Lemma broadcast2_same_length f (xs ys : list float) :
  length xs = length ys -> np.broadcast2 f xs ys = Ok (zip_with f xs ys).
Proof. intros H. unfold np.broadcast2. now rewrite H, Nat.eqb_refl. Qed.

(** X6: [subtract_spectra(a, b, interpolate=False)] compares the lengths of
    the two wavelength arrays and nothing else of them. When the lengths
    differ it fails with the [ValueError] of the length check and the store
    is as before; when they agree it returns the elementwise difference of
    the two flux arrays on the grid of [a], whatever the grid of [b] is,
    with the metadata of [a] and the log of [a] followed by a [created] and
    a [subtraction] record. *)
Theorem subtract_without_interpolation :
  forall w a b awl afl ad ap bwl bfl bd bp,
    holds w a awl afl ad ap -> holds w b bwl bfl bd bp ->
    length afl = length awl -> length bfl = length bwl ->
    (length awl <> length bwl ->
     subtract_spectra a b false w
     = (Raise (ValueError
                 "Spectra must have same length or use interpolate=True"), w))
    /\
    (length awl = length bwl ->
     exists r w',
       subtract_spectra a b false w = (Ok r, w') /\
       holds w' r awl (zip_with PrimFloat.sub afl bfl) ad
         (ap ++ [created_record (clock w);
                 subtraction_record (S (S (clock w))) b false])).
Proof.
  intros w a b awl afl ad ap bwl bfl bd bp Ha Hb Hla Hlb.
  pose proof Ha as (Hawl & _). pose proof Hb as (Hbwl & Hbfl & _).
  pose proof (align_flux_plain w a b false awl bwl bfl Hawl Hbwl Hbfl
                (or_introl eq_refl)) as Hal.
  split; intros Hl.
  - apply Nat.eqb_neq in Hl. rewrite Hl in Hal.
    unfold subtract_spectra. now erewrite bind_raise by exact Hal.
  - rewrite Hl, Nat.eqb_refl in Hal.
    destruct (subtract_spectra_run w a b false awl afl ad ap bfl
                (zip_with PrimFloat.sub afl bfl) Ha Hal)
      as (r & w' & Hrun & Hr & _).
    + apply broadcast2_same_length. lia.
    + rewrite length_zip_with. lia.
    + now exists r, w'.
Qed.

Lemma subtract_without_interpolation_witness :
  exists r w',
    subtract_spectra star sky false two_world = (Ok r, w') /\
    holds w' r [1; 2; 3]%float [6; 20; 25]%float ∅
      [created_record 0; created_record 4; subtraction_record 6 sky false].
Proof.
  destruct (subtract_without_interpolation two_world star sky
              [1; 2; 3]%float [10; 20; 30]%float ∅ [created_record 0]
              [1; 2; 3]%float [4; 0; 5]%float ∅ [created_record 2])
    as (_ & Hok); try reflexivity; try (repeat split; reflexivity).
  destruct (Hok eq_refl) as (r & w' & Hrun & Hr).
  now exists r, w'.
Defined.

(** X7: on aligned grids (no interpolation asked for, or grids that compare
    equal, and one length), [divide_spectra] with [handle_zeros='nan']
    returns the plain IEEE quotient [a.flux / b.flux] at every position, and
    with [handle_zeros='small'] it returns [a.flux / d] where [d] is [1e-10]
    at the positions where the flux of [b] is zero and the flux of [b]
    elsewhere. *)
Theorem division_by_zero_policies :
  forall w a b interpolate awl afl ad ap bwl bfl bd bp,
    holds w a awl afl ad ap -> holds w b bwl bfl bd bp ->
    length afl = length awl -> length bfl = length bwl ->
    interpolate = false \/ np.array_equal awl bwl = true ->
    length awl = length bwl ->
    (exists r w',
       divide_spectra a b interpolate "nan" w = (Ok r, w') /\
       holds w' r awl (zip_with PrimFloat.div afl bfl) ad
         (ap ++ [created_record (clock w);
                 division_record (S (S (clock w))) b interpolate "nan"])) /\
    (exists r w',
       divide_spectra a b interpolate "small" w = (Ok r, w') /\
       holds w' r awl
         (zip_with (fun x y => PrimFloat.div x (safe_denominator y)) afl bfl)
         ad
         (ap ++ [created_record (clock w);
                 division_record (S (S (clock w))) b interpolate "small"])).
Proof.
  intros w a b interpolate awl afl ad ap bwl bfl bd bp Ha Hb Hla Hlb Hc Hl.
  pose proof Ha as (Hawl & _). pose proof Hb as (Hbwl & Hbfl & _).
  pose proof (align_flux_plain w a b interpolate awl bwl bfl Hawl Hbwl Hbfl
                Hc) as Hal.
  rewrite Hl, Nat.eqb_refl in Hal.
  split.
  - destruct (divide_spectra_run w a b interpolate "nan" awl afl ad ap bfl
                (zip_with PrimFloat.div afl bfl) Ha Hal)
      as (r & w' & Hrun & Hr & _).
    + unfold divide_flux. cbn [String.eqb Ascii.eqb Bool.eqb].
      apply broadcast2_same_length. lia.
    + rewrite length_zip_with. lia.
    + now exists r, w'.
  - destruct (divide_spectra_run w a b interpolate "small" awl afl ad ap bfl
                (zip_with (fun x y => PrimFloat.div x (safe_denominator y))
                   afl bfl) Ha Hal)
      as (r & w' & Hrun & Hr & _).
    + unfold divide_flux. cbn [String.eqb Ascii.eqb Bool.eqb].
      unfold np.div, np.where_.
      rewrite broadcast2_same_length by (rewrite length_fmap; lia).
      now rewrite zip_with_fmap_r.
    + rewrite length_zip_with. lia.
    + now exists r, w'.
Qed.

Lemma division_by_zero_policies_witness :
  exists r w',
    divide_spectra star sky true "small" two_world = (Ok r, w') /\
    heap w' !! flux r
    = Some (OArr [10 / 4; 20 / 1e-10; 30 / 5]%float).
Proof.
  destruct (division_by_zero_policies two_world star sky true
              [1; 2; 3]%float [10; 20; 30]%float ∅ [created_record 0]
              [1; 2; 3]%float [4; 0; 5]%float ∅ [created_record 2])
    as (_ & r & w' & Hrun & Hr);
    try reflexivity; try (repeat split; reflexivity).
  - right. reflexivity.
  - exists r, w'. split; [exact Hrun|]. apply Hr.
Defined.

(** X8: the two failures of [divide_spectra] when nothing is interpolated.
    Wavelength arrays of different lengths give the [ValueError] of the
    length check, whatever [handle_zeros] is; with equal lengths a
    [handle_zeros] other than [mask], [nan] and [small] gives the
    [ValueError] that names the three policies. In both cases the store is
    as before. *)
Theorem divide_spectra_failures :
  forall w a b interpolate handle_zeros awl afl ad ap bwl bfl bd bp,
    holds w a awl afl ad ap -> holds w b bwl bfl bd bp ->
    interpolate = false \/ np.array_equal awl bwl = true ->
    (length awl <> length bwl ->
     divide_spectra a b interpolate handle_zeros w
     = (Raise (ValueError
                 "Spectra must have same length or use interpolate=True"), w))
    /\
    (length awl = length bwl ->
     handle_zeros <> "mask" -> handle_zeros <> "nan" ->
     handle_zeros <> "small" ->
     divide_spectra a b interpolate handle_zeros w
     = (Raise (ValueError "handle_zeros must be 'mask', 'nan', or 'small'"),
        w)).
Proof.
  intros w a b interpolate handle_zeros awl afl ad ap bwl bfl bd bp Ha Hb Hc.
  pose proof Ha as (Hawl & Hafl & _). pose proof Hb as (Hbwl & Hbfl & _).
  pose proof (align_flux_plain w a b interpolate awl bwl bfl Hawl Hbwl Hbfl
                Hc) as Hal.
  split.
  - intros Hl. apply Nat.eqb_neq in Hl. rewrite Hl in Hal.
    unfold divide_spectra. now erewrite bind_raise by exact Hal.
  - intros Hl H1 H2 H3. rewrite Hl, Nat.eqb_refl in Hal.
    apply String.eqb_neq in H1, H2, H3.
    unfold divide_spectra. erewrite bind_ok by exact Hal. mstep.
    unfold divide_flux. rewrite H1, H2, H3. reflexivity.
Qed.

Lemma divide_spectra_failures_witness :
  divide_spectra star sky true "zero" two_world
  = (Raise (ValueError "handle_zeros must be 'mask', 'nan', or 'small'"),
     two_world).
Proof.
  destruct (divide_spectra_failures two_world star sky true "zero"
              [1; 2; 3]%float [10; 20; 30]%float ∅ [created_record 0]
              [1; 2; 3]%float [4; 0; 5]%float ∅ [created_record 2])
    as (_ & Hbad);
    [repeat split; reflexivity|repeat split; reflexivity|right; reflexivity|].
  apply Hbad; [reflexivity|discriminate..].
Defined.

(** * Normalization: failures and NaN *)

Lemma is_nan_Prim2SF x : is_nan x = true -> Prim2SF x = S754_nan.
Proof.
  unfold is_nan. rewrite negb_true_iff, FloatAxioms.eqb_spec. unfold SFeqb.
  destruct (Prim2SF x) as [[]|[]| |[] m e]; cbn;
    rewrite ?Z.compare_refl, ?Pos.compare_cont_refl; try discriminate.
  reflexivity.
Qed.

(** binary64 as numpy shows it has one NaN. *)
Lemma is_nan_eq x : is_nan x = true -> x = nan.
Proof.
  intros H. apply is_nan_Prim2SF in H.
  rewrite <- (FloatAxioms.SF2Prim_Prim2SF x), H. reflexivity.
Qed.

Lemma div_nan_r x : PrimFloat.div x nan = nan.
Proof.
  apply FloatAxioms.Prim2SF_inj. rewrite FloatAxioms.div_spec.
  change (Prim2SF nan) with S754_nan. unfold SF64div, SFdiv.
  now destruct (Prim2SF x).
Qed.

Lemma maximum_nan_l b : np.maximum nan b = nan.
Proof. reflexivity. Qed.

Lemma fold_maximum_nan xs : fold_left np.maximum xs nan = nan.
Proof. induction xs as [|x xs IH]; [reflexivity|exact IH]. Qed.

Lemma maximum_nan_r a b : is_nan b = true -> np.maximum a b = nan.
Proof.
  intros Hb. unfold np.maximum. destruct (is_nan a) eqn:Ha.
  - now apply is_nan_eq.
  - rewrite Hb. now apply is_nan_eq.
Qed.

Lemma fold_maximum_has_nan xs a :
  (is_nan a = true \/ exists x, x ∈ xs /\ is_nan x = true) ->
  fold_left np.maximum xs a = nan.
Proof.
  revert a. induction xs as [|x xs IH]; intros a [Ha|(y & Hy & Hn)].
  - now apply is_nan_eq.
  - now apply elem_of_nil in Hy.
  - apply is_nan_eq in Ha. subst a. apply fold_maximum_nan.
  - cbn [fold_left]. apply elem_of_cons in Hy. destruct Hy as [->|Hy].
    + rewrite (maximum_nan_r _ _ Hn). apply fold_maximum_nan.
    + apply IH. right. now exists y.
Qed.

(** [normalize_spectrum] up to the allocation of the new flux. *)
Lemma normalize_spectrum_unfold w s xs ys d p method range_min range_max :
  holds w s xs ys d p ->
  normalize_spectrum s method range_min range_max w =
  match flux_region_of xs ys range_min range_max with
  | Raise e => (Raise e, w)
  | Ok region =>
      match norm_factor_of method region with
      | Raise e => (Raise e, w)
      | Ok norm_factor =>
          if PrimFloat.eqb norm_factor 0 then
            (Raise (ValueError
                      "Cannot normalize: normalization factor is zero"), w)
          else
            (fl ← alloc (OArr ((fun x => PrimFloat.div x norm_factor) <$> ys));
             wl ← ndarray_copy (wavelength s);
             derive wl fl (wavelength_unit s) "normalized" (metadata s)
               (provenance s) (name s) "normalization"
               [("method", VStr method); ("norm_factor", VFloat norm_factor);
                ("range_min", opt_float range_min);
                ("range_max", opt_float range_max)]) w
      end
  end.
Proof.
  intros (Hwl & Hfl & _). unfold normalize_spectrum. mstep.
  assert ((match range_min, range_max with
           | Some lo, Some hi =>
               wl0 ← read_arr (wavelength s);
               lift (np_mask_select ys (range_mask wl0 lo hi))
           | _, _ => mret ys
           end) w = (flux_region_of xs ys range_min range_max, w)) as Hreg.
  { unfold flux_region_of. destruct range_min, range_max; try reflexivity.
    mstep. reflexivity. }
  destruct (flux_region_of xs ys range_min range_max) as [region|e].
  2:{ now erewrite bind_raise by exact Hreg. }
  erewrite bind_ok by exact Hreg.
  destruct (norm_factor_of method region) as [nf|e].
  2:{ now erewrite bind_raise by reflexivity. }
  erewrite bind_ok by reflexivity.
  destruct (PrimFloat.eqb nf 0); reflexivity.
Qed.

Lemma normalize_spectrum_run w s xs ys d p method range_min range_max
    region norm_factor :
  holds w s xs ys d p -> length xs = length ys ->
  flux_region_of xs ys range_min range_max = Ok region ->
  norm_factor_of method region = Ok norm_factor ->
  PrimFloat.eqb norm_factor 0 = false ->
  exists r w',
    normalize_spectrum s method range_min range_max w = (Ok r, w') /\
    holds w' r xs ((fun x => PrimFloat.div x norm_factor) <$> ys) d
      (p ++ [created_record (clock w);
             normalization_record (S (S (clock w))) method norm_factor
               range_min range_max]).
Proof.
  intros Hs Hlen Hreg Hnf Hz.
  rewrite (normalize_spectrum_unfold w s xs ys d p _ _ _ Hs), Hreg, Hnf, Hz.
  destruct (finish_run w s xs ys d p
              ((fun x => PrimFloat.div x norm_factor) <$> ys)
              (wavelength_unit s) "normalized" (name s) "normalization"
              [("method", VStr method); ("norm_factor", VFloat norm_factor);
               ("range_min", opt_float range_min);
               ("range_max", opt_float range_max)] Hs)
    as (r & w' & Hrun & Hfl & Hwl & _ & _ & _ & Hmd & Hlog & _).
  { rewrite length_fmap. lia. }
  exists r, w'. split; [exact Hrun|]. repeat split; assumption.
Qed.

Lemma flux_region_of_total xs ys range_min range_max :
  length xs = length ys ->
  exists region, flux_region_of xs ys range_min range_max = Ok region.
Proof.
  intros Hlen. unfold flux_region_of.
  destruct range_min as [lo|], range_max as [hi|]; eauto.
  unfold np_mask_select, range_mask.
  rewrite length_fmap, Hlen, Nat.eqb_refl. eauto.
Qed.

(** X9: [normalize_spectrum] fails with a [ValueError] and leaves the store
    as it was when the method is not one of [peak], [area], [continuum], and
    when the normalization factor compares equal to zero. *)
Theorem normalize_spectrum_failures :
  forall w s xs ys d p method range_min range_max,
    holds w s xs ys d p -> length xs = length ys ->
    (method <> "peak" -> method <> "area" -> method <> "continuum" ->
     normalize_spectrum s method range_min range_max w
     = (Raise (ValueError "method must be 'peak', 'area', or 'continuum'"),
        w)) /\
    (forall region norm_factor,
       flux_region_of xs ys range_min range_max = Ok region ->
       norm_factor_of method region = Ok norm_factor ->
       PrimFloat.eqb norm_factor 0 = true ->
       normalize_spectrum s method range_min range_max w
       = (Raise (ValueError "Cannot normalize: normalization factor is zero"),
          w)).
Proof.
  intros w s xs ys d p method range_min range_max Hs Hlen.
  rewrite (normalize_spectrum_unfold w s xs ys d p _ _ _ Hs).
  split.
  - intros H1 H2 H3. apply String.eqb_neq in H1, H2, H3.
    destruct (flux_region_of_total xs ys range_min range_max Hlen)
      as [region ->].
    unfold norm_factor_of. now rewrite H1, H2, H3.
  - intros region nf -> -> ->. reflexivity.
Qed.

Lemma normalize_spectrum_failures_witness :
  normalize_spectrum sample_spectrum "value" None None sample_world
  = (Raise (ValueError "method must be 'peak', 'area', or 'continuum'"),
     sample_world).
Proof.
  destruct (normalize_spectrum_failures sample_world sample_spectrum
              [1; 2; 3; 4; 5]%float [10; 20; 30; 40; 50]%float ∅
              [created_record 0] "value" None None) as (Hbad & _);
    [repeat split; reflexivity|reflexivity|].
  apply Hbad; discriminate.
Defined.

(** X10: the three methods on a normalization region that is too small. On
    an empty region [peak] fails with the [ValueError] of [np.max]; on a
    region of fewer than two samples [area] fails because the trapezoid sum
    is zero; on an empty region [continuum] does not fail: the factor is
    NaN, it is recorded, and every flux value of the result is NaN. *)
Theorem normalize_spectrum_small_regions :
  forall w s xs ys d p range_min range_max region,
    holds w s xs ys d p -> length xs = length ys ->
    flux_region_of xs ys range_min range_max = Ok region ->
    (region = [] ->
     normalize_spectrum s "peak" range_min range_max w
     = (Raise (ValueError
         "zero-size array to reduction operation maximum which has no identity"),
        w)) /\
    (length region <= 1 ->
     normalize_spectrum s "area" range_min range_max w
     = (Raise (ValueError "Cannot normalize: normalization factor is zero"),
        w)) /\
    (region = [] ->
     exists r w',
       normalize_spectrum s "continuum" range_min range_max w = (Ok r, w') /\
       holds w' r xs ((fun _ => nan) <$> ys) d
         (p ++ [created_record (clock w);
                normalization_record (S (S (clock w))) "continuum" nan
                  range_min range_max])).
Proof.
  intros w s xs ys d p range_min range_max region Hs Hlen Hreg.
  repeat apply conj.
  - intros ->.
    now rewrite (normalize_spectrum_unfold w s xs ys d p _ _ _ Hs), Hreg.
  - intros Hl.
    rewrite (normalize_spectrum_unfold w s xs ys d p _ _ _ Hs), Hreg.
    destruct region as [|y [|y' region]]; [reflexivity|reflexivity|].
    cbn in Hl. lia.
  - intros ->.
    destruct (normalize_spectrum_run w s xs ys d p "continuum" range_min
                range_max [] nan Hs Hlen Hreg)
      as (r & w' & Hrun & Hr); [reflexivity|reflexivity|].
    exists r, w'. split; [exact Hrun|].
    erewrite list_fmap_ext in Hr; [exact Hr|].
    intros i x _. apply div_nan_r.
Qed.

Lemma normalize_spectrum_small_regions_witness :
  exists r w',
    normalize_spectrum sample_spectrum "continuum" (Some 7%float)
      (Some 9%float) sample_world = (Ok r, w') /\
    heap w' !! flux r = Some (OArr [nan; nan; nan; nan; nan]).
Proof.
  destruct (normalize_spectrum_small_regions sample_world sample_spectrum
              [1; 2; 3; 4; 5]%float [10; 20; 30; 40; 50]%float ∅
              [created_record 0] (Some 7%float) (Some 9%float) [])
    as (_ & _ & Hnan); [repeat split; reflexivity|reflexivity|reflexivity|].
  destruct (Hnan eq_refl) as (r & w' & Hrun & Hr).
  exists r, w'. split; [exact Hrun|]. apply Hr.
Defined.

(** X11: when only one of [range_min] and [range_max] is given,
    [normalize_spectrum] takes its factor from the whole flux array, as if
    no bound were given, and still writes the given bound to the provenance
    record. *)
Theorem normalize_spectrum_ignores_a_single_bound :
  forall w s xs ys d p method range_min range_max r w',
    holds w s xs ys d p ->
    range_min = None \/ range_max = None ->
    normalize_spectrum s method range_min range_max w = (Ok r, w') ->
    exists norm_factor,
      norm_factor_of method ys = Ok norm_factor /\
      heap w' !! flux r
      = Some (OArr ((fun x => PrimFloat.div x norm_factor) <$> ys)) /\
      log_of w' r
        (p ++ [created_record (clock w);
               normalization_record (S (S (clock w))) method norm_factor
                 range_min range_max]).
Proof.
  intros w s xs ys d p method range_min range_max r w' Hs Hb H.
  destruct (normalize_spectrum_inv _ _ _ _ _ _ _ _ _ _ _ Hs H)
    as (region & nf & Hreg & Hnf & _ & Hfl & _ & _ & Hlog).
  assert (region = ys) as ->.
  { unfold flux_region_of in Hreg.
    destruct Hb as [-> | ->]; [|destruct range_min]; congruence. }
  now exists nf.
Qed.

Lemma normalize_spectrum_ignores_a_single_bound_witness :
  exists r w',
    normalize_spectrum sample_spectrum "peak" (Some 1%float) None sample_world
    = (Ok r, w') /\
    heap w' !! flux r
    = Some (OArr ((fun x => x / 50)%float <$> [10; 20; 30; 40; 50]%float)).
Proof.
  pose (run := normalize_spectrum sample_spectrum "peak" (Some 1%float) None
                 sample_world).
  assert (run = (Ok (MkSpectrum 5 4 "nm" "normalized" 8 7 (name sample_spectrum)), snd run))
    as Hrun by (vm_compute; reflexivity).
  destruct (normalize_spectrum_ignores_a_single_bound sample_world
              sample_spectrum [1; 2; 3; 4; 5]%float
              [10; 20; 30; 40; 50]%float ∅ [created_record 0] "peak"
              (Some 1%float) None _ _
              ltac:(repeat split; reflexivity) (or_intror eq_refl) Hrun)
    as (nf & Hnf & Hfl & _).
  injection Hnf as <-.
  exists (MkSpectrum 5 4 "nm" "normalized" 8 7 (name sample_spectrum)), (snd run).
  split; [exact Hrun|]. exact Hfl.
Defined.

(** X12: a NaN anywhere in the normalization region makes the factor of
    method [peak] NaN: the call returns, the recorded factor is NaN, and
    every flux value of the result is NaN. *)
Theorem peak_normalization_spreads_nan :
  forall w s xs ys d p range_min range_max region,
    holds w s xs ys d p -> length xs = length ys ->
    flux_region_of xs ys range_min range_max = Ok region ->
    (exists y, y ∈ region /\ is_nan y = true) ->
    exists r w',
      normalize_spectrum s "peak" range_min range_max w = (Ok r, w') /\
      holds w' r xs ((fun _ => nan) <$> ys) d
        (p ++ [created_record (clock w);
               normalization_record (S (S (clock w))) "peak" nan
                 range_min range_max]).
Proof.
  intros w s xs ys d p range_min range_max region Hs Hlen Hreg (y & Hy & Hn).
  destruct (normalize_spectrum_run w s xs ys d p "peak" range_min
              range_max region nan Hs Hlen Hreg)
    as (r & w' & Hrun & Hr).
  - unfold norm_factor_of. cbn [String.eqb Ascii.eqb Bool.eqb].
    destruct region as [|y0 region]; [now apply elem_of_nil in Hy|].
    cbn [np.max]. f_equal. apply fold_maximum_has_nan.
    apply elem_of_cons in Hy. destruct Hy as [->|Hy]; [now left|].
    right. now exists y.
  - reflexivity.
  - exists r, w'. split; [exact Hrun|].
    erewrite list_fmap_ext in Hr; [exact Hr|].
    intros i x _. apply div_nan_r.
Qed.

Lemma peak_normalization_spreads_nan_witness :
  exists r w',
    normalize_spectrum sample_spectrum "peak" None None gap_world
    = (Ok r, w') /\
    heap w' !! flux r = Some (OArr [nan; nan; nan]).
Proof.
  destruct (peak_normalization_spreads_nan gap_world sample_spectrum
              [1; 2; 3]%float [10; nan; 30]%float ∅ [created_record 0]
              None None [10; nan; 30]%float)
    as (r & w' & Hrun & Hr);
    [repeat split; reflexivity|reflexivity|reflexivity| |].
  - exists nan. split; [|reflexivity].
    apply elem_of_cons. right. apply elem_of_cons. now left.
  - exists r, w'. split; [exact Hrun|]. apply Hr.
Defined.

(** * Smoothing *)

Section SmoothingRuns.

Variable savgol_filter : list float -> Z -> Z -> outcome (list float).
Variable uniform_filter1d : list float -> Z -> outcome (list float).
Variable gaussian_filter1d : list float -> float -> outcome (list float).

(** From the filtered flux to the result. *)
Lemma smooth_spectrum_run w s xs ys d p window_size method
    (filtered : outcome (list float)) (window : Z) :
  holds w s xs ys d p ->
  (if String.eqb method "savgol" then
     let window_size :=
       if Z.eqb (window_size mod 2) 0 then (window_size + 1)%Z
       else window_size in
     r ← lift (savgol_filter ys window_size 3);
     mret (r, window_size)
   else if String.eqb method "boxcar" then
     r ← lift (uniform_filter1d ys window_size);
     mret (r, window_size)
   else if String.eqb method "gaussian" then
     r ← lift (gaussian_filter1d ys (float_of_Z window_size / 3));
     mret (r, window_size)
   else raise (ValueError
                 "method must be 'savgol', 'boxcar', or 'gaussian'")) w
  = (match filtered with
     | Ok zs => Ok (zs, window)
     | Raise e => Raise e
     end, w) ->
  match filtered with
  | Raise e =>
      smooth_spectrum savgol_filter uniform_filter1d gaussian_filter1d s
        window_size method w = (Raise e, w)
  | Ok zs =>
      length zs = length xs ->
      exists r w',
        smooth_spectrum savgol_filter uniform_filter1d gaussian_filter1d s
          window_size method w = (Ok r, w') /\
        holds w' r xs zs d
          (p ++ [created_record (clock w);
                 smoothing_record (S (S (clock w))) method window])
  end.
Proof.
  intros Hs Hchoice. unfold smooth_spectrum.
  pose proof Hs as (_ & Hfl & _).
  destruct filtered as [zs|e].
  - intros Hlen. mstep. erewrite bind_ok by exact Hchoice.
    destruct (finish_run w s xs ys d p zs (wavelength_unit s) (flux_unit s)
                (name s) "smoothing"
                [("method", VStr method); ("window_size", VInt window)]
                Hs Hlen)
      as (r & w' & Hrun & Hfl' & Hwl & _ & _ & _ & Hmd & Hlog & _).
    exists r, w'. split; [exact Hrun|]. repeat split; assumption.
  - mstep. now erewrite bind_raise by exact Hchoice.
Qed.

End SmoothingRuns.

(** X13: with method [savgol] the filter is called with a window that is
    odd: the window asked for when it is odd, the next integer when it is
    even; this effective window, not the one asked for, is written to the
    provenance record. *)
Theorem savgol_window_is_made_odd :
  forall savgol_filter uniform_filter1d gaussian_filter1d
         w s xs ys d p window_size zs,
    holds w s xs ys d p ->
    let window :=
      if Z.eqb (window_size mod 2) 0 then (window_size + 1)%Z
      else window_size in
    savgol_filter ys window 3%Z = Ok zs -> length zs = length xs ->
    Z.odd window = true /\
    exists r w',
      smooth_spectrum savgol_filter uniform_filter1d gaussian_filter1d
        s window_size "savgol" w = (Ok r, w') /\
      holds w' r xs zs d
        (p ++ [created_record (clock w);
               smoothing_record (S (S (clock w))) "savgol" window]).
Proof.
  intros sg uf gf w s xs ys d p window_size zs Hs window Hsg Hlen.
  split.
  - subst window. rewrite <- Zeven_mod.
    destruct (Z.even window_size) eqn:E.
    + now rewrite Z.add_1_r, Z.odd_succ.
    + now rewrite <- Z.negb_even, E.
  - apply (smooth_spectrum_run sg uf gf w s xs ys d p window_size "savgol"
             (Ok zs) window Hs); [|exact Hlen].
    cbn [String.eqb Ascii.eqb Bool.eqb]. cbn zeta. fold window.
    rewrite Hsg. reflexivity.
Qed.

Lemma savgol_window_is_made_odd_witness :
  exists r w',
    smooth_spectrum (fun ys _ _ => Ok ys) (fun ys _ => Ok ys)
      (fun ys _ => Ok ys) sample_spectrum 4 "savgol" sample_world
    = (Ok r, w') /\
    log_of w' r [created_record 0; created_record 2;
                 smoothing_record 4 "savgol" 5].
Proof.
  destruct (savgol_window_is_made_odd (fun ys _ _ => Ok ys)
              (fun ys _ => Ok ys) (fun ys _ => Ok ys)
              sample_world sample_spectrum
              [1; 2; 3; 4; 5]%float [10; 20; 30; 40; 50]%float ∅
              [created_record 0] 4%Z [10; 20; 30; 40; 50]%float)
    as (_ & r & w' & Hrun & Hr);
    [repeat split; reflexivity|reflexivity|reflexivity|].
  exists r, w'. split; [exact Hrun|]. apply Hr.
Defined.



(** * Unit conversion of a spectrum *)

(** From the new axis to the result. *)
Lemma convert_units_finish w wk s xs ys d p l zs nu from_unit to_unit :
  holds w s xs ys d p -> grows w wk -> clock wk = clock w ->
  heap wk !! l = Some (OArr zs) -> length zs = length ys ->
  exists r w',
    (fl ← ndarray_copy (flux s);
     derive l fl nu (flux_unit s) (metadata s) (provenance s) (name s)
       "unit_conversion"
       [("axis", VStr "wavelength"); ("from_unit", VStr from_unit);
        ("to_unit", VStr to_unit)]) wk = (Ok r, w') /\
    wavelength r = l /\ wavelength_unit r = nu /\
    holds w' r zs ys d
      (p ++ [created_record (clock w);
             conversion_record (S (S (clock w))) from_unit to_unit]) /\
    grows w w'.
Proof.
  intros Hs Hg Hclk Hl Hlen.
  destruct (holds_grows _ _ _ _ _ _ _ Hg Hs) as (Hwl & Hfl & Hmd & Hpv).
  unfold ndarray_copy. mstep.
  set (wk' := World (heap wk ++ [OArr ys]) (clock wk)).
  assert (grows wk wk') as Hg' by (now exists [OArr ys]).
  assert (heap wk' !! length (heap wk) = Some (OArr ys)) as H2
    by (subst wk'; lookup_heap).
  destruct (derive_run wk' l _ nu (flux_unit s) _ _ (name s)
              "unit_conversion"
              [("axis", VStr "wavelength"); ("from_unit", VStr from_unit);
               ("to_unit", VStr to_unit)] _ _ _ _
              (grows_lookup _ _ _ _ Hg' Hl) H2
              (grows_lookup _ _ _ _ Hg' Hmd) (grows_lookup _ _ _ _ Hg' Hpv))
    as [(Hne & _)|(_ & r & w' & Hrun & Hpost)]; [now destruct Hne|].
  exists r, w'. split; [exact Hrun|].
  pose proof (derived_holds _ _ _ _ _ _ _ _ _ _ _ _ _ _
                (grows_lookup _ _ _ _ Hg' Hl) H2 Hpost) as Hh.
  destruct (derived_labels _ _ _ _ _ _ _ _ _ _ _ _ _ _ Hpost)
    as (Ewl & _ & Ewu & _).
  destruct Hpost as (_ & _ & _ & _ & _ & Hg'' & _).
  cbn [clock wk'] in Hh. rewrite Hclk in Hh.
  split; [exact Ewl|]. split; [exact Ewu|]. split; [exact Hh|].
  etransitivity; [exact Hg|]. etransitivity; eassumption.
Qed.

(** X15: when the target unit of [convert_units] is the unit it converts
    from, the wavelength array of the result is the wavelength array of the
    input, the same object and not a copy: a later change of it in place
    shows in the input as well. *)
Theorem convert_units_to_the_same_unit_shares_the_axis :
  forall w s xs ys d p from_unit u,
    holds w s xs ys d p -> length xs = length ys ->
    is_wavelength_unit u = true -> source_unit from_unit s = u ->
    exists r w',
      convert_units s from_unit (Some u) "wavelength" w = (Ok r, w') /\
      wavelength r = wavelength s /\ wavelength_unit r = u /\
      holds w' r xs ys d
        (p ++ [created_record (clock w);
               conversion_record (S (S (clock w))) u u]) /\
      (forall zs,
         heap (mutate (wavelength r) (OArr zs) w') !! wavelength s
         = Some (OArr zs)).
Proof.
  intros w s xs ys d p from_unit u Hs Hlen Hu Hsrc.
  destruct (convert_units_finish w w s xs ys d p (wavelength s) xs u u u Hs)
    as (r & w' & Hrun & Ewl & Ewu & Hr & Hg);
    [reflexivity|reflexivity|apply Hs|exact Hlen|].
  exists r, w'.
  split; [|split; [exact Ewl|split; [exact Ewu|split; [exact Hr|]]]].
  - unfold convert_units. cbn [String.eqb Ascii.eqb Bool.eqb].
    fold (source_unit from_unit s). rewrite Hsrc, Hu.
    unfold convert_wavelength_units. rewrite String.eqb_refl.
    erewrite bind_ok by reflexivity. cbn [show_unit]. exact Hrun.
  - intros zs. unfold mutate. cbn [heap]. rewrite Ewl.
    apply list_lookup_insert_eq.
    destruct Hr as (Hwl & _). rewrite Ewl in Hwl.
    now apply lookup_lt_Some in Hwl.
Qed.

Lemma convert_units_to_the_same_unit_shares_the_axis_witness :
  exists r w',
    convert_units sample_spectrum None (Some "nm") "wavelength" sample_world
    = (Ok r, w') /\
    wavelength r = wavelength sample_spectrum.
Proof.
  destruct (convert_units_to_the_same_unit_shares_the_axis sample_world
              sample_spectrum [1; 2; 3; 4; 5]%float
              [10; 20; 30; 40; 50]%float ∅ [created_record 0] None "nm")
    as (r & w' & Hrun & Ewl & _);
    [repeat split; reflexivity|reflexivity|reflexivity|reflexivity|].
  now exists r, w'.
Defined.

(** X16: between two different wavelength units [convert_units] goes through
    meters: the new axis is a new array holding [from_meters (to_meters x)]
    for the wavelengths [x] of the input, as long as the input's; the flux,
    the metadata and the name are those of the input, the axis is labelled
    with the target unit, the log gets a [created] and a [unit_conversion]
    record with both units, and the input is as it was. *)
Theorem convert_units_between_wavelength_units :
  forall w s xs ys d p from_unit u wavelength_m zs,
    holds w s xs ys d p -> length xs = length ys ->
    is_wavelength_unit u = true -> source_unit from_unit s <> u ->
    to_meters xs (source_unit from_unit s) = Ok wavelength_m ->
    from_meters wavelength_m u = Ok zs ->
    exists r w',
      convert_units s from_unit (Some u) "wavelength" w = (Ok r, w') /\
      new_in w (wavelength r) /\ wavelength_unit r = u /\
      holds w' r zs ys d
        (p ++ [created_record (clock w);
               conversion_record (S (S (clock w)))
                 (source_unit from_unit s) u]) /\
      length zs = length xs /\
      holds w' s xs ys d p.
Proof.
  intros w s xs ys d p from_unit u ms zs Hs Hlen Hu Hne Hto Hfrom.
  assert (length ms = length xs) as Hlm.
  { unfold to_meters in Hto.
    repeat (destruct (_ : bool) in Hto;
            [injection Hto as <-; now rewrite ?length_fmap|]).
    discriminate. }
  assert (length zs = length ms) as Hlz.
  { unfold from_meters in Hfrom.
    repeat (destruct (_ : bool) in Hfrom;
            [injection Hfrom as <-; now rewrite ?length_fmap|]).
    discriminate. }
  destruct (convert_units_finish w (World (heap w ++ [OArr zs]) (clock w))
              s xs ys d p (length (heap w)) zs u
              (source_unit from_unit s) u Hs)
    as (r & w' & Hrun & Ewl & Ewu & Hr & Hg);
    [solve_grows|reflexivity|lookup_heap|lia|].
  exists r, w'.
  split; [|split; [|split; [exact Ewu|split; [exact Hr|split]]]].
  - unfold convert_units. cbn [String.eqb Ascii.eqb Bool.eqb].
    fold (source_unit from_unit s). rewrite Hu.
    unfold convert_wavelength_units.
    apply String.eqb_neq in Hne. rewrite Hne.
    destruct Hs as (Hwl & _).
    erewrite bind_ok; cycle 1.
    { erewrite bind_ok; cycle 1.
      { mstep. rewrite Hto. erewrite bind_ok by reflexivity.
        rewrite Hfrom. erewrite bind_ok by reflexivity. reflexivity. }
      reflexivity. }
    cbn [show_unit]. exact Hrun.
  - unfold new_in. rewrite Ewl. lia.
  - lia.
  - eapply holds_grows; eassumption.
Qed.

Lemma convert_units_between_wavelength_units_witness :
  exists r w',
    convert_units sample_spectrum None (Some "angstrom") "wavelength"
      sample_world = (Ok r, w') /\
    wavelength_unit r = "angstrom" /\
    heap w' !! wavelength r
    = Some (OArr ((fun x => x * 1e-9 * 1e10)%float
                    <$> [1; 2; 3; 4; 5]%float)).
Proof.
  destruct (convert_units_between_wavelength_units sample_world
              sample_spectrum [1; 2; 3; 4; 5]%float
              [10; 20; 30; 40; 50]%float ∅ [created_record 0] None
              "angstrom"
              ((fun x => x * 1e-9)%float <$> [1; 2; 3; 4; 5]%float)
              ((fun x => x * 1e-9 * 1e10)%float <$> [1; 2; 3; 4; 5]%float))
    as (r & w' & Hrun & _ & Ewu & Hr & _);
    [repeat split; reflexivity|reflexivity|reflexivity|discriminate
    |reflexivity|reflexivity|].
  exists r, w'. split; [exact Hrun|]. split; [exact Ewu|]. apply Hr.
Defined.

(** X17: [convert_units] fails with [NotImplementedError] for every axis
    other than [wavelength], and on the wavelength axis with a [ValueError]
    when the target unit is missing or is none of the five wavelength units,
    [Hz] and [eV]; the store is as before. *)
Theorem convert_units_failures :
  forall s from_unit to_unit axis w,
    (axis <> "wavelength" ->
     convert_units s from_unit to_unit axis w
     = (Raise (NotImplementedError "Flux unit conversion not yet implemented"),
        w)) /\
    (to_unit = None ->
     convert_units s from_unit to_unit "wavelength" w
     = (Raise (ValueError "Unknown target unit: None"), w)) /\
    (forall u,
       to_unit = Some u -> is_wavelength_unit u = false ->
       u <> "Hz" -> u <> "eV" ->
       convert_units s from_unit to_unit "wavelength" w
       = (Raise (ValueError ("Unknown target unit: " ++ u)%string), w)).
Proof.
  intros s from_unit to_unit axis w. repeat apply conj.
  - intros Ha. apply String.eqb_neq in Ha. unfold convert_units.
    now rewrite Ha.
  - intros ->. reflexivity.
  - intros u -> Hu H1 H2. apply String.eqb_neq in H1, H2.
    unfold convert_units. cbn [String.eqb Ascii.eqb Bool.eqb].
    rewrite Hu, H1, H2. reflexivity.
Qed.

Lemma convert_units_failures_witness :
  convert_units sample_spectrum None (Some "nm") "flux" sample_world
  = (Raise (NotImplementedError "Flux unit conversion not yet implemented"),
     sample_world) /\
  convert_units sample_spectrum None (Some "km") "wavelength" sample_world
  = (Raise (ValueError "Unknown target unit: km"), sample_world).
Proof.
  split.
  - destruct (convert_units_failures sample_spectrum None (Some "nm") "flux"
                sample_world) as (Haxis & _).
    apply Haxis. discriminate.
  - destruct (convert_units_failures sample_spectrum None (Some "km")
                "wavelength" sample_world) as (_ & _ & Hunit).
    apply (Hunit "km"); [reflexivity|reflexivity|discriminate..].
Defined.

(** * The arguments of the constructor *)

Lemma init_arrays wl fl wu fu md pv nm w s w' xs ys :
  denotes w wl xs -> denotes w fl ys ->
  __init__ wl fl wu fu md pv nm w = (Ok s, w') ->
  heap w' !! wavelength s = Some (OArr xs) /\
  heap w' !! flux s = Some (OArr ys) /\
  (forall l, wl = ArrRef l -> wavelength s = l) /\
  (forall l, fl = ArrRef l -> flux s = l) /\
  (forall zs, wl = ArrSeq zs -> new_in w (wavelength s)) /\
  (forall zs, fl = ArrSeq zs -> new_in w (flux s)).
Proof.
  intros Hx Hy H. apply init_inv in H.
  destruct H as (w1 & w2 & w3 & w4 & xs' & ys' & p & Hwl & Hfl & Hxs & Hys & _
                 & Hmd & Hpv & Hp & Hh & _).
  apply np_asarray_inv in Hwl.
  destruct Hwl as (xs0 & Dx & Lx & Hg1 & _ & Rx & Sx).
  apply np_asarray_inv in Hfl.
  destruct Hfl as (ys0 & Dy & Ly & Hg2 & _ & Ry & Sy).
  apply or_new_dict_inv in Hmd. destruct Hmd as (_ & Hg3 & _).
  apply or_new_list_inv in Hpv. destruct Hpv as (_ & Hg4 & _).
  assert (xs0 = xs) as ->.
  { destruct wl; cbn in Dx, Hx; congruence. }
  assert (ys0 = ys) as ->.
  { destruct fl as [l|zs]; cbn in Dy, Hy; [|congruence].
    pose proof (grows_lookup _ _ _ _ Hg1 Hy). congruence. }
  assert (grows w2 w4) as Hg by (etransitivity; eassumption).
  rewrite Hh. repeat apply conj.
  - eapply insert_list_other; [exact Hp| |discriminate].
    eapply grows_lookup; [exact Hg|]. eapply grows_lookup; eassumption.
  - eapply insert_list_other; [exact Hp| |discriminate].
    eapply grows_lookup; eassumption.
  - intros l El. now destruct (Rx l El).
  - intros l El. now destruct (Ry l El).
  - intros zs El. unfold new_in. rewrite (Sx zs El). lia.
  - intros zs El. unfold new_in. rewrite (Sy zs El).
    now apply grows_length.
Qed.

(** X18: the constructor does not copy float arrays: handed two arrays it
    stores these very objects, so that a later change of one of them in
    place shows in the spectrum; handed two plain sequences it makes new
    arrays with their elements. *)
Theorem constructor_keeps_the_callers_arrays :
  (forall wl fl wu fu md pv nm w s w',
     __init__ (ArrRef wl) (ArrRef fl) wu fu md pv nm w = (Ok s, w') ->
     wavelength s = wl /\ flux s = fl /\
     (forall zs, heap (mutate wl (OArr zs) w') !! wavelength s
                 = Some (OArr zs)) /\
     (forall zs, heap (mutate fl (OArr zs) w') !! flux s
                 = Some (OArr zs))) /\
  (forall xs ys wu fu md pv nm w s w',
     __init__ (ArrSeq xs) (ArrSeq ys) wu fu md pv nm w = (Ok s, w') ->
     new_in w (wavelength s) /\ new_in w (flux s) /\
     heap w' !! wavelength s = Some (OArr xs) /\
     heap w' !! flux s = Some (OArr ys)).
Proof.
  split.
  - intros wl fl wu fu md pv nm w s w' H.
    pose proof H as H0. apply init_inv in H0.
    destruct H0 as (w1 & w2 & _ & _ & xs & ys & _ & Hwl & Hfl & Hxs & Hys & _).
    apply np_asarray_inv in Hwl.
    destruct Hwl as (xs0 & Dx & _ & _ & _ & Rx & _).
    destruct (Rx wl eq_refl) as [Ewl ->].
    apply np_asarray_inv in Hfl.
    destruct Hfl as (ys0 & Dy & _ & _ & _ & Ry & _).
    destruct (Ry fl eq_refl) as [Efl ->].
    destruct (init_arrays _ _ _ _ _ _ _ _ _ _ xs0 ys0 Dx Dy H)
      as (Lx & Ly & _).
    rewrite Ewl, Efl in *.
    split; [reflexivity|]. split; [reflexivity|].
    split; intros zs; unfold mutate; cbn [heap];
      apply list_lookup_insert_eq; eapply lookup_lt_Some; eassumption.
  - intros xs ys wu fu md pv nm w s w' H.
    destruct (init_arrays (ArrSeq xs) (ArrSeq ys) _ _ _ _ _ w _ _ xs ys
                eq_refl eq_refl H) as (Lx & Ly & _ & _ & Nx & Ny).
    split; [eapply Nx; reflexivity|]. split; [eapply Ny; reflexivity|].
    easy.
Qed.

Lemma constructor_keeps_the_callers_arrays_witness :
  exists s w',
    __init__ (ArrRef 0) (ArrRef 1) "nm" "counts" None None None sample_world
    = (Ok s, w') /\
    wavelength s = 0 /\ flux s = 1.
Proof.
  destruct constructor_keeps_the_callers_arrays as (Href & _).
  pose (run := __init__ (ArrRef 0) (ArrRef 1) "nm" "counts" None None None
                 sample_world).
  assert (run = (Ok (MkSpectrum 0 1 "nm" "counts" 4 5 None), snd run))
    as Hrun by (vm_compute; reflexivity).
  exists (MkSpectrum 0 1 "nm" "counts" 4 5 None), (snd run).
  split; [exact Hrun|].
  destruct (Href _ _ _ _ _ _ _ _ _ _ Hrun) as (Ewl & Efl & _).
  now split.
Defined.

(** X19: a non-empty metadata dict handed to the constructor is stored as it
    is, the same object; for [None] and for an empty dict the spectrum gets
    a new empty dict of its own, and the caller's empty dict is left alone.
    *)
Theorem constructor_metadata_dict :
  (forall wl fl wu fu md pv nm w s w' d,
     heap w !! md = Some (ODict d) -> size d <> 0 ->
     __init__ wl fl wu fu (Some md) pv nm w = (Ok s, w') ->
     metadata s = md /\ heap w' !! md = Some (ODict d)) /\
  (forall wl fl wu fu md pv nm w s w',
     md = None \/ (exists l, md = Some l /\ heap w !! l = Some (ODict ∅)) ->
     __init__ wl fl wu fu md pv nm w = (Ok s, w') ->
     new_in w (metadata s) /\ heap w' !! metadata s = Some (ODict ∅) /\
     (forall l, md = Some l -> heap w' !! l = Some (ODict ∅))).
Proof.
  split.
  - intros wl fl wu fu md pv nm w s w' d Hd Hne H. apply init_inv in H.
    destruct H as (w1 & w2 & w3 & w4 & xs & ys & p & Hwl & Hfl & _ & _ & _
                   & Hmd & Hpv & Hp & Hh & _).
    apply np_asarray_inv in Hwl. destruct Hwl as (_ & _ & _ & Hg1 & _).
    apply np_asarray_inv in Hfl. destruct Hfl as (_ & _ & _ & Hg2 & _).
    assert (grows w w2) as Hg by (etransitivity; eassumption).
    pose proof (grows_lookup _ _ _ _ Hg Hd) as Hd2.
    apply or_new_list_inv in Hpv. destruct Hpv as (_ & Hg4 & _).
    apply or_new_dict_inv in Hmd.
    destruct Hmd as (_ & Hg3 & [(-> & E & _)|(_ & _ & [E|(l0 & d0 & E & Hl0 & Hz)])]).
    + injection E as E. subst md. split; [reflexivity|]. rewrite Hh.
      eapply insert_list_other; [exact Hp| |discriminate].
      eapply grows_lookup; eassumption.
    + discriminate.
    + injection E as <-. rewrite Hd2 in Hl0. injection Hl0 as <-.
      now destruct Hne.
  - intros wl fl wu fu md pv nm w s w' Hmd0 H. apply init_inv in H.
    destruct H as (w1 & w2 & w3 & w4 & xs & ys & p & Hwl & Hfl & _ & _ & _
                   & Hmd & Hpv & Hp & Hh & _).
    apply np_asarray_inv in Hwl. destruct Hwl as (_ & _ & _ & Hg1 & _).
    apply np_asarray_inv in Hfl. destruct Hfl as (_ & _ & _ & Hg2 & _).
    assert (grows w w2) as Hg by (etransitivity; eassumption).
    apply or_new_list_inv in Hpv. destruct Hpv as (_ & Hg4 & _).
    apply or_new_dict_inv in Hmd.
    destruct Hmd as (_ & Hg3 & [(-> & E & d & Hd & Hne)|(Hh3 & El & _)]).
    + exfalso. destruct Hmd0 as [->|(l & -> & Hl)]; [discriminate|].
      injection E as E. subst l.
      rewrite (grows_lookup _ _ _ _ Hg Hl) in Hd. injection Hd as <-.
      now apply Hne.
    + assert (grows w w4) as Hg04.
      { etransitivity; [exact Hg|]. etransitivity; eassumption. }
      repeat apply conj.
      * unfold new_in. rewrite El. now apply grows_length.
      * rewrite Hh. eapply insert_list_other; [exact Hp| |discriminate].
        eapply grows_lookup; [exact Hg4|]. rewrite Hh3, El. apply lookup_new.
      * intros l ->. destruct Hmd0 as [?|(l0 & E & Hl)]; [discriminate|].
        injection E as <-. rewrite Hh.
        eapply insert_list_other; [exact Hp| |discriminate].
        eapply grows_lookup; eassumption.
Qed.

Lemma constructor_metadata_dict_witness :
  exists s w',
    __init__ (ArrRef 0) (ArrRef 1) "nm" "counts" (Some 2) None None
      tagged_world = (Ok s, w') /\
    metadata s = 2.
Proof.
  destruct constructor_metadata_dict as (Hkeep & _).
  pose (run := __init__ (ArrRef 0) (ArrRef 1) "nm" "counts" (Some 2) None
                 None tagged_world).
  assert (run = (Ok (MkSpectrum 0 1 "nm" "counts" 2 3 None), snd run))
    as Hrun by (vm_compute; reflexivity).
  exists (MkSpectrum 0 1 "nm" "counts" 2 3 None), (snd run).
  split; [exact Hrun|].
  apply (Hkeep _ _ _ _ 2 _ _ tagged_world _ _ {[ "source" := VStr "lab" ]}
           eq_refl) in Hrun; [apply Hrun|].
  rewrite map_size_singleton. discriminate.
Defined.

(** * Deserializing a partial dict *)

(** X20: [from_dict] fails with [KeyError] on the key [wavelength] when the
    dict has no wavelength, and on the key [flux] when it has a wavelength
    and no flux. *)
Theorem from_dict_missing_arrays :
  (forall data w,
     d_wavelength data = None ->
     from_dict data w = (Raise (KeyError "wavelength"), w)) /\
  (forall data w xs,
     d_wavelength data = Some xs -> d_flux data = None ->
     fst (from_dict data w) = Raise (KeyError "flux")).
Proof.
  split.
  - intros data w Hx. unfold from_dict. rewrite Hx. reflexivity.
  - intros data w xs Hx Hy. unfold from_dict. rewrite Hx, Hy.
    cbn [getitem]. do 2 (erewrite bind_ok by reflexivity). reflexivity.
Qed.

Lemma from_dict_missing_arrays_witness :
  fst (from_dict (MkSdict (Some [1; 2]%float) None (Some "nm") None None None
                    None) (World [] 0))
  = Raise (KeyError "flux").
Proof.
  destruct from_dict_missing_arrays as (_ & Hflux).
  apply (Hflux _ _ [1; 2]%float); reflexivity.
Defined.

(** X21: on a dict with the two arrays and neither metadata nor provenance,
    [from_dict] fails with a [ValueError] when the arrays differ in length
    and otherwise returns a spectrum with these arrays, the units of the
    dict or [nm] and [counts] where the dict has none, the name of the dict
    or [None], empty metadata and a log of one [created] record; nothing
    that existed before the call is changed or shared. *)
Theorem from_dict_defaults :
  forall data w xs ys,
    d_wavelength data = Some xs -> d_flux data = Some ys ->
    d_metadata data = None -> d_provenance data = None ->
    (length xs <> length ys ->
     exists msg w', from_dict data w = (Raise (ValueError msg), w')) /\
    (length xs = length ys ->
     exists r w',
       from_dict data w = (Ok r, w') /\
       wavelength_unit r = get_or (d_wavelength_unit data) "nm" /\
       flux_unit r = get_or (d_flux_unit data) "counts" /\
       name r = d_name data /\
       holds w' r xs ys ∅ [created_record (clock w)] /\
       separate_from w r w').
Proof.
  intros data w xs ys Hx Hy Hmd Hpv.
  rewrite (from_dict_unfold data w xs ys Hx Hy), Hmd, Hpv. cbn [get_or].
  set (w4 := World ((((heap w ++ [OArr xs]) ++ [OArr ys]) ++ [ODict ∅])
                      ++ [OList []]) (clock w)).
  assert (grows w w4) as Hg.
  { exists [OArr xs; OArr ys; ODict ∅; OList []]. cbn.
    now rewrite <- !app_assoc. }
  assert (heap w4 !! length (heap w) = Some (OArr xs)) as H1
    by (subst w4; lookup_heap).
  assert (heap w4 !! length (heap w ++ [OArr xs]) = Some (OArr ys)) as H2
    by (subst w4; lookup_heap).
  assert (heap w4 !! length ((heap w ++ [OArr xs]) ++ [OArr ys])
          = Some (ODict ∅)) as H3 by (subst w4; lookup_heap).
  assert (heap w4 !! length (((heap w ++ [OArr xs]) ++ [OArr ys])
                               ++ [ODict ∅]) = Some (OList [])) as H4
    by (subst w4; lookup_heap).
  split; intros Hlen.
  - apply (init_raises_value_error_iff (ArrRef (length (heap w)))
             (ArrRef (length (heap w ++ [OArr xs]))) _ _ _ _ _ w4 xs ys
             H1 H2), Hlen.
  - destruct (init_total (ArrRef (length (heap w)))
                (ArrRef (length (heap w ++ [OArr xs])))
                (get_or (d_wavelength_unit data) "nm")
                (get_or (d_flux_unit data) "counts")
                (Some (length ((heap w ++ [OArr xs]) ++ [OArr ys])))
                (Some (length (((heap w ++ [OArr xs]) ++ [OArr ys])
                                 ++ [ODict ∅])))
                (d_name data) w4 xs ys H1 H2) as (r & w' & Hrun);
      [now exists ∅|now exists []|exact Hlen|].
    exists r, w'. split; [exact Hrun|].
    destruct (init_post _ _ _ _ _ _ _ _ _ _ _ _ _ _ H1 H2 H3 H4 Hrun)
      as (_ & Ewl & Efl & Ewu & Efu & Enm & Lmd & Lpv & Fmd & _ & Fnil
          & Frame & _ & _).
    destruct (Fnil eq_refl) as [Npv Hg4].
    pose proof (grows_length _ _ Hg) as Hl.
    split; [exact Ewu|]. split; [exact Efu|]. split; [exact Enm|].
    split; [|split].
    + unfold holds. rewrite Ewl, Efl.
      split; [apply Frame; [exact H1|solve_len]|].
      split; [apply Frame; [exact H2|solve_len]|].
      split; [exact Lmd|exact Lpv].
    + etransitivity; eassumption.
    + intros l Hin. unfold refs in Hin. rewrite Ewl, Efl in Hin.
      unfold new_in.
      apply elem_of_cons in Hin. destruct Hin as [->|Hin]; [lia|].
      apply elem_of_cons in Hin. destruct Hin as [->|Hin]; [solve_len|].
      apply elem_of_cons in Hin. destruct Hin as [->|Hin].
      { destruct Fmd as [->|Hge]; [solve_len|lia]. }
      apply elem_of_cons in Hin. destruct Hin as [->|Hin]; [lia|].
      now apply elem_of_nil in Hin.
Qed.

Lemma from_dict_defaults_witness :
  exists r w',
    from_dict (MkSdict (Some [1; 2]%float) (Some [3; 4]%float) None None
                 None None None) (World [] 0) = (Ok r, w') /\
    wavelength_unit r = "nm" /\ flux_unit r = "counts" /\ name r = None /\
    holds w' r [1; 2]%float [3; 4]%float ∅ [created_record 0].
Proof.
  destruct (from_dict_defaults
              (MkSdict (Some [1; 2]%float) (Some [3; 4]%float) None None
                 None None None) (World [] 0) [1; 2]%float [3; 4]%float)
    as (_ & Hok); [reflexivity..|].
  destruct (Hok eq_refl) as (r & w' & Hrun & Ewu & Efu & Enm & Hr & _).
  now exists r, w'.
Defined.

(** * The collection *)

Section Dicts.

Context {A : Type}.
Implicit Types (d : list (string * A)) (k : string) (v : A).

Lemma dict_get_setitem_eq d k v : dict_get (dict_setitem d k v) k = Some v.
Proof.
  induction d as [|[k' v'] d IH]; cbn.
  - now rewrite String.eqb_refl.
  - destruct (String.eqb k' k) eqn:E; cbn; now rewrite E.
Qed.

Lemma dict_get_setitem_ne d k v k0 :
  k0 <> k -> dict_get (dict_setitem d k v) k0 = dict_get d k0.
Proof.
  intros Hne. induction d as [|[k' v'] d IH]; cbn.
  - apply String.eqb_neq in Hne. rewrite String.eqb_sym in Hne.
    now rewrite Hne.
  - destruct (String.eqb k' k) eqn:E; cbn.
    + apply String.eqb_eq in E. subst k'.
      apply String.eqb_neq in Hne. rewrite String.eqb_sym in Hne.
      now rewrite Hne.
    + now rewrite IH.
Qed.

Lemma dict_get_None d k : dict_get d k = None <-> k ∉ (fst <$> d).
Proof.
  induction d as [|[k' v'] d IH]; cbn.
  - split; [intros _ H; now apply elem_of_nil in H|easy].
  - rewrite not_elem_of_cons. destruct (String.eqb k' k) eqn:E.
    + apply String.eqb_eq in E. subst k'. split; [discriminate|].
      intros [H _]. now destruct H.
    + apply String.eqb_neq in E. rewrite IH. split; [|tauto].
      intros H. split; [congruence|exact H].
Qed.

Lemma dict_setitem_keys d k v :
  fst <$> dict_setitem d k v
  = if dict_contains d k then fst <$> d else (fst <$> d) ++ [k].
Proof.
  unfold dict_contains. induction d as [|[k' v'] d IH]; cbn; [reflexivity|].
  destruct (String.eqb k' k) eqn:E; cbn; [reflexivity|].
  rewrite IH. now destruct (dict_get d k).
Qed.

Lemma dict_delitem_present d k :
  dict_contains d k = true ->
  exists d', dict_delitem d k = Ok d' /\
             length d = S (length d') /\
             (forall k0, k0 <> k -> dict_get d' k0 = dict_get d k0) /\
             (NoDup (fst <$> d) ->
              NoDup (fst <$> d') /\ dict_get d' k = None) /\
             (fst <$> d') `sublist_of` (fst <$> d).
Proof.
  unfold dict_contains. induction d as [|[k' v'] d IH]; cbn; [discriminate|].
  destruct (String.eqb k' k) eqn:E.
  - intros _. exists d. apply String.eqb_eq in E. subst k'.
    split; [reflexivity|]. split; [reflexivity|]. split.
    + intros k0 Hne. apply String.eqb_neq in Hne.
      rewrite String.eqb_sym in Hne. now rewrite Hne.
    + split.
      * intros Hnd. apply NoDup_cons in Hnd. destruct Hnd as [Hni Hnd].
        split; [exact Hnd|]. now apply dict_get_None.
      * now apply sublist_cons.
  - intros Hc. destruct (IH Hc) as (d' & -> & Hlen & Hget & Hnd & Hsub).
    exists ((k', v') :: d'). split; [reflexivity|].
    split; [cbn; lia|]. split; [|split].
    + intros k0 Hne. cbn. destruct (String.eqb k' k0); [reflexivity|].
      now apply Hget.
    + intros Hnd0. cbn in Hnd0. apply NoDup_cons in Hnd0.
      destruct Hnd0 as [Hni Hnd0]. destruct (Hnd Hnd0) as [Hnd' Hnone].
      split.
      * cbn. apply NoDup_cons. split; [|exact Hnd'].
        intros Hin. apply Hni. eapply elem_of_sublist; eassumption.
      * cbn. now rewrite E.
    + cbn. now apply sublist_skip.
Qed.

End Dicts.

(** X22: after [add_spectrum(nm, s)] the collection returns [s] for [nm] and
    what it returned before for every other name; [s] is named [nm] when it
    had no name and keeps its name when it had one, and no other spectrum
    object is touched. *)
Theorem collection_get_after_add :
  forall (self : SpectrumCollection) nm spectrum objects s,
    objects !! spectrum = Some s ->
    get_spectrum (add_spectrum self nm spectrum objects).1 nm = Some spectrum
    /\
    (forall k, k <> nm ->
       get_spectrum (add_spectrum self nm spectrum objects).1 k
       = get_spectrum self k) /\
    (add_spectrum self nm spectrum objects).2 !! spectrum
    = Some (match name s with
            | None => set_name nm s
            | Some _ => s
            end) /\
    (forall i, i <> spectrum ->
       (add_spectrum self nm spectrum objects).2 !! i = objects !! i).
Proof.
  intros self nm sp objects s Hs. unfold add_spectrum, get_spectrum.
  rewrite Hs. destruct (name s) as [n|] eqn:En; cbn [fst snd].
  - split; [apply dict_get_setitem_eq|].
    split; [intros k Hk; now apply dict_get_setitem_ne|]. easy.
  - split; [apply dict_get_setitem_eq|].
    split; [intros k Hk; now apply dict_get_setitem_ne|]. split.
    + apply list_lookup_insert_eq. now apply lookup_lt_Some in Hs.
    + intros i Hi. now apply list_lookup_insert_ne.
Qed.

Lemma collection_get_after_add_witness :
  get_spectrum (add_spectrum new_collection "vega" 0 [sample_spectrum]).1
    "vega" = Some 0 /\
  (add_spectrum new_collection "vega" 0 [sample_spectrum]).2 !! 0
  = Some (set_name "vega" sample_spectrum).
Proof.
  destruct (collection_get_after_add new_collection "vega" 0
              [sample_spectrum] sample_spectrum eq_refl)
    as (Hget & _ & Hname & _).
  split; [exact Hget|exact Hname].
Defined.

(** X23: an unnamed spectrum registered under two keys is named after the
    first one: both keys return the one object, and its name is the first
    key. *)
Theorem collection_names_a_spectrum_once :
  forall (self : SpectrumCollection) a b spectrum objects s,
    objects !! spectrum = Some s -> name s = None ->
    let '(c1, o1) := add_spectrum self a spectrum objects in
    let '(c2, o2) := add_spectrum c1 b spectrum o1 in
    get_spectrum c2 a = Some spectrum /\
    get_spectrum c2 b = Some spectrum /\
    o2 !! spectrum = Some (set_name a s).
Proof.
  intros self a b sp objects s Hs Hn.
  unfold add_spectrum at 1. rewrite Hs, Hn.
  assert (<[sp := set_name a s]> objects !! sp = Some (set_name a s)) as Hs1.
  { apply list_lookup_insert_eq. now apply lookup_lt_Some in Hs. }
  unfold add_spectrum. rewrite Hs1. cbn [name set_name].
  unfold get_spectrum. split; [|split; [apply dict_get_setitem_eq|exact Hs1]].
  destruct (decide (a = b)) as [->|Hne].
  - apply dict_get_setitem_eq.
  - rewrite dict_get_setitem_ne by exact Hne. apply dict_get_setitem_eq.
Qed.

Lemma collection_names_a_spectrum_once_witness :
  let '(c1, o1) := add_spectrum new_collection "vega" 0 [sample_spectrum] in
  let '(c2, o2) := add_spectrum c1 "standard" 0 o1 in
  get_spectrum c2 "vega" = Some 0 /\
  get_spectrum c2 "standard" = Some 0 /\
  o2 !! 0 = Some (set_name "vega" sample_spectrum).
Proof.
  apply (collection_names_a_spectrum_once new_collection "vega" "standard" 0
           [sample_spectrum] sample_spectrum); reflexivity.
Defined.

(** X24: [remove_spectrum] never fails. Afterwards the name is not in the
    collection and every other name returns what it did; removing a name
    that is not there changes nothing, removing one that is there makes the
    collection one shorter, and the names stay distinct. *)
Theorem collection_remove :
  forall (self : SpectrumCollection) nm,
    NoDup (list_spectra self) ->
    exists self',
      remove_spectrum self nm = Ok self' /\
      get_spectrum self' nm = None /\
      (forall k, k <> nm -> get_spectrum self' k = get_spectrum self k) /\
      NoDup (list_spectra self') /\
      (get_spectrum self nm = None -> self' = self) /\
      (get_spectrum self nm <> None -> __len__ self = S (__len__ self')).
Proof.
  intros self nm Hnd. unfold remove_spectrum, get_spectrum, list_spectra,
    __len__ in *.
  destruct (dict_contains self nm) eqn:Hc.
  - destruct (dict_delitem_present self nm Hc)
      as (d' & Hdel & Hlen & Hget & Hnd' & _).
    destruct (Hnd' Hnd) as [Hnd1 Hnone].
    exists d'. repeat apply conj; try assumption.
    + intros Hn. unfold dict_contains in Hc. now rewrite Hn in Hc.
    + intros _. exact Hlen.
  - exists self. unfold dict_contains in Hc.
    destruct (dict_get self nm) eqn:Hg; [discriminate|].
    repeat apply conj; try easy.
Qed.

Lemma collection_remove_witness :
  exists self',
    remove_spectrum [("vega", 0); ("sun", 1)] "vega" = Ok self' /\
    get_spectrum self' "vega" = None /\
    get_spectrum self' "sun" = Some 1.
Proof.
  destruct (collection_remove [("vega", 0); ("sun", 1)] "vega")
    as (self' & Hrun & Hnone & Hother & _).
  - apply (bool_decide_unpack _). vm_compute. exact I.
  - exists self'. split; [exact Hrun|]. split; [exact Hnone|].
    now rewrite Hother.
Defined.

(** X25: [list_spectra] lists every name once, in the order of first
    registration: adding under a name that is there keeps the list and the
    length, adding under a new name puts it at the end and makes the
    collection one longer. *)
Theorem collection_names_stay_distinct :
  forall (self : SpectrumCollection) nm spectrum objects,
    NoDup (list_spectra self) ->
    let self' := (add_spectrum self nm spectrum objects).1 in
    NoDup (list_spectra self') /\
    (get_spectrum self nm <> None ->
     list_spectra self' = list_spectra self /\
     __len__ self' = __len__ self) /\
    (get_spectrum self nm = None ->
     list_spectra self' = list_spectra self ++ [nm] /\
     __len__ self' = S (__len__ self)).
Proof.
  intros self nm sp objects Hnd self'.
  assert (self' = dict_setitem self nm sp) as ->.
  { subst self'. unfold add_spectrum.
    destruct (objects !! sp) as [s|]; [destruct (name s)|]; reflexivity. }
  assert (forall d : SpectrumCollection, __len__ d = length (list_spectra d))
    as Hlen.
  { intros d. unfold __len__, list_spectra. now rewrite length_fmap. }
  rewrite !Hlen.
  unfold list_spectra, get_spectrum in *.
  rewrite dict_setitem_keys. unfold dict_contains.
  destruct (dict_get self nm) eqn:Hg.
  - repeat apply conj; try easy.
  - split; [|split; [intros H; now destruct H|]].
    + apply NoDup_app. split; [exact Hnd|]. split.
      * intros x Hx Hin. apply list_elem_of_singleton in Hin. subst x.
        now apply dict_get_None in Hg.
      * apply NoDup_singleton.
    + intros _. split; [reflexivity|].
      rewrite length_app. cbn [length]. lia.
Qed.

Lemma collection_names_stay_distinct_witness :
  list_spectra (add_spectrum [("vega", 0); ("sun", 1)] "vega" 2 []).1
  = ["vega"; "sun"] /\
  list_spectra (add_spectrum [("vega", 0); ("sun", 1)] "moon" 2 []).1
  = ["vega"; "sun"; "moon"].
Proof.
  assert (NoDup (list_spectra [("vega", 0); ("sun", 1)])) as Hnd.
  { apply (bool_decide_unpack _). vm_compute. exact I. }
  split.
  - destruct (collection_names_stay_distinct [("vega", 0); ("sun", 1)]
                "vega" 2 [] Hnd) as (_ & Hsame & _).
    apply Hsame. discriminate.
  - destruct (collection_names_stay_distinct [("vega", 0); ("sun", 1)]
                "moon" 2 [] Hnd) as (_ & _ & Hnew).
    apply Hnew. reflexivity.
Defined.

(** * The provenance tracker *)

Lemma add_record_run self op dt w rs :
  heap w !! ProvenanceTracker.records self = Some (OList rs) ->
  ProvenanceTracker.add_record self op dt w =
    (Ok tt, World (<[ProvenanceTracker.records self :=
                       OList (rs ++ [ProvRecord op (clock w) dt])]> (heap w))
                  (S (clock w))).
Proof.
  intros Hp. unfold ProvenanceTracker.add_record, list_append, now.
  unfold mbind at 1, M_bind at 1. cbv beta iota.
  mstep. reflexivity.
Qed.

(** X26: calls of [add_record] on one tracker append one record each, in the
    order of the calls, each with its operation, its details and the reading
    of the clock taken in its call; every call reads the clock once and no
    other object is changed. *)
Theorem tracker_records_every_call_in_order :
  forall self calls w rs,
    heap w !! ProvenanceTracker.records self = Some (OList rs) ->
    exists w',
      add_records self calls w = (Ok tt, w') /\
      heap w' !! ProvenanceTracker.records self
      = Some (OList (rs ++ imap (fun i c => ProvRecord c.1 (clock w + i) c.2)
                             calls)) /\
      clock w' = clock w + length calls /\
      (forall l, l <> ProvenanceTracker.records self ->
                 heap w' !! l = heap w !! l).
Proof.
  intros self calls. induction calls as [|[op dt] calls IH]; intros w rs Hrs.
  - exists w. cbn. rewrite app_nil_r, Nat.add_0_r. easy.
  - cbn [add_records].
    erewrite bind_ok by (apply add_record_run; exact Hrs).
    set (w1 := World _ _).
    assert (heap w1 !! ProvenanceTracker.records self
            = Some (OList (rs ++ [ProvRecord op (clock w) dt]))) as Hrs1.
    { subst w1. cbn [heap]. apply list_lookup_insert_eq.
      now apply lookup_lt_Some in Hrs. }
    destruct (IH w1 _ Hrs1) as (w' & Hrun & Hlog & Hclk & Hframe).
    exists w'. split; [exact Hrun|]. split; [|split].
    + rewrite Hlog, <- app_assoc, imap_cons. cbn [app fst snd].
      rewrite Nat.add_0_r.
      erewrite (imap_ext _ (_ ∘ S)); [reflexivity|].
      intros i c _. subst w1. cbn [clock compose]. f_equal. lia.
    + rewrite Hclk. subst w1. cbn [clock length]. lia.
    + intros l Hl. rewrite (Hframe l Hl). subst w1. cbn [heap].
      now apply list_lookup_insert_ne.
Qed.

Lemma tracker_records_every_call_in_order_witness :
  exists w',
    add_records (ProvenanceTracker.Mk 0)
      [("load", [("file", VStr "a.csv")]); ("smooth", [])]
      (World [OList []] 7) = (Ok tt, w') /\
    heap w' !! 0
    = Some (OList [ProvRecord "load" 7 [("file", VStr "a.csv")];
                   ProvRecord "smooth" 8 []]) /\
    clock w' = 9.
Proof.
  destruct (tracker_records_every_call_in_order (ProvenanceTracker.Mk 0)
              [("load", [("file", VStr "a.csv")]); ("smooth", [])]
              (World [OList []] 7) [] eq_refl)
    as (w' & Hrun & Hlog & Hclk & _).
  now exists w'.
Defined.

(** * The scalar converters *)

Open Scope float_scope.

Lemma eqb_zero_cases x : PrimFloat.eqb x 0 = true -> x = zero \/ x = neg_zero.
Proof.
  rewrite FloatAxioms.eqb_spec. change (Prim2SF 0) with (S754_zero false).
  intros H. rewrite <- (FloatAxioms.SF2Prim_Prim2SF x).
  destruct (Prim2SF x) as [[]|[]| |[] m e]; try discriminate H.
  - now right.
  - now left.
Qed.

Lemma wavelength_units_spec u :
  u ∈ wavelength_units <->
  String.eqb u "nm" || (String.eqb u "angstrom" || String.eqb u "Å")
  || String.eqb u "um" || String.eqb u "m" = true.
Proof.
  unfold wavelength_units. rewrite !elem_of_cons, elem_of_nil.
  rewrite !orb_true_iff, !String.eqb_eq. tauto.
Qed.

(** X27: [frequency_to_wavelength] returns, an array as long as its input,
    exactly for the target units [nm], [angstrom], [Å], [um] and [m], and
    [frequency_to_energy] and [energy_to_frequency] exactly for [eV] and
    [J]; for every other unit string they fail with the [ValueError] that
    names the unit. *)
Theorem converters_accept_exactly_their_units :
  (forall frequency u,
     (u ∈ wavelength_units ->
      exists wl, frequency_to_wavelength frequency u = Ok wl /\
                 length wl = length frequency) /\
     (u ∉ wavelength_units ->
      frequency_to_wavelength frequency u
      = Raise (ValueError ("Unknown wavelength unit: " ++ u)%string))) /\
  (forall frequency u,
     (u ∈ energy_units ->
      exists e, frequency_to_energy frequency u = Ok e /\
                length e = length frequency) /\
     (u ∉ energy_units ->
      frequency_to_energy frequency u
      = Raise (ValueError ("Unknown energy unit: " ++ u)%string))) /\
  (forall energy u,
     (u ∈ energy_units ->
      exists f, energy_to_frequency energy u = Ok f /\
                length f = length energy) /\
     (u ∉ energy_units ->
      energy_to_frequency energy u
      = Raise (ValueError ("Unknown energy unit: " ++ u)%string))).
Proof.
  repeat apply conj.
  - intros f u. rewrite wavelength_units_spec.
    unfold frequency_to_wavelength, is_angstrom.
    split.
    + intros H.
      destruct (String.eqb u "nm"), (String.eqb u "angstrom"),
        (String.eqb u "Å"), (String.eqb u "um"), (String.eqb u "m");
        try discriminate H; cbn [orb];
        (eexists; split; [reflexivity|now rewrite ?length_fmap]).
    + intros H. apply not_true_is_false in H.
      rewrite !orb_false_iff in H. destruct H as [[[-> [-> ->]] ->] ->].
      reflexivity.
  - intros f u. unfold energy_units. rewrite !elem_of_cons, elem_of_nil.
    unfold frequency_to_energy. split.
    + intros [->|[->|[]]]; eexists; (split; [reflexivity|]);
        now rewrite ?length_fmap.
    + intros H.
      destruct (String.eqb_spec u "eV") as [->|_]; [tauto|].
      destruct (String.eqb_spec u "J") as [->|_]; [tauto|]. reflexivity.
  - intros e u. unfold energy_units. rewrite !elem_of_cons, elem_of_nil.
    unfold energy_to_frequency. split.
    + intros [->|[->|[]]]; eexists; (split; [reflexivity|]);
        now rewrite ?length_fmap.
    + intros H.
      destruct (String.eqb_spec u "eV") as [->|_]; [tauto|].
      destruct (String.eqb_spec u "J") as [->|_]; [tauto|]. reflexivity.
Qed.

Lemma converters_accept_exactly_their_units_witness :
  (exists wl, frequency_to_wavelength [5e14] "Å" = Ok wl /\ length wl = 1%nat) /\
  energy_to_frequency [2] "ev"
  = Raise (ValueError "Unknown energy unit: ev").
Proof.
  destruct converters_accept_exactly_their_units as (Hfw & _ & Hef).
  split.
  - apply (Hfw [5e14] "Å"). apply wavelength_units_spec. reflexivity.
  - apply (Hef [2] "ev"). unfold energy_units.
    rewrite !elem_of_cons, elem_of_nil. intros [H|[H|[]]]; discriminate H.
Defined.

(** X28: a zero is not an error for the converters: where the wavelength is
    zero the frequency that [wavelength_to_frequency] returns is infinite,
    and where the frequency is zero the wavelength that
    [frequency_to_wavelength] returns is infinite, in every unit. *)
Theorem zero_wavelength_or_frequency_gives_infinity :
  (forall wl u fr i x,
     wavelength_to_frequency wl u = Ok fr ->
     wl !! i = Some x -> PrimFloat.eqb x 0 = true ->
     exists y, fr !! i = Some y /\ is_infinity y = true) /\
  (forall frequency u wl i x,
     frequency_to_wavelength frequency u = Ok wl ->
     frequency !! i = Some x -> PrimFloat.eqb x 0 = true ->
     exists y, wl !! i = Some y /\ is_infinity y = true).
Proof.
  split.
  - intros wl u fr i x H Hx Hz. unfold wavelength_to_frequency in H.
    apply eqb_zero_cases in Hz.
    repeat (destruct (_ : bool) in H;
            [injection H as <-;
             rewrite !list_lookup_fmap, Hx; cbn [fmap option_fmap option_map];
             eexists; split; [reflexivity|];
             destruct Hz as [-> | ->]; reflexivity|]).
    discriminate H.
  - intros f u wl i x H Hx Hz. unfold frequency_to_wavelength in H.
    apply eqb_zero_cases in Hz.
    repeat (destruct (_ : bool) in H;
            [injection H as <-;
             rewrite !list_lookup_fmap, Hx; cbn [fmap option_fmap option_map];
             eexists; split; [reflexivity|];
             destruct Hz as [-> | ->]; reflexivity|]).
    discriminate H.
Qed.

Lemma zero_wavelength_or_frequency_gives_infinity_witness :
  exists fr y,
    wavelength_to_frequency [500; 0] "nm" = Ok fr /\
    fr !! 1%nat = Some y /\ is_infinity y = true.
Proof.
  destruct zero_wavelength_or_frequency_gives_infinity as (Hwf & _).
  destruct (Hwf [500; 0] "nm" _ 1%nat 0 eq_refl eq_refl eq_refl)
    as (y & Hy & Hinf).
  eexists _, y. split; [reflexivity|]. split; [exact Hy|exact Hinf].
Defined.

Close Scope float_scope.

(** * Division of a number by itself *)

(** A finite number that is not zero, divided by itself, is one. *)
Lemma SFdiv_self s m e :
  SFdiv prec emax (S754_finite s m e) (S754_finite s m e) = one_sf.
Proof.
  unfold SFdiv, SFdiv_core_binary.
  rewrite !Z.sub_diag.
  change (Z.min (fexp prec emax 0) 0) with (-53)%Z.
  change (0 - -53)%Z with 53%Z. cbv iota.
  rewrite Z.shiftl_mul_pow2 by lia.
  assert (Z.div_eucl (Z.pos m * 2 ^ 53) (Z.pos m) = ((2 ^ 53)%Z, 0%Z)) as ->.
  { pose proof (Z.div_mul (2 ^ 53) (Z.pos m) ltac:(lia)) as Hq.
    pose proof (Z.mod_mul (2 ^ 53) (Z.pos m) ltac:(lia)) as Hr.
    rewrite (Z.mul_comm (2 ^ 53)) in Hq, Hr.
    unfold Z.div in Hq. unfold Z.modulo in Hr.
    destruct (Z.div_eucl (Z.pos m * 2 ^ 53) (Z.pos m)). congruence. }
  assert (new_location (Z.pos m) 0 = loc_Exact) as ->.
  { unfold new_location, new_location_even, new_location_odd.
    destruct (Z.even (Z.pos m)); reflexivity. }
  destruct s; vm_compute; reflexivity.
Qed.

Lemma SFeqb_refl_finite s m e :
  SFeqb (S754_finite s m e) (S754_finite s m e) = true.
Proof.
  unfold SFeqb, SFcompare.
  rewrite Z.compare_refl, Pos.compare_cont_refl. now destruct s.
Qed.

(** The quotient of a number by itself: one for a finite number other than
    zero; NaN for an infinity and for NaN. *)
Lemma div_self x :
  PrimFloat.eqb x 0 = false ->
  PrimFloat.div x x = if is_finite x then 1%float else nan.
Proof.
  intros Hz. apply FloatAxioms.Prim2SF_inj.
  rewrite FloatAxioms.div_spec.
  unfold is_finite, is_nan, is_infinity.
  rewrite !FloatAxioms.eqb_spec, FloatAxioms.abs_spec.
  rewrite FloatAxioms.eqb_spec in Hz.
  change (Prim2SF 0) with (S754_zero false) in Hz.
  change (Prim2SF infinity) with (S754_infinity false).
  unfold SF64div.
  destruct (Prim2SF x) as [sx|sx| |sx m e].
  - destruct sx; discriminate Hz.
  - destruct sx; reflexivity.
  - reflexivity.
  - rewrite SFdiv_self, SFeqb_refl_finite. reflexivity.
Qed.

Lemma self_quotient x :
  masked_quotient x x
  = if PrimFloat.eqb x 0 then nan
    else if is_finite x then 1%float else nan.
Proof.
  unfold masked_quotient. destruct (PrimFloat.eqb x 0) eqn:Hz; [reflexivity|].
  now apply div_self.
Qed.

(** A grid without NaN compares equal to itself. *)
Lemma array_equal_self xs : no_nan xs -> np.array_equal xs xs = true.
Proof.
  intros Hn. unfold np.array_equal. rewrite Nat.eqb_refl. cbn [andb].
  induction xs as [|x xs IH]; [reflexivity|]. cbn [np.all_eq].
  assert (PrimFloat.eqb x x = true) as ->.
  { specialize (Hn x ltac:(left)). unfold is_nan in Hn.
    now apply negb_false_iff in Hn. }
  apply IH. intros y Hy. apply Hn. now right.
Qed.

(** X29: without interpolation, or on a wavelength grid without NaN, a
    spectrum divided by itself under the policy [mask] has the flux [1.0]
    exactly at the positions where its own flux is finite and not zero, and
    NaN at every other position: where the flux is zero, infinite or NaN. *)
Theorem masked_division_by_itself :
  forall w a interpolate awl afl ad ap,
    holds w a awl afl ad ap -> length afl = length awl ->
    interpolate = false \/ no_nan awl ->
    exists r w' zs,
      divide_spectra a a interpolate "mask" w = (Ok r, w') /\
      heap w' !! flux r = Some (OArr zs) /\
      length zs = length afl /\
      forall i x,
        afl !! i = Some x ->
        exists z,
          zs !! i = Some z /\
          (is_finite x = true -> PrimFloat.eqb x 0 = false -> z = 1%float) /\
          (is_finite x = false \/ PrimFloat.eqb x 0 = true -> z = nan).
Proof.
  intros w a interpolate awl afl ad ap Ha Hlen Hc.
  pose proof Ha as (Hawl & Hafl & _).
  assert (interpolate = false \/ np.array_equal awl awl = true) as Hc'.
  { destruct Hc as [Hc|Hc]; [now left|right; now apply array_equal_self]. }
  pose proof (align_flux_plain w a a interpolate awl awl afl Hawl Hawl Hafl
                Hc') as Hal.
  rewrite Nat.eqb_refl in Hal.
  destruct (divide_spectra_run w a a interpolate "mask" awl afl ad ap afl
              (zip_with masked_quotient afl afl) Ha Hal)
    as (r & w' & Hrun & Hr & _).
  { now apply divide_flux_mask. }
  { rewrite length_zip_with. lia. }
  exists r, w', (zip_with masked_quotient afl afl).
  split; [exact Hrun|]. split; [apply Hr|].
  split; [rewrite length_zip_with; lia|].
  intros i x Hx. exists (masked_quotient x x).
  split; [rewrite lookup_zip_with, Hx; reflexivity|].
  rewrite self_quotient. split.
  - intros -> ->. reflexivity.
  - intros [-> | ->]; [|reflexivity].
    now destruct (PrimFloat.eqb x 0).
Qed.

Lemma masked_division_by_itself_witness :
  exists r w',
    divide_spectra sample_spectrum sample_spectrum true "mask" edge_world
    = (Ok r, w') /\
    heap w' !! flux r = Some (OArr [1; nan; nan]%float).
Proof.
  destruct (masked_division_by_itself edge_world sample_spectrum true
              [1; 2; 3]%float [5; 0; infinity]%float ∅ [created_record 0])
    as (r & w' & zs & Hrun & Hzs & Hlen & Hpt);
    [repeat split; reflexivity|reflexivity| |].
  { right. intros x Hx.
    repeat (apply elem_of_cons in Hx; destruct Hx as [->|Hx];
            [reflexivity|]).
    now apply elem_of_nil in Hx. }
  exists r, w'. split; [exact Hrun|]. rewrite Hzs. do 2 f_equal.
  destruct zs as [|z0 [|z1 [|z2 [|z3 zs]]]]; try discriminate Hlen.
  destruct (Hpt 0 5%float eq_refl) as (z & Ez & H1 & _).
  injection Ez as <-. rewrite (H1 eq_refl eq_refl).
  destruct (Hpt 1 0%float eq_refl) as (z & Ez & _ & H2).
  injection Ez as <-. rewrite (H2 (or_intror eq_refl)).
  destruct (Hpt 2 infinity eq_refl) as (z & Ez & _ & H3).
  injection Ez as <-. rewrite (H3 (or_introl eq_refl)).
  reflexivity.
Defined.

(** A spectrum with a NaN in its wavelength grid. *)
Definition nan_grid_world : world :=
  World [OArr [1; nan; 3]%float; OArr [5; 5; 5]%float; ODict ∅;
         OList [created_record 0]] 2.

(** A grid with a NaN does not compare equal to itself: with
    [interpolate=True] the flux is interpolated onto it first, and the
    quotient is NaN at the NaN of the grid although the flux there is finite
    and not zero. *)
Lemma masked_division_by_itself_on_a_nan_grid :
  np.array_equal [1; nan; 3]%float [1; nan; 3]%float = false /\
  exists r w',
    divide_spectra sample_spectrum sample_spectrum true "mask" nan_grid_world
    = (Ok r, w') /\
    heap w' !! flux r = Some (OArr [1; nan; 1]%float).
Proof.
  split; [reflexivity|].
  pose (run := divide_spectra sample_spectrum sample_spectrum true "mask"
                 nan_grid_world).
  assert (run = (Ok (MkSpectrum 5 4 "nm" "(counts)/(counts)" 8 7 None),
                 snd run)) as Hrun by (vm_compute; reflexivity).
  exists (MkSpectrum 5 4 "nm" "(counts)/(counts)" 8 7 None), (snd run).
  split; [exact Hrun|]. vm_compute. reflexivity.
Qed.

(** * The maximum after peak normalization *)

Open Scope Z_scope.

Lemma digits2_size p : digits2_pos p = Pos.size p.
Proof. induction p; cbn; congruence. Qed.

Lemma digits_bounds p :
  2 ^ (Z.pos (digits2_pos p) - 1) <= Z.pos p < 2 ^ Z.pos (digits2_pos p).
Proof.
  rewrite digits2_size. split.
  - pose proof (Pos.size_le p) as H.
    assert (Z.pos (2 ^ Pos.size p) <= Z.pos p~0) as H' by exact H.
    rewrite Pos2Z.inj_pow in H'.
    replace (Z.pos (Pos.size p)) with (Z.pos (Pos.size p) - 1 + 1) in H' by lia.
    rewrite Z.pow_add_r in H' by lia. lia.
  - pose proof (Pos.size_gt p) as H.
    assert (Z.pos p < Z.pos (2 ^ Pos.size p)) as H' by exact H.
    now rewrite Pos2Z.inj_pow in H'.
Qed.

Lemma Zdigits2_le q n :
  0 <= n -> 0 <= q <= 2 ^ n -> Zdigits2 q <= n + 1.
Proof.
  intros Hn [Hq0 Hq]. destruct q as [|p|p]; cbn; try lia.
  pose proof (digits_bounds p) as [Hlo _].
  destruct (Z_lt_le_dec (n + 1) (Z.pos (digits2_pos p))) as [Hlt|]; [|lia].
  exfalso.
  assert (2 ^ (n + 1) <= 2 ^ (Z.pos (digits2_pos p) - 1)).
  { apply Z.pow_le_mono_r; lia. }
  rewrite Z.pow_add_r in H by lia. lia.
Qed.

Lemma Zdigits2_nonneg q : 0 <= Zdigits2 q.
Proof. destruct q; cbn; lia. Qed.

Lemma iter_pos_nat {A} (f : A -> A) p x :
  SpecFloat.iter_pos f p x = Nat.iter (Pos.to_nat p) f x.
Proof.
  revert x. induction p as [p IH|p IH|]; intros x; cbn [SpecFloat.iter_pos].
  - rewrite !IH, Pos2Nat.inj_xI.
    replace (S (2 * Pos.to_nat p))%nat with (Pos.to_nat p + S (Pos.to_nat p))%nat by lia.
    rewrite Nat.iter_add. f_equal. now rewrite Nat.iter_succ_r.
  - rewrite !IH, Pos2Nat.inj_xO.
    replace (2 * Pos.to_nat p)%nat with (Pos.to_nat p + Pos.to_nat p)%nat by lia.
    now rewrite Nat.iter_add.
  - reflexivity.
Qed.

Lemma shr_1_spec mrs :
  0 <= shr_m mrs ->
  shr_m (shr_1 mrs) = shr_m mrs / 2 /\ shr_r (shr_1 mrs) = Z.odd (shr_m mrs).
Proof.
  destruct mrs as [m r s]. cbn [shr_m]. intros Hm.
  destruct m as [|[p|p|]|p]; cbn [shr_1 shr_m shr_r]; try lia.
  - split; reflexivity.
  - split; [|reflexivity].
    rewrite Pos2Z.inj_xI. apply Z.div_unique with (r := 1); lia.
  - split; [|reflexivity].
    rewrite Pos2Z.inj_xO. apply Z.div_unique with (r := 0); lia.
  - split; reflexivity.
Qed.

Lemma shr_iter_spec n mrs :
  0 <= shr_m mrs ->
  shr_m (Nat.iter n shr_1 mrs) = shr_m mrs / 2 ^ Z.of_nat n /\
  (forall k, n = S k ->
     shr_r (Nat.iter n shr_1 mrs) = Z.odd (shr_m mrs / 2 ^ Z.of_nat k)).
Proof.
  intros Hm. induction n as [|n [IHm IHr]].
  - cbn. split; [now rewrite Z.div_1_r|discriminate].
  - change (Nat.iter (S n) shr_1 mrs) with (shr_1 (Nat.iter n shr_1 mrs)).
    assert (0 <= shr_m (Nat.iter n shr_1 mrs)) as Hn.
    { rewrite IHm. apply Z.div_pos; [lia|]. apply Z.pow_pos_nonneg; lia. }
    destruct (shr_1_spec _ Hn) as [H1 H2]. split.
    + rewrite H1, IHm, Nat2Z.inj_succ, Z.pow_succ_r by lia.
      rewrite Z.div_div by (try apply Z.pow_pos_nonneg; lia).
      f_equal. lia.
    + intros k [= <-]. now rewrite H2, IHm.
Qed.

Lemma pow2_pos n : 0 < 2 ^ n \/ n < 0.
Proof. destruct (Z_lt_le_dec n 0); [now right|left]. apply Z.pow_pos_nonneg; lia. Qed.

(** One [shr_fexp] step keeps a mantissa within [2 ^ (- e)]. *)
Lemma shr_fexp_bound q e l :
  0 <= q -> e <= -52 -> q <= 2 ^ (- e) ->
  (l <> loc_Exact -> q < 2 ^ (- e)) ->
  let '(mrs, e1) := shr_fexp prec emax q e l in
  0 <= shr_m mrs /\ e1 <= -52 /\ shr_m mrs <= 2 ^ (- e1) /\
  (shr_r mrs = true -> shr_m mrs < 2 ^ (- e1)).
Proof.
  intros Hq He Hle Hlt. unfold shr_fexp.
  pose proof (Zdigits2_le q (- e) ltac:(lia) ltac:(lia)) as Hd.
  pose proof (Zdigits2_nonneg q) as Hd0.
  set (n := fexp prec emax (Zdigits2 q + e) - e).
  assert (n + e <= -52) as Hn.
  { subst n. unfold fexp, SpecFloat.emin, prec, emax. lia. }
  assert (shr_m (shr_record_of_loc q l) = q) as Eq
    by (destruct l as [|[]]; reflexivity).
  assert (0 <= shr_m (shr_record_of_loc q l) /\ e <= -52 /\
          shr_m (shr_record_of_loc q l) <= 2 ^ (- e) /\
          (shr_r (shr_record_of_loc q l) = true ->
           shr_m (shr_record_of_loc q l) < 2 ^ (- e))) as Hstay.
  { rewrite Eq. repeat split; try lia.
    intros Hr. apply Hlt. destruct l as [|[]]; cbn in Hr; congruence. }
  unfold shr. destruct n as [|p|p] eqn:En; [exact Hstay| |exact Hstay].
  - (* shift by p > 0 binary digits *)
    rewrite iter_pos_nat.
    assert (0 <= shr_m (shr_record_of_loc q l)) as Hq' by lia.
    destruct (shr_iter_spec (Pos.to_nat p) _ Hq') as [Hm Hr].
    rewrite Eq in Hm, Hr. rewrite positive_nat_Z in Hm.
    assert (0 < 2 ^ Z.pos p) as Hp by (apply Z.pow_pos_nonneg; lia).
    assert (2 ^ (- e) = 2 ^ Z.pos p * 2 ^ (- (e + Z.pos p))) as Hsplit.
    { rewrite <- Z.pow_add_r by lia. f_equal. lia. }
    rewrite Hm. split; [apply Z.div_pos; lia|]. split; [lia|]. split.
    + apply Z.div_le_upper_bound; [lia|]. now rewrite <- Hsplit.
    + intros Hodd.
      apply Z.div_lt_upper_bound; [lia|]. rewrite <- Hsplit.
      destruct (Z.eq_dec q (2 ^ (- e))) as [E|]; [|lia]. exfalso.
      destruct (Pos.to_nat p) as [|k] eqn:Ek; [lia|].
      rewrite (Hr k eq_refl) in Hodd.
      assert (Z.of_nat k = Z.pos p - 1) as Ek' by lia.
      rewrite E, Ek' in Hodd.
      replace (- e) with ((- (e + Z.pos p) + 1) + (Z.pos p - 1)) in Hodd by lia.
      rewrite Z.pow_add_r, Z.div_mul in Hodd by (try apply Z.pow_nonzero; lia).
      rewrite Z.pow_add_r, Z.pow_1_r, Z.mul_comm, Z.odd_mul in Hodd by lia.
      discriminate.
Qed.

Lemma round_nearest_even_bound mrs b :
  0 <= shr_m mrs -> shr_m mrs <= b ->
  (shr_r mrs = true -> shr_m mrs < b) ->
  0 <= round_nearest_even (shr_m mrs) (loc_of_shr_record mrs) <= b.
Proof.
  destruct mrs as [m [] []]; cbn; intros H0 H1 H2;
    try destruct (Z.even m); try specialize (H2 eq_refl); lia.
Qed.

(** Rounding a mantissa that stands for at most one gives at most one. *)
Lemma binary_round_aux_le_one s q e l :
  0 <= q -> e <= -52 -> q <= 2 ^ (- e) ->
  (l <> loc_Exact -> q < 2 ^ (- e)) ->
  match binary_round_aux prec emax s q e l with
  | S754_zero s' => s' = s
  | S754_finite s' m e2 =>
      s' = s /\ (e2 < -52 \/ (e2 = -52 /\ Z.pos m <= 2 ^ 52))
  | _ => False
  end.
Proof.
  intros Hq He Hle Hlt. unfold binary_round_aux.
  pose proof (shr_fexp_bound q e l Hq He Hle Hlt) as H1.
  destruct (shr_fexp prec emax q e l) as [mrs1 e1].
  destruct H1 as (H10 & He1 & H1le & H1lt).
  pose proof (round_nearest_even_bound mrs1 _ H10 H1le H1lt) as [H20 H2le].
  set (q2 := round_nearest_even (shr_m mrs1) (loc_of_shr_record mrs1)) in *.
  pose proof (shr_fexp_bound q2 e1 loc_Exact H20 He1 H2le ltac:(easy)) as H3.
  destruct (shr_fexp prec emax q2 e1 loc_Exact) as [mrs2 e2].
  destruct H3 as (H30 & He2 & H3le & _).
  destruct (shr_m mrs2) as [|m|m] eqn:Em; [reflexivity| |lia].
  assert ((e2 <=? emax - prec) = true) as ->
    by (apply Z.leb_le; unfold emax, prec; lia).
  split; [reflexivity|].
  destruct (Z.eq_dec e2 (-52)) as [->|]; [right|left; lia].
  split; [reflexivity|exact H3le].
Qed.

Lemma shr_fexp_nonneg q e l :
  0 <= q -> 0 <= shr_m (fst (shr_fexp prec emax q e l)).
Proof.
  intros Hq. unfold shr_fexp, shr.
  assert (shr_m (shr_record_of_loc q l) = q) as Eq
    by (destruct l as [|[]]; reflexivity).
  destruct (fexp prec emax (Zdigits2 q + e) - e) as [|p|p]; cbn [fst];
    try lia.
  rewrite iter_pos_nat.
  destruct (shr_iter_spec (Pos.to_nat p) (shr_record_of_loc q l)) as [Hm _];
    [lia|].
  rewrite Hm, Eq. apply Z.div_pos; [lia|]. apply Z.pow_pos_nonneg; lia.
Qed.

Lemma round_nearest_even_nonneg m l :
  0 <= m -> 0 <= round_nearest_even m l.
Proof. intros H. destruct l as [|[]]; cbn; try destruct (Z.even m); lia. Qed.

(** Rounding a non-negative mantissa keeps the sign and never gives NaN. *)
Lemma binary_round_aux_sign s q e l :
  0 <= q ->
  match binary_round_aux prec emax s q e l with
  | S754_zero s' | S754_infinity s' | S754_finite s' _ _ => s' = s
  | S754_nan => False
  end.
Proof.
  intros Hq. unfold binary_round_aux.
  pose proof (shr_fexp_nonneg q e l Hq) as H1.
  destruct (shr_fexp prec emax q e l) as [mrs1 e1]. cbn [fst] in H1.
  pose proof (round_nearest_even_nonneg _ (loc_of_shr_record mrs1) H1) as H2.
  pose proof (shr_fexp_nonneg _ e1 loc_Exact H2) as H3.
  destruct (shr_fexp prec emax _ e1 loc_Exact) as [mrs2 e2]. cbn [fst] in H3.
  destruct (shr_m mrs2) as [|m|m]; [reflexivity| |lia].
  destruct (e2 <=? emax - prec); reflexivity.
Qed.

Lemma bounded_canonical m e :
  bounded prec emax m e = true ->
  Z.pos (digits2_pos m) <= 53 /\ -1074 <= e /\
  (e = Z.pos (digits2_pos m) + e - 53 \/ e = -1074) /\ e <= 971.
Proof.
  unfold bounded, canonical_mantissa, fexp, SpecFloat.emin, prec, emax.
  intros H. apply andb_prop in H. destruct H as [H1 H2].
  apply Z.eqb_eq in H1. apply Z.leb_le in H2. lia.
Qed.

(** The quotient of [x <= y], both positive and finite, before rounding. *)
Lemma div_core_le mx ex my ey :
  bounded prec emax mx ex = true -> bounded prec emax my ey = true ->
  (ex < ey \/ (ex = ey /\ Z.pos mx <= Z.pos my)) ->
  let '(q, e', l) := SFdiv_core_binary prec emax (Z.pos mx) ex (Z.pos my) ey in
  0 <= q /\ e' <= -52 /\ q <= 2 ^ (- e') /\
  (l <> loc_Exact -> q < 2 ^ (- e')).
Proof.
  intros Hbx Hby Hle.
  destruct (bounded_canonical _ _ Hbx) as (Hdx & Hex & Hcx & _).
  destruct (bounded_canonical _ _ Hby) as (Hdy & Hey & Hcy & _).
  pose proof (digits_bounds mx) as [Hxlo Hxhi].
  pose proof (digits_bounds my) as [Hylo Hyhi].
  set (dx := Z.pos (digits2_pos mx)) in *.
  set (dy := Z.pos (digits2_pos my)) in *.
  assert (0 < dx /\ 0 < dy) as [Hdx0 Hdy0] by (subst dx dy; lia).
  (* x <= y as numbers *)
  assert (Z.pos mx <= Z.pos my * 2 ^ (ey - ex) /\ dx + ex <= dy + ey)
    as [Hval Hk].
  { destruct Hle as [Hlt|[-> Hm]].
    - assert (dy = 53) as Edy by lia.
      assert (2 ^ dx <= 2 ^ 53) by (apply Z.pow_le_mono_r; lia).
      assert (2 ^ 1 <= 2 ^ (ey - ex)) by (apply Z.pow_le_mono_r; lia).
      rewrite Edy in Hylo. change (2 ^ (53 - 1)) with 4503599627370496 in Hylo.
      change (2 ^ 53) with 9007199254740992 in H.
      change (2 ^ 1) with 2 in H0. split; [nia|lia].
    - rewrite Z.sub_diag, Z.pow_0_r. split; [lia|].
      destruct (Z_lt_le_dec dy dx) as [Hlt|]; [|lia]. exfalso.
      assert (2 ^ dy <= 2 ^ (dx - 1)) by (apply Z.pow_le_mono_r; lia). lia. }
  unfold SFdiv_core_binary.
  change (Zdigits2 (Z.pos mx)) with dx. change (Zdigits2 (Z.pos my)) with dy.
  set (e' := Z.min (fexp prec emax (dx + ex - (dy + ey))) (ex - ey)).
  assert (e' <= -53 /\ e' <= ex - ey) as [He' Hes].
  { subst e'. unfold fexp, SpecFloat.emin, prec, emax. lia. }
  set (s := ex - ey - e').
  assert (0 <= s) as Hs by (subst s; lia).
  set (m' := match s with
             | 0 => Z.pos mx
             | Z.pos _ => Z.shiftl (Z.pos mx) s
             | Z.neg _ => 0
             end).
  assert (m' = Z.pos mx * 2 ^ s) as Em'.
  { subst m'. destruct s as [|p|p] eqn:Es; [cbn; lia| |lia].
    apply Z.shiftl_mul_pow2. lia. }
  assert (0 < 2 ^ s) as Hps by (apply Z.pow_pos_nonneg; lia).
  assert (2 ^ (- e') = 2 ^ s * 2 ^ (ey - ex)) as Hsplit.
  { rewrite <- Z.pow_add_r by lia. f_equal. subst s. lia. }
  assert (m' <= Z.pos my * 2 ^ (- e')) as Hm'.
  { rewrite Em', Hsplit. nia. }
  pose proof (Z.div_eucl_eq m' (Z.pos my) ltac:(lia)) as Hdiv.
  pose proof (Z.mod_pos_bound m' (Z.pos my) ltac:(lia)) as Hmod.
  unfold Z.modulo in Hmod.
  destruct (Z.div_eucl m' (Z.pos my)) as [q r].
  assert (0 <= m') as Hm0 by (rewrite Em'; lia).
  assert (0 <= q) as Hq by nia.
  split; [exact Hq|]. split; [lia|]. split.
  - nia.
  - intros Hl. assert (r <> 0) as Hr.
    { intros ->. apply Hl. unfold new_location, new_location_even,
        new_location_odd. destruct (Z.even (Z.pos my)); reflexivity. }
    nia.
Qed.

Close Scope Z_scope.

Open Scope Z_scope.

Lemma SFleb_finite_le m e k :
  e < -52 \/ (e = -52 /\ Z.pos m <= Z.pos k) ->
  SFleb (S754_finite false m e) (S754_finite false k (-52)) = true.
Proof.
  intros H. unfold SFleb, SFcompare.
  change (PosDef.Pos.compare_cont Eq m k) with (Pos.compare m k).
  destruct H as [Hlt|[-> Hm]].
  - destruct (Z.compare_spec e (-52)); try reflexivity; lia.
  - rewrite Z.compare_refl.
    destruct (Pos.compare_spec m k); try reflexivity; lia.
Qed.

(** The quotient of two positive finite numbers [x <= y] is at most one. *)
Lemma SFdiv_le_one mx ex my ey :
  bounded prec emax mx ex = true -> bounded prec emax my ey = true ->
  SFleb (S754_finite false mx ex) (S754_finite false my ey) = true ->
  SFleb (SFdiv prec emax (S754_finite false mx ex) (S754_finite false my ey))
        one_sf = true.
Proof.
  intros Hbx Hby Hle.
  assert (ex < ey \/ (ex = ey /\ Z.pos mx <= Z.pos my)) as Hord.
  { unfold SFleb, SFcompare in Hle.
    destruct (Z.compare_spec ex ey) as [E|E|E]; [right|now left|discriminate].
    split; [exact E|].
    change (PosDef.Pos.compare_cont Eq mx my) with (Pos.compare mx my) in Hle.
    destruct (Pos.compare_spec mx my); try discriminate; lia. }
  pose proof (div_core_le mx ex my ey Hbx Hby Hord) as Hcore.
  unfold SFdiv.
  destruct (SFdiv_core_binary prec emax (Z.pos mx) ex (Z.pos my) ey)
    as [[q e'] l].
  destruct Hcore as (Hq & He' & Hqle & Hqlt).
  pose proof (binary_round_aux_le_one (xorb false false) q e' l
                Hq He' Hqle Hqlt) as Hr.
  destruct (binary_round_aux prec emax (xorb false false) q e' l)
    as [s|s| |s m e2].
  - subst s. reflexivity.
  - destruct Hr.
  - destruct Hr.
  - cbn [xorb] in Hr. destruct Hr as [-> Hr].
    unfold one_sf. apply SFleb_finite_le.
    destruct Hr as [Hlt|[-> Hm]]; [now left|right].
    split; [reflexivity|]. exact Hm.
Qed.

Lemma div_core_nonneg mx ex my ey :
  0 <= fst (fst (SFdiv_core_binary prec emax (Z.pos mx) ex (Z.pos my) ey)).
Proof.
  unfold SFdiv_core_binary.
  set (s := ex - ey - _).
  set (m' := match s with
             | 0 => Z.pos mx
             | Z.pos _ => Z.shiftl (Z.pos mx) s
             | Z.neg _ => 0
             end).
  assert (0 <= m') as Hm.
  { subst m'. destruct s as [|p|p]; try lia.
    apply Z.shiftl_nonneg. lia. }
  pose proof (Z.div_pos m' (Z.pos my) Hm ltac:(lia)) as Hq.
  unfold Z.div in Hq.
  destruct (Z.div_eucl m' (Z.pos my)) as [q r]. exact Hq.
Qed.

(** The quotient of a negative by a positive finite number is below one. *)
Lemma SFdiv_neg_le_one mx ex my ey :
  SFleb (SFdiv prec emax (S754_finite true mx ex) (S754_finite false my ey))
        one_sf = true.
Proof.
  unfold SFdiv.
  pose proof (div_core_nonneg mx ex my ey) as Hq.
  destruct (SFdiv_core_binary prec emax (Z.pos mx) ex (Z.pos my) ey)
    as [[q e'] l]. cbn [fst] in Hq.
  pose proof (binary_round_aux_sign (xorb true false) q e' l Hq) as Hr.
  destruct (binary_round_aux prec emax (xorb true false) q e' l)
    as [s|s| |s m e2]; cbn [xorb] in Hr; try subst s; try reflexivity.
  destruct Hr.
Qed.

Close Scope Z_scope.

Lemma SFeqb_finite_eq f k e0 :
  SFeqb f (S754_finite false k e0) = true -> f = S754_finite false k e0.
Proof.
  unfold SFeqb, SFcompare.
  destruct f as [s|s| |s m e]; try discriminate;
    try (destruct s; discriminate).
  destruct s; [discriminate|].
  destruct (Z.compare_spec e e0) as [->|H|H]; try discriminate.
  change (PosDef.Pos.compare_cont Eq m k) with (Pos.compare m k).
  destruct (Pos.compare_spec m k) as [->|H|H]; try discriminate.
  reflexivity.
Qed.

Lemma SFeqb_one f : SFeqb f one_sf = true -> f = one_sf.
Proof. apply SFeqb_finite_eq. Qed.

Lemma eqb_one x : PrimFloat.eqb x 1 = true -> x = 1%float.
Proof.
  rewrite FloatAxioms.eqb_spec. change (Prim2SF 1) with one_sf.
  intros H. apply SFeqb_one in H. apply FloatAxioms.Prim2SF_inj.
  rewrite H. reflexivity.
Qed.

Lemma positive_finite_Prim2SF m :
  is_finite m = true -> PrimFloat.ltb 0 m = true ->
  exists mm em, Prim2SF m = S754_finite false mm em /\
                bounded prec emax mm em = true.
Proof.
  intros Hf Hp. pose proof (FloatAxioms.Prim2SF_valid m) as Hv.
  unfold is_finite, is_nan, is_infinity in Hf.
  rewrite !FloatAxioms.eqb_spec, FloatAxioms.abs_spec in Hf.
  rewrite FloatAxioms.ltb_spec in Hp.
  change (Prim2SF 0) with (S754_zero false) in Hp.
  change (Prim2SF infinity) with (S754_infinity false) in Hf.
  destruct (Prim2SF m) as [sm|sm| |sm mm em]; try discriminate Hp.
  - destruct sm; discriminate.
  - destruct sm; [discriminate Hp|]. now exists mm, em.
Qed.

Lemma positive_not_zero m :
  PrimFloat.ltb 0 m = true -> PrimFloat.eqb m 0 = false.
Proof.
  intros Hp. destruct (PrimFloat.eqb m 0) eqn:E; [|reflexivity].
  apply ltb_fcompare in Hp. apply eqb_fcompare in E.
  rewrite (fcompare_antisym 0 m), Hp in E. discriminate E.
Qed.

(** Whatever is at most a positive finite number gives at most one when it is
    divided by it. *)
Lemma div_le_one x m :
  PrimFloat.leb x m = true ->
  is_finite m = true -> PrimFloat.ltb 0 m = true ->
  PrimFloat.leb (PrimFloat.div x m) 1 = true.
Proof.
  intros Hle Hf Hp.
  destruct (positive_finite_Prim2SF m Hf Hp) as (mm & em & Em & Hbm).
  pose proof (FloatAxioms.Prim2SF_valid x) as Hvx.
  rewrite FloatAxioms.leb_spec in *. rewrite FloatAxioms.div_spec.
  change (Prim2SF 1) with one_sf. rewrite Em in *. unfold SF64div.
  destruct (Prim2SF x) as [sx|sx| |sx mx ex].
  - reflexivity.
  - destruct sx; [reflexivity|discriminate Hle].
  - discriminate Hle.
  - destruct sx.
    + apply SFdiv_neg_le_one.
    + now apply SFdiv_le_one.
Qed.

Lemma leb_refl x : is_nan x = false -> PrimFloat.leb x x = true.
Proof.
  unfold is_nan. intros H. apply negb_false_iff in H.
  apply leb_fcompare. right. now apply eqb_fcompare.
Qed.

Lemma ltb_leb x y : PrimFloat.ltb x y = true -> PrimFloat.leb x y = true.
Proof. intros H. apply leb_fcompare. left. now apply ltb_fcompare. Qed.

Lemma leb_antisym_eqb x y :
  PrimFloat.leb x y = true -> PrimFloat.leb y x = true ->
  PrimFloat.eqb x y = true.
Proof.
  rewrite !leb_fcompare, eqb_fcompare, (fcompare_antisym x y).
  intros [H|H] [H'|H']; rewrite H in H'; try discriminate H'; exact H.
Qed.

(** [np.max] of numbers is one of them, and none of them is above it. *)
Lemma fold_maximum_spec ys y0 :
  (forall y, y ∈ y0 :: ys -> is_nan y = false) ->
  fold_left np.maximum ys y0 ∈ y0 :: ys /\
  forall y, y ∈ y0 :: ys ->
            PrimFloat.leb y (fold_left np.maximum ys y0) = true.
Proof.
  revert y0. induction ys as [|y1 ys IH]; intros y0 Hn.
  - cbn. split; [apply list_elem_of_here|].
    intros y Hy. apply list_elem_of_singleton in Hy. subst y.
    apply leb_refl. apply Hn. apply list_elem_of_here.
  - cbn [fold_left].
    assert (is_nan y0 = false) as N0 by (apply Hn; apply list_elem_of_here).
    assert (is_nan y1 = false) as N1
      by (apply Hn; apply list_elem_of_further, list_elem_of_here).
    set (a := np.maximum y0 y1).
    assert ((a = y0 \/ a = y1) /\ PrimFloat.leb y0 a = true
            /\ PrimFloat.leb y1 a = true) as (Ha & L0 & L1).
    { subst a. unfold np.maximum. rewrite N0, N1.
      destruct (PrimFloat.ltb y0 y1) eqn:E.
      - split; [now right|]. split; [now apply ltb_leb|now apply leb_refl].
      - split; [now left|]. split; [now apply leb_refl|].
        now apply not_ltb_leb. }
    destruct (IH a) as [Hin Hmax].
    { intros y Hy. apply elem_of_cons in Hy. destruct Hy as [->|Hy].
      - destruct Ha as [-> | ->]; assumption.
      - apply Hn. now apply list_elem_of_further, list_elem_of_further. }
    split.
    + apply elem_of_cons in Hin. destruct Hin as [Hin|Hin].
      * rewrite Hin. destruct Ha as [-> | ->];
          [apply list_elem_of_here
          |apply list_elem_of_further, list_elem_of_here].
      * now apply list_elem_of_further, list_elem_of_further.
    + intros y Hy.
      assert (PrimFloat.leb a (fold_left np.maximum ys a) = true) as La
        by (apply Hmax; apply list_elem_of_here).
      apply elem_of_cons in Hy. destruct Hy as [->|Hy].
      { eapply leb_trans; eassumption. }
      apply elem_of_cons in Hy. destruct Hy as [->|Hy].
      { eapply leb_trans; eassumption. }
      apply Hmax. now apply list_elem_of_further.
Qed.

(** X30: when the normalization region is the whole flux (at most one bound
    is given), no flux value is NaN and the maximum of the flux is positive
    and finite, [normalize_spectrum] with method [peak] returns; every flux
    value of the result is the old one divided by that maximum, none is
    above [1.0], and the maximum of the result is exactly [1.0]. *)
Theorem peak_normalization_maximum_is_one :
  forall w s xs ys d p range_min range_max peak,
    holds w s xs ys d p -> length xs = length ys ->
    range_min = None \/ range_max = None ->
    (forall y, y ∈ ys -> is_nan y = false) ->
    np.max ys = Ok peak ->
    is_finite peak = true -> PrimFloat.ltb 0 peak = true ->
    exists r w' zs,
      normalize_spectrum s "peak" range_min range_max w = (Ok r, w') /\
      heap w' !! flux r = Some (OArr zs) /\
      zs = (fun y => PrimFloat.div y peak) <$> ys /\
      np.max zs = Ok 1%float /\
      (forall z, z ∈ zs -> PrimFloat.leb z 1 = true).
Proof.
  intros w s xs ys d p range_min range_max peak Hs Hlen Hb Hn Hmax Hf Hp.
  assert (flux_region_of xs ys range_min range_max = Ok ys) as Hreg.
  { unfold flux_region_of.
    destruct Hb as [-> | ->]; [|destruct range_min]; reflexivity. }
  pose proof (positive_not_zero peak Hp) as Hz.
  destruct (normalize_spectrum_run w s xs ys d p "peak" range_min range_max
              ys peak Hs Hlen Hreg Hmax Hz) as (r & w' & Hrun & Hr).
  exists r, w', ((fun y => PrimFloat.div y peak) <$> ys).
  split; [exact Hrun|]. split; [apply Hr|]. split; [reflexivity|].
  destruct ys as [|y0 ys]; [discriminate Hmax|].
  cbn [np.max] in Hmax. injection Hmax as Hmax.
  destruct (fold_maximum_spec ys y0 Hn) as [Hin Hall].
  rewrite Hmax in Hin, Hall.
  assert (forall z, z ∈ (fun y => PrimFloat.div y peak) <$> (y0 :: ys) ->
                    PrimFloat.leb z 1 = true) as Hle.
  { intros z Hz'. apply list_elem_of_fmap in Hz'.
    destruct Hz' as (y & -> & Hy). apply div_le_one; auto. }
  split; [|exact Hle].
  rewrite fmap_cons in *. cbn [np.max]. f_equal.
  destruct (fold_maximum_spec ((fun y => PrimFloat.div y peak) <$> ys)
              (PrimFloat.div y0 peak)) as [Hin' Hall'].
  { intros z Hz'. apply Hle in Hz'. now apply leb_not_nan in Hz'. }
  apply eqb_one. apply leb_antisym_eqb.
  - now apply Hle.
  - apply Hall'.
    change (1%float ∈ (fun y => PrimFloat.div y peak) <$> (y0 :: ys)).
    apply list_elem_of_fmap. exists peak. split; [|exact Hin].
    rewrite (div_self peak Hz), Hf. reflexivity.
Qed.

Lemma peak_normalization_maximum_is_one_witness :
  exists r w',
    normalize_spectrum sample_spectrum "peak" None None sample_world
    = (Ok r, w') /\
    heap w' !! flux r
    = Some (OArr ((fun y => y / 50)%float <$> [10; 20; 30; 40; 50]%float)) /\
    np.max ((fun y => y / 50)%float <$> [10; 20; 30; 40; 50]%float)
    = Ok 1%float.
Proof.
  destruct (peak_normalization_maximum_is_one sample_world sample_spectrum
              [1; 2; 3; 4; 5]%float [10; 20; 30; 40; 50]%float ∅
              [created_record 0] None None 50%float)
    as (r & w' & zs & Hrun & Hzs & -> & Hmax & _);
    [repeat split; reflexivity|reflexivity|now left| |reflexivity
    |reflexivity|reflexivity|].
  - intros y Hy.
    repeat (apply elem_of_cons in Hy; destruct Hy as [->|Hy];
            [reflexivity|]).
    now apply elem_of_nil in Hy.
  - now exists r, w'.
Defined.

(** * The interval search of [np.interp] *)

Lemma increasing_lt xp i j a b :
  increasing xp -> xp !! i = Some a -> xp !! j = Some b -> i < j ->
  PrimFloat.ltb a b = true.
Proof.
  intros [_ Hadj]. revert b. induction j as [|j IH]; intros b Ha Hb Hij;
    [lia|].
  destruct (decide (i = j)) as [->|Hne].
  - eapply Hadj; eassumption.
  - destruct (lookup_lt_is_Some_2 xp j) as [c Hc].
    { apply lookup_lt_Some in Hb. lia. }
    eapply ltb_trans; [apply (IH c); [assumption|assumption|lia]|].
    eapply Hadj; eassumption.
Qed.

Lemma bisect_S steps key arr imin imax :
  np.bisect (S steps) key arr imin imax
  = if (imin <? imax)%Z then
      let imid := (imin + Z.shiftr (imax - imin) 1)%Z in
      if PrimFloat.leb (np.item arr imid) key
      then np.bisect steps key arr (imid + 1)%Z imax
      else np.bisect steps key arr imin imid
    else (imin - 1)%Z.
Proof. reflexivity. Qed.

Lemma midpoint imin imax :
  (imin < imax)%Z ->
  (imin <= imin + Z.shiftr (imax - imin) 1 < imax)%Z.
Proof.
  intros H. rewrite Z.shiftr_div_pow2 by lia. change (2 ^ 1)%Z with 2%Z.
  pose proof (Z.div_mod (imax - imin) 2 ltac:(lia)) as E.
  pose proof (Z.mod_pos_bound (imax - imin) 2 ltac:(lia)) as B. lia.
Qed.

(** Every step of the bisection shrinks [imax - imin], so the steps never
    run out: any number of them from [imax - imin] on gives the same
    index. *)
Lemma bisect_steps steps :
  forall key arr imin imax steps',
    (imax - imin <= Z.of_nat steps)%Z -> steps <= steps' ->
    np.bisect steps' key arr imin imax = np.bisect steps key arr imin imax.
Proof.
  induction steps as [|n IH]; intros key arr imin imax steps' Hd Hs.
  - destruct steps' as [|m]; [reflexivity|]. rewrite bisect_S.
    replace (imin <? imax)%Z with false; [reflexivity|].
    symmetry. apply Z.ltb_ge. lia.
  - destruct steps' as [|m]; [lia|]. rewrite !bisect_S.
    destruct (imin <? imax)%Z eqn:Hlt; [|reflexivity].
    apply Z.ltb_lt in Hlt. pose proof (midpoint _ _ Hlt) as Hmid.
    cbn zeta. destruct (PrimFloat.leb _ key); apply IH; lia.
Qed.

Lemma item_lookup (arr : list float) i :
  (0 <= i < Z.of_nat (length arr))%Z ->
  arr !! Z.to_nat i = Some (np.item arr i).
Proof.
  intros Hi. unfold np.item.
  destruct (lookup_lt_is_Some_2 arr (Z.to_nat i) ltac:(lia)) as [a Ha].
  rewrite Ha. f_equal. symmetry. now apply nth_lookup_Some.
Qed.

Lemma leb_ltb_absurd a x :
  PrimFloat.leb a x = true -> PrimFloat.ltb x a = true -> False.
Proof.
  intros Hle Hlt. pose proof (ltb_leb_trans _ _ _ Hlt Hle) as H.
  now rewrite ltb_irrefl in H.
Qed.

Section Search.

Variable xp : list float.
Variable x : float.
Hypothesis Hinc : increasing xp.
Hypothesis Hx : is_nan x = false.

Local Abbreviation len := (Z.of_nat (length xp)).

Lemma item_number i : (0 <= i < len)%Z -> is_nan (np.item xp i) = false.
Proof using Hinc.
  intros Hi. destruct Hinc as [Hnn _]. apply Hnn.
  eapply list_elem_of_lookup_2, item_lookup. exact Hi.
Qed.

Lemma item_lt i j :
  (0 <= i < j)%Z -> (j < len)%Z ->
  PrimFloat.ltb (np.item xp i) (np.item xp j) = true.
Proof using Hinc.
  intros Hi Hj.
  eapply (increasing_lt xp (Z.to_nat i) (Z.to_nat j)); try exact Hinc.
  - apply item_lookup.  lia.
  - apply item_lookup.  lia.
  - lia.
Qed.

(** [x] lies in the interval that starts at the sample point [j]:
    [xp[j] <= x < xp[j + 1]], or [xp[j] <= x] at the last sample point. *)
Definition inside (j : Z) : Prop :=
  (0 <= j < len)%Z /\ PrimFloat.leb (np.item xp j) x = true /\
  ((j < len - 1)%Z -> PrimFloat.ltb x (np.item xp (j + 1)) = true).

(** What the search finds: [len] above the last sample point, [-1] below the
    first one, and otherwise the interval of [x]. *)
Definition found (j : Z) : Prop :=
  (j = len /\ PrimFloat.ltb (np.item xp (len - 1)) x = true) \/
  (j = (-1)%Z /\ PrimFloat.ltb x (np.item xp 0) = true) \/
  (PrimFloat.ltb (np.item xp (len - 1)) x = false /\ inside j).

Lemma linear_search_spec rest :
  forall i,
    (1 <= i)%Z -> rest = drop (Z.to_nat i) xp -> (i <= len)%Z ->
    PrimFloat.leb (np.item xp (i - 1)) x = true ->
    inside (np.linear_search x rest i).
Proof using Hinc Hx.
  unfold inside.
  induction rest as [|a rest IH]; intros i Hi Hrest Hlen Hle.
  - cbn [np.linear_search].
    assert (i = len) as ->.
    { apply (f_equal length) in Hrest. rewrite length_drop in Hrest.
      cbn in Hrest. lia. }
    split; [lia|]. split; [exact Hle|]. lia.
  - cbn [np.linear_search].
    assert (xp !! Z.to_nat i = Some a) as Ha.
    { rewrite <- (Nat.add_0_r (Z.to_nat i)), <- lookup_drop, <- Hrest.
      reflexivity. }
    assert (i < len)%Z as Hin.
    { apply lookup_lt_Some in Ha. lia. }
    assert (a = np.item xp i) as ->.
    { rewrite item_lookup in Ha by lia. congruence. }
    destruct (PrimFloat.leb (np.item xp i) x) eqn:Hk.
    + apply IH; try lia.
      * rewrite (drop_S _ _ _ Ha) in Hrest. injection Hrest as ->.
        f_equal. lia.
      * now replace (i + 1 - 1)%Z with i by lia.
    + split; [lia|]. split; [exact Hle|]. intros _.
      replace (i - 1 + 1)%Z with i by lia.
      apply not_leb_ltb; [apply item_number; lia|exact Hx|exact Hk].
Qed.

Lemma bisect_spec steps :
  forall imin imax,
    (0 <= imin <= imax)%Z -> (imax <= len)%Z -> (0 < len)%Z ->
    (imax - imin <= Z.of_nat steps)%Z ->
    imin = 0%Z \/ PrimFloat.leb (np.item xp (imin - 1)) x = true ->
    imax = len \/ PrimFloat.ltb x (np.item xp imax) = true ->
    PrimFloat.leb (np.item xp 0) x = true ->
    inside (np.bisect steps x xp imin imax).
Proof using Hinc Hx.
  assert (forall m, (0 <= m <= len)%Z -> (0 < len)%Z ->
            m = 0%Z \/ PrimFloat.leb (np.item xp (m - 1)) x = true ->
            m = len \/ PrimFloat.ltb x (np.item xp m) = true ->
            PrimFloat.leb (np.item xp 0) x = true ->
            inside (m - 1)) as Hend.
  { intros m Hm Hl Hlo Hhi H0.
    assert (m <> 0%Z) as Hm0.
    { intros ->. destruct Hhi as [Hhi|Hhi]; [lia|].
      exact (leb_ltb_absurd _ _ H0 Hhi). }
    destruct Hlo as [Hlo|Hlo]; [easy|].
    split; [lia|]. split; [exact Hlo|]. intros Hlt.
    replace (m - 1 + 1)%Z with m by lia.
    destruct Hhi as [Hhi|Hhi]; [lia|exact Hhi]. }
  induction steps as [|n IH]; intros imin imax Hr Hmax Hl Hd Hlo Hhi H0.
  - cbn [np.bisect]. assert (imax = imin) as -> by lia.
    now apply Hend.
  - rewrite bisect_S. destruct (imin <? imax)%Z eqn:Hlt.
    + apply Z.ltb_lt in Hlt. pose proof (midpoint _ _ Hlt) as Hmid. cbn zeta.
      set (imid := (imin + Z.shiftr (imax - imin) 1)%Z) in *.
      destruct (PrimFloat.leb (np.item xp imid) x) eqn:Hk.
      * apply IH; try lia; try assumption. right.
        now replace (imid + 1 - 1)%Z with imid by lia.
      * apply IH; try lia; try assumption. right.
        apply not_leb_ltb; [apply item_number; lia|exact Hx|exact Hk].
    + apply Z.ltb_ge in Hlt. assert (imax = imin) as -> by lia.
      now apply Hend.
Qed.

(** On increasing sample points the search finds the interval of [x],
    whatever the guess. *)
Lemma binary_search_found guess :
  xp <> [] -> found (np.binary_search_with_guess x xp guess).
Proof using Hinc Hx.
  intros Hne.
  assert (0 < len)%Z as Hl.
  { destruct xp; [easy|]. cbn [length]. lia. }
  unfold np.binary_search_with_guess. 
  destruct (PrimFloat.ltb (np.item xp (len - 1)) x) eqn:Hhi.
  { left. easy. }
  destruct (PrimFloat.ltb x (np.item xp 0)) eqn:Hlo.
  { right. left. easy. }
  right. right. split; [exact Hhi|].
  assert (PrimFloat.leb (np.item xp 0) x = true) as H0.
  { apply not_ltb_leb; [exact Hx|apply item_number; lia|exact Hlo]. }
  assert (forall j, (0 <= j < len)%Z ->
            PrimFloat.ltb x (np.item xp j) = false ->
            PrimFloat.leb (np.item xp j) x = true) as Hge.
  { intros j Hj Hn. apply not_ltb_leb;
      [exact Hx|apply item_number; lia|exact Hn]. }
  destruct (len <=? 4)%Z eqn:Hsmall.
  { apply linear_search_spec; try lia; try assumption. now destruct xp. }
  apply Z.leb_gt in Hsmall.
  set (g1 := if (len - 3 <? guess)%Z then (len - 3)%Z else guess).
  set (g := if (g1 <? 1)%Z then 1%Z else g1).
  assert (1 <= g <= len - 3)%Z as Hg.
  { unfold g, g1. destruct (Z.ltb_spec (len - 3) guess);
      [destruct (Z.ltb_spec (len - 3) 1)
      |destruct (Z.ltb_spec guess 1)]; lia. }
  clearbody g. clear g1.
  cbn zeta. unfold np.LIKELY_IN_CACHE_SIZE.
  destruct (PrimFloat.ltb x (np.item xp g)) eqn:Hkg.
  - destruct (PrimFloat.ltb x (np.item xp (g - 1))) eqn:Hkg1.
    + set (imin := if (8 <? g)%Z && PrimFloat.leb (np.item xp (g - 8)) x
                   then (g - 8)%Z else 0%Z).
      assert ((0 <= imin <= g - 1)%Z /\
              (imin = 0%Z
               \/ PrimFloat.leb (np.item xp (imin - 1)) x = true))
        as [Hb Hlo'].
      { unfold imin. destruct (Z.ltb_spec 8 g); cbn [andb];
          [|split; [lia|now left]].
        destruct (PrimFloat.leb (np.item xp (g - 8)) x) eqn:Hk;
          [|split; [lia|now left]].
        split; [lia|]. right. eapply leb_trans; [|exact Hk].
        apply ltb_leb, item_lt; lia. }
      clearbody imin.
      apply bisect_spec; try lia; try assumption. now right.
    + split; [lia|]. split; [apply Hge; [lia|exact Hkg1]|].
      intros _. now replace (g - 1 + 1)%Z with g by lia.
  - destruct (PrimFloat.ltb x (np.item xp (g + 1))) eqn:Hkg1.
    { split; [lia|]. split; [apply Hge; [lia|exact Hkg]|]. now intros _. }
    destruct (PrimFloat.ltb x (np.item xp (g + 2))) eqn:Hkg2.
    { split; [lia|]. split; [apply Hge; [lia|exact Hkg1]|]. intros _.
      now replace (g + 1 + 1)%Z with (g + 2)%Z by lia. }
    set (imax := if (g <? len - 8 - 1)%Z
                    && PrimFloat.ltb x (np.item xp (g + 8))
                 then (g + 8)%Z else len).
    assert ((g + 2 <= imax <= len)%Z /\
            (imax = len \/ PrimFloat.ltb x (np.item xp imax) = true))
      as [Hb Hhi'].
    { unfold imax. destruct (Z.ltb_spec g (len - 8 - 1)); cbn [andb];
        [|split; [lia|now left]].
      destruct (PrimFloat.ltb x (np.item xp (g + 8))) eqn:Hk;
        [split; [lia|now right]|split; [lia|now left]]. }
    clearbody imax.
    apply bisect_spec; try lia; try assumption.
    right. replace (g + 2 - 1)%Z with (g + 1)%Z by lia.
    apply Hge; [lia|exact Hkg1].
Qed.

End Search.

(** * Interpolation *)

Lemma lerp_on_line xj yj xk yk x :
  on_line xj yj xk yk x (np.lerp xj yj xk yk x).
Proof.
  unfold np.lerp. cbn zeta.
  change ((yk - yj) / (xk - xj) * (x - xj) + yj)%float
    with (line_at xj yj xk yk xj yj x).
  change ((yk - yj) / (xk - xj) * (x - xk) + yk)%float
    with (line_at xj yj xk yk xk yk x).
  destruct (is_nan (line_at xj yj xk yk xj yj x)) eqn:Hl;
    [|now apply line_left].
  destruct (is_nan (line_at xj yj xk yk xk yk x)) eqn:Hr; cbn [andb].
  - destruct (PrimFloat.eqb yj yk) eqn:He.
    + now apply line_level.
    + apply line_right; [exact Hl|now right].
  - apply line_right; [exact Hl|now left].
Qed.

Section Interpolation.

Variables xp fp : list float.
Hypothesis Hne : xp <> [].
Hypothesis Hlen : length fp = length xp.
Hypothesis Hinc : increasing xp.

Local Abbreviation len := (Z.of_nat (length xp)).

Lemma interp_value_spec x j :
  is_nan x = false -> found xp x j ->
  interpolates xp fp x (np.interp_value xp fp x j).
Proof using Hne Hlen Hinc.
  intros Hx Hf.
  assert (0 < len)%Z as Hl by (destruct xp; [easy|cbn [length]; lia]).
  assert (forall i, (0 <= i < len)%Z ->
            fp !! Z.to_nat i = Some (np.item fp i)) as Hfp.
  { intros i Hi. apply item_lookup. lia. }
  unfold np.interp_value.
  destruct Hf as [[-> Hhi]|[[-> Hlo]|[Hhi (Hj & Hle & Hlt)]]].
  - replace (len =? -1)%Z with false by (symmetry; apply Z.eqb_neq; lia).
    rewrite Z.eqb_refl. apply interp_above.
    + intros a Ha. apply list_elem_of_lookup in Ha. destruct Ha as [i Hi].
      pose proof (lookup_lt_Some _ _ _ Hi) as Hb.
      rewrite <- (Nat2Z.id i), item_lookup in Hi by lia.
      injection Hi as <-.
      destruct (decide (Z.of_nat i = len - 1)%Z) as [->|Hn]; [exact Hhi|].
      eapply ltb_trans; [|exact Hhi]. apply item_lt; [exact Hinc|lia|lia].
    + rewrite <- (Hfp (len - 1)%Z) by lia. f_equal. lia.
  - cbn [Z.eqb]. apply interp_below.
    + intros a Ha. apply list_elem_of_lookup in Ha. destruct Ha as [i Hi].
      pose proof (lookup_lt_Some _ _ _ Hi) as Hb.
      rewrite <- (Nat2Z.id i), item_lookup in Hi by lia.
      injection Hi as <-.
      destruct (decide (Z.of_nat i = 0)%Z) as [->|Hn]; [exact Hlo|].
      eapply ltb_trans; [exact Hlo|]. apply item_lt; [exact Hinc|lia|lia].
    + exact (Hfp 0%Z ltac:(lia)).
  - replace (j =? -1)%Z with false by (symmetry; apply Z.eqb_neq; lia).
    replace (j =? len)%Z with false by (symmetry; apply Z.eqb_neq; lia).
    pose proof (item_lookup xp j ltac:(lia)) as Hxj.
    destruct (Z.eqb_spec j (len - 1)) as [->|Hnl].
    + eapply interp_knot; [exact Hxj|apply Hfp; lia|].
      now apply leb_not_ltb_eqb.
    + destruct (PrimFloat.eqb (np.item xp j) x) eqn:He.
      * eapply interp_knot; [exact Hxj|apply Hfp; lia|exact He].
      * assert (Z.to_nat (j + 1) = S (Z.to_nat j)) as Hs by lia.
        eapply (interp_between _ _ _ (Z.to_nat j)).
        -- exact Hxj.
        -- rewrite <- Hs. apply item_lookup. lia.
        -- apply Hfp. lia.
        -- rewrite <- Hs. apply Hfp. lia.
        -- left. split; [now apply leb_not_eqb_ltb|apply Hlt; lia].
        -- apply lerp_on_line.
Qed.

Lemma interp_loop_length xs : forall j,
  length (np.interp_loop xp fp j xs) = length xs.
Proof using Type.
  induction xs as [|x xs IH]; intros j; [reflexivity|]. cbn [np.interp_loop].
  destruct (is_nan x); cbn [length]; now rewrite IH.
Qed.

Lemma interp_loop_spec xs :
  forall j i x,
    xs !! i = Some x -> is_nan x = false ->
    exists v, np.interp_loop xp fp j xs !! i = Some v
              /\ interpolates xp fp x v.
Proof using Hne Hlen Hinc.
  induction xs as [|x0 xs IH]; intros j i x Hi Hx; [discriminate|].
  cbn [np.interp_loop]. destruct i as [|i].
  - injection Hi as ->. rewrite Hx. eexists. split; [reflexivity|].
    apply interp_value_spec; [exact Hx|].
    now apply binary_search_found.
  - destruct (is_nan x0); cbn; now apply IH.
Qed.

End Interpolation.

(** On an increasing grid [np.interp] gives the piecewise-linear interpolant
    at every point that is a number, with the edge values outside the
    grid. *)
Lemma interp_interpolates xs xp fp :
  xp <> [] -> length fp = length xp -> increasing xp ->
  exists zs,
    np.interp xs xp fp = Ok zs /\ length zs = length xs /\
    forall i x, xs !! i = Some x -> is_nan x = false ->
      exists v, zs !! i = Some v /\ interpolates xp fp x v.
Proof.
  intros Hne Hlen Hinc.
  unfold np.interp. destruct xp as [|x0 xp'] eqn:E; [easy|].
  rewrite Hlen, Nat.eqb_refl. destruct xp' as [|x1 xp''].
  - eexists. split; [reflexivity|]. split; [now rewrite length_fmap|].
    intros i x Hi Hx. rewrite list_lookup_fmap, Hi.
    cbn [fmap option_fmap option_map].
    eexists. split; [reflexivity|].
    destruct fp as [|y0 [|? ?]]; try discriminate.
    change (np.item [y0] 0) with y0.
    assert (is_nan x0 = false) as Hx0.
    { destruct Hinc as [Hnn _]. apply Hnn. left. }
    assert (interpolates [x0] [y0] x y0) as Hres.
    { destruct (float_trichotomy x x0 Hx Hx0) as [H|[H|H]].
      - apply interp_below; [|reflexivity].
        intros a Ha. apply list_elem_of_singleton in Ha. now subst.
      - eapply (interp_knot _ _ _ 0); try reflexivity.
        apply eqb_fcompare. apply eqb_fcompare in H.
        rewrite (fcompare_antisym x x0), H. reflexivity.
      - apply interp_above; [|reflexivity].
        intros a Ha. apply list_elem_of_singleton in Ha. now subst. }
    destruct (PrimFloat.ltb x x0); [exact Hres|].
    destruct (PrimFloat.ltb x0 x); exact Hres.
  - rewrite <- E in *. eexists. split; [reflexivity|].
    split; [apply interp_loop_length|]. intros i x Hi Hx.
    now apply interp_loop_spec.
Qed.

(** * Subtraction with interpolation *)

Lemma align_flux_interpolated w a b awl bwl bfl zs :
  heap w !! wavelength a = Some (OArr awl) ->
  heap w !! wavelength b = Some (OArr bwl) ->
  heap w !! flux b = Some (OArr bfl) ->
  np.array_equal awl bwl = false ->
  np.interp awl bwl bfl = Ok zs ->
  align_flux a b true w = (Ok zs, w).
Proof.
  intros Ha Hb Hf Heq Hzs. unfold align_flux. do 2 mstep.
  rewrite Heq. cbn [andb negb]. mstep.
  unfold lift. now rewrite Hzs.
Qed.

Lemma subtract_spectra_interp_run w a b awl afl ad ap bwl bfl bd bp zs :
  holds w a awl afl ad ap -> holds w b bwl bfl bd bp ->
  length afl = length awl ->
  np.array_equal awl bwl = false ->
  np.interp awl bwl bfl = Ok zs -> length zs = length awl ->
  exists r w',
    subtract_spectra a b true w = (Ok r, w') /\
    heap w' !! wavelength r = Some (OArr awl) /\
    heap w' !! flux r = Some (OArr (zip_with PrimFloat.sub afl zs)).
Proof.
  intros Ha Hb Hla Heq Hzs Hlz.
  destruct (finish_run w a awl afl ad ap (zip_with PrimFloat.sub afl zs)
              (wavelength_unit a) (flux_unit a) None "subtraction"
              [("operand", VStr (name_or_unnamed (name b)));
               ("interpolated", VBool true)] Ha)
    as (r & w' & Hrun & Hfl & Hwl & _).
  { rewrite length_zip_with. lia. }
  exists r, w'. split; [|easy].
  destruct Ha as (Hawl & Hafl & _). destruct Hb as (Hbwl & Hbfl & _).
  unfold subtract_spectra.
  erewrite bind_ok by (eapply align_flux_interpolated; eassumption).
  mstep.
  erewrite bind_ok; cycle 1.
  { unfold lift, np.sub, np.broadcast2.
    rewrite Hlz, Hla, Nat.eqb_refl. reflexivity. }
  exact Hrun.
Qed.

Lemma increasingb_correct xp : increasingb xp = true -> increasing xp.
Proof.
  induction xp as [|a tl IH]; intros H.
  - split; [intros x Hx; now apply elem_of_nil in Hx|].
    intros i x y Hx. discriminate.
  - cbn [increasingb] in H. destruct tl as [|b tl'].
    + apply negb_true_iff in H. split.
      * intros x Hx. apply list_elem_of_singleton in Hx. now subst.
      * intros [|i] x y Hx Hy; discriminate.
    + apply andb_true_iff in H. destruct H as [Hab Htl].
      destruct (IH Htl) as [Hnn Hadj]. split.
      * intros x Hx. apply elem_of_cons in Hx. destruct Hx as [->|Hx].
        -- now apply ltb_not_nan in Hab.
        -- now apply Hnn.
      * intros [|i] x y Hx Hy.
        -- cbn in Hx, Hy. congruence.
        -- apply (Hadj i); assumption.
Qed.

(** Where the grid of [b] is strictly increasing, the code interpolates as
    its docstring says: when the grids differ and [b] has at least one sample,
    [subtract_spectra(a, b, interpolate=True)] returns a spectrum on the grid
    of [a] whose flux at each grid point that is a number is the flux of [a]
    minus the flux of [b] piecewise-linearly interpolated at that point, with
    the nearest edge value of [b] for points below or above all of its
    samples. *)
Lemma subtraction_interpolates_on_increasing_grid :
  forall w a b awl afl ad ap bwl bfl bd bp,
    holds w a awl afl ad ap -> holds w b bwl bfl bd bp ->
    length afl = length awl -> length bfl = length bwl ->
    np.array_equal awl bwl = false ->
    bwl <> [] -> increasing bwl ->
    exists r w' zs,
      subtract_spectra a b true w = (Ok r, w') /\
      heap w' !! wavelength r = Some (OArr awl) /\
      heap w' !! flux r = Some (OArr zs) /\
      length zs = length awl /\
      forall i x y,
        awl !! i = Some x -> afl !! i = Some y -> is_nan x = false ->
        exists v, interpolates bwl bfl x v /\
                  zs !! i = Some (PrimFloat.sub y v).
Proof.
  intros w a b awl afl ad ap bwl bfl bd bp Ha Hb Hla Hlb Heq Hne Hinc.
  destruct (interp_interpolates awl bwl bfl Hne Hlb Hinc)
    as (vs & Hvs & Hlv & Hpt).
  destruct (subtract_spectra_interp_run w a b _ _ _ _ _ _ _ _ _
              Ha Hb Hla Heq Hvs Hlv) as (r & w' & Hrun & Hwl & Hfl).
  exists r, w', (zip_with PrimFloat.sub afl vs).
  split; [exact Hrun|]. split; [exact Hwl|]. split; [exact Hfl|]. split.
  { rewrite length_zip_with. lia. }
  intros i x y Hx Hy Hnan.
  destruct (Hpt i x Hx Hnan) as (v & Hv & Hint).
  exists v. split; [exact Hint|].
  now rewrite lookup_zip_with, Hy, Hv.
Qed.

(** A two-point spectrum and an operand on a rising grid. *)
Definition rising_world : world :=
  World [OArr [1.5; 5]%float; OArr [100; 100]%float; ODict ∅;
         OList [created_record 0];
         OArr [1; 2; 3]%float; OArr [10; 20; 40]%float; ODict ∅;
         OList [created_record 2]] 4.

Lemma subtraction_on_a_rising_grid :
  exists r w' zs,
    subtract_spectra star sky true rising_world = (Ok r, w') /\
    heap w' !! flux r = Some (OArr zs) /\
    exists v, interpolates [1; 2; 3]%float [10; 20; 40]%float 1.5 v /\
              zs !! 0 = Some (PrimFloat.sub 100 v).
Proof.
  destruct (subtraction_interpolates_on_increasing_grid rising_world
              star sky [1.5; 5]%float [100; 100]%float ∅
              [created_record 0] [1; 2; 3]%float [10; 20; 40]%float ∅
              [created_record 2])
    as (r & w' & zs & Hrun & _ & Hz & _ & Hpt);
    [repeat split; reflexivity|repeat split; reflexivity|reflexivity
    |reflexivity|reflexivity|discriminate
    |apply increasingb_correct; vm_compute; reflexivity|].
  exists r, w', zs. split; [exact Hrun|]. split; [exact Hz|].
  apply (Hpt 0 1.5%float 100%float); reflexivity.
Qed.

(** The same spectrum and an operand without samples (an empty
    [get_range], say): [np.interp] raises. *)
Definition empty_world : world :=
  World [OArr [1.5; 5]%float; OArr [100; 100]%float; ODict ∅;
         OList [created_record 0];
         OArr []; OArr []; ODict ∅; OList [created_record 2]] 4.

Lemma subtraction_of_no_samples :
  exists w',
    subtract_spectra star sky true empty_world
    = (Raise (ValueError "array of sample points is empty"), w').
Proof. eexists. vm_compute. reflexivity. Qed.

(** Two spectra in nm on different grids. *)
Definition band_world : world :=
  World [OArr [400; 600]%float; OArr [10; 10]%float; ODict ∅;
         OList [created_record 0];
         OArr [300; 500; 700]%float; OArr [1; 2; 3]%float; ODict ∅;
         OList [created_record 2]] 4.

(** The frequencies of the two grids in Hz, as [convert_units] works them
    out: both decrease. *)
Definition band_a_hz : list float :=
  [749481144999999.88; 499654096666666.62]%float.

Definition band_b_hz : list float :=
  [999308193333333.25; 599584915999999.88; 428274939999999.94]%float.

Ltac absurd_order H :=
  let Ha := fresh in
  let Hb := fresh in
  vm_compute in H; destruct H as [[Ha Hb]|[Ha Hb]];
  first [discriminate Ha | discriminate Hb].

(** C9: on a frequency axis the code does not interpolate as the
    specification, and its own docstring, say.  The spectra [a] (flux
    [[10, 10]] at 400 and 600 nm) and [b] (flux [[1, 2, 3]] at 300, 500 and
    700 nm) are converted to Hz by [convert_units]; their grids now decrease.
    Both points of [a] lie between samples of [b], and
    [subtract_spectra(a, b, interpolate=True)] returns the flux [[7, 7]]: it
    subtracts the last flux value of [b] at both points.  Whatever value [v]
    the piecewise-linear interpolant of [b] has at a point of [a], the flux
    [10 - v] that the specification asks for is greater than [7]. *)
Theorem subtraction_on_a_frequency_axis :
  exists a b r w1 w2 w3,
    convert_units star None (Some "Hz") "wavelength" band_world = (Ok a, w1) /\
    convert_units sky None (Some "Hz") "wavelength" w1 = (Ok b, w2) /\
    holds w2 a band_a_hz [10; 10]%float ∅
      [created_record 0; created_record 4;
       conversion_record 6 "nm" "Hz"] /\
    holds w2 b band_b_hz [1; 2; 3]%float ∅
      [created_record 2; created_record 7;
       conversion_record 9 "nm" "Hz"] /\
    subtract_spectra a b true w2 = (Ok r, w3) /\
    heap w3 !! wavelength r = Some (OArr band_a_hz) /\
    heap w3 !! flux r = Some (OArr [7; 7]%float) /\
    forall i x v,
      band_a_hz !! i = Some x ->
      interpolates band_b_hz [1; 2; 3]%float x v ->
      PrimFloat.ltb 7 (10 - v) = true.
Proof.
  pose (r1 := convert_units star None (Some "Hz") "wavelength" band_world).
  assert (r1 = (Ok (MkSpectrum 8 9 "Hz" "counts" 12 11 (Some "star")),
                snd r1)) as H1 by (vm_compute; reflexivity).
  pose (r2 := convert_units sky None (Some "Hz") "wavelength" (snd r1)).
  assert (r2 = (Ok (MkSpectrum 13 14 "Hz" "Jy" 17 16 (Some "sky")), snd r2))
    as H2 by (vm_compute; reflexivity).
  pose (r3 := subtract_spectra (MkSpectrum 8 9 "Hz" "counts" 12 11 (Some "star"))
                (MkSpectrum 13 14 "Hz" "Jy" 17 16 (Some "sky")) true (snd r2)).
  assert (r3 = (Ok (MkSpectrum 19 18 "Hz" "counts" 22 21 None), snd r3))
    as H3 by (vm_compute; reflexivity).
  exists (MkSpectrum 8 9 "Hz" "counts" 12 11 (Some "star")),
         (MkSpectrum 13 14 "Hz" "Jy" 17 16 (Some "sky")),
         (MkSpectrum 19 18 "Hz" "counts" 22 21 None),
         (snd r1), (snd r2), (snd r3).
  split; [exact H1|]. split; [exact H2|].
  split; [vm_compute; repeat split; reflexivity|].
  split; [vm_compute; repeat split; reflexivity|].
  split; [exact H3|].
  split; [vm_compute; reflexivity|]. split; [vm_compute; reflexivity|].
  intros i x v Hi Hint.
  assert (x = 749481144999999.88%float \/ x = 499654096666666.62%float)
    as Hx.
  { unfold band_a_hz in Hi. destruct i as [|[|i]].
    - left. apply (inj Some) in Hi. now symmetry.
    - right. apply (inj Some) in Hi. now symmetry.
    - exfalso. change (([] : list float) !! i = Some x) in Hi.
      destruct i; inversion Hi. }
  clear Hi.
  destruct Hint as [y0 Hall _|yn Hall _|j xj yj Hj _ He
                    |j xj yj xk yk v Hj Hk Hyj Hyk Hbetween Hline].
  - specialize (Hall 428274939999999.94%float).
    unfold band_b_hz in Hall. rewrite !elem_of_cons in Hall.
    specialize (Hall ltac:(auto)).
    destruct Hx as [-> | ->]; vm_compute in Hall; discriminate Hall.
  - specialize (Hall 999308193333333.25%float).
    unfold band_b_hz in Hall. rewrite !elem_of_cons in Hall.
    specialize (Hall ltac:(auto)).
    destruct Hx as [-> | ->]; vm_compute in Hall; discriminate Hall.
  - unfold band_b_hz in Hj.
    destruct j as [|[|[|j]]];
      [apply (inj Some) in Hj; subst xj ..
      |exfalso; change (([] : list float) !! j = Some xj) in Hj;
       destruct j; inversion Hj];
      destruct Hx as [-> | ->]; vm_compute in He; discriminate He.
  - unfold band_b_hz in Hj, Hk.
    destruct j as [|[|j]];
      [apply (inj Some) in Hj; apply (inj Some) in Hk;
       apply (inj Some) in Hyj; apply (inj Some) in Hyk;
       subst xj xk yj yk ..
      |exfalso; change (([] : list float) !! j = Some xk) in Hk;
       destruct j; inversion Hk];
      destruct Hx as [-> | ->];
      first [ exfalso; absurd_order Hbetween
            | destruct Hline as [Hl|Hl _|Hl _ _];
              [vm_compute; reflexivity
              |vm_compute in Hl; discriminate Hl
              |vm_compute in Hl; discriminate Hl] ].
Qed.

(** * Peak normalization *)

(** A spectrum whose flux is negative throughout. *)
Definition negative_world : world :=
  World [OArr [1; 2]%float; OArr [-2; -4]%float; ODict ∅;
         OList [created_record 0]] 2.

(** C7, as the specification words it, fails.  The flux [[-2, -4]] has the
    maximum [-2]; the normalized flux is [[1, 2]], with the maximum [2].  A
    NaN in the flux, or an infinite maximum, leaves NaN in the result, whose
    maximum is then NaN. *)
Lemma peak_of_negative_flux_is_not_one :
  ~ (forall w s xs ys d p r w',
       holds w s xs ys d p -> ys <> [] ->
       normalize_spectrum s "peak" None None w = (Ok r, w') ->
       exists zs, heap w' !! flux r = Some (OArr zs)
                  /\ np.max zs = Ok 1%float) /\
  (exists r w',
     normalize_spectrum sample_spectrum "peak" None None gap_world
     = (Ok r, w') /\
     heap w' !! flux r = Some (OArr [nan; nan; nan]%float)) /\
  (exists r w',
     normalize_spectrum sample_spectrum "peak" None None edge_world
     = (Ok r, w') /\
     heap w' !! flux r = Some (OArr [0; 0; nan]%float) /\
     np.max [0; 0; nan]%float = Ok nan).
Proof.
  split; [|split].
  - intros H.
    pose (run := normalize_spectrum sample_spectrum "peak" None None
                   negative_world).
    assert (run = (Ok (MkSpectrum 5 4 "nm" "normalized" 8 7 None), snd run))
      as Hrun by (vm_compute; reflexivity).
    destruct (H negative_world sample_spectrum [1; 2]%float [-2; -4]%float ∅
                [created_record 0] _ _
                ltac:(repeat split; reflexivity) ltac:(easy) Hrun)
      as (zs & Hzs & Hmax).
    assert (heap (snd run) !! 4 = Some (OArr [1; 2]%float)) as E
      by (vm_compute; reflexivity).
    cbn [flux] in Hzs. rewrite E in Hzs.
    assert (zs = [1; 2]%float) as -> by congruence.
    apply (f_equal (fun o => match o with
                             | Ok m => PrimFloat.eqb m 1
                             | Raise _ => false
                             end)) in Hmax.
    vm_compute in Hmax. discriminate Hmax.
  - pose (run := normalize_spectrum sample_spectrum "peak" None None
                   gap_world).
    assert (run = (Ok (MkSpectrum 5 4 "nm" "normalized" 8 7 None), snd run))
      as Hrun by (vm_compute; reflexivity).
    exists (MkSpectrum 5 4 "nm" "normalized" 8 7 None), (snd run).
    split; [exact Hrun|]. vm_compute. reflexivity.
  - pose (run := normalize_spectrum sample_spectrum "peak" None None
                   edge_world).
    assert (run = (Ok (MkSpectrum 5 4 "nm" "normalized" 8 7 None), snd run))
      as Hrun by (vm_compute; reflexivity).
    exists (MkSpectrum 5 4 "nm" "normalized" 8 7 None), (snd run).
    split; [exact Hrun|]. split; vm_compute; reflexivity.
Qed.

(** The quotients of a flux without NaN by its maximum, when that is
    positive and finite: their maximum is [1.0]. *)
Lemma max_of_quotients ys peak :
  no_nan ys -> np.max ys = Ok peak ->
  is_finite peak = true -> PrimFloat.ltb 0 peak = true ->
  np.max ((fun y => PrimFloat.div y peak) <$> ys) = Ok 1%float.
Proof.
  intros Hn Hmax Hf Hp.
  destruct ys as [|y0 ys]; [discriminate Hmax|].
  cbn [np.max] in Hmax. injection Hmax as Hmax.
  destruct (fold_maximum_spec ys y0 Hn) as [Hin Hall].
  rewrite Hmax in Hin, Hall.
  assert (forall z, z ∈ (fun y => PrimFloat.div y peak) <$> (y0 :: ys) ->
                    PrimFloat.leb z 1 = true) as Hle.
  { intros z Hz. apply list_elem_of_fmap in Hz.
    destruct Hz as (y & -> & Hy). apply div_le_one; auto. }
  rewrite fmap_cons in *. cbn [np.max]. f_equal.
  destruct (fold_maximum_spec ((fun y => PrimFloat.div y peak) <$> ys)
              (PrimFloat.div y0 peak)) as [Hin' Hall'].
  { intros z Hz. apply Hle in Hz. now apply leb_not_nan in Hz. }
  apply eqb_one. apply leb_antisym_eqb.
  - now apply Hle.
  - apply Hall'.
    change (1%float ∈ (fun y => PrimFloat.div y peak) <$> (y0 :: ys)).
    apply list_elem_of_fmap. exists peak. split; [|exact Hin].
    rewrite (div_self peak (positive_not_zero peak Hp)), Hf. reflexivity.
Qed.

(** C7 (amended): for every spectrum whose flux holds no NaN and has a
    positive, finite maximum, [normalize_spectrum(spectrum, method="peak")]
    without a range returns a spectrum whose flux is the old flux divided by
    that maximum, and the maximum flux value of the result is exactly
    [1.0]. *)
Theorem peak_normalized_maximum_is_exactly_one :
  forall w s xs ys d p peak,
    holds w s xs ys d p -> length xs = length ys ->
    no_nan ys -> np.max ys = Ok peak ->
    is_finite peak = true -> PrimFloat.ltb 0 peak = true ->
    exists r w' zs,
      normalize_spectrum s "peak" None None w = (Ok r, w') /\
      heap w' !! flux r = Some (OArr zs) /\
      length zs = length ys /\
      (forall i y, ys !! i = Some y -> zs !! i = Some (PrimFloat.div y peak)) /\
      np.max zs = Ok 1%float.
Proof.
  intros w s xs ys d p peak Hs Hlen Hn Hmax Hf Hp.
  destruct (normalize_spectrum_run w s xs ys d p "peak" None None ys peak
              Hs Hlen eq_refl Hmax (positive_not_zero peak Hp))
    as (r & w' & Hrun & Hr).
  exists r, w', ((fun y => PrimFloat.div y peak) <$> ys).
  split; [exact Hrun|]. split; [apply Hr|].
  split; [apply length_fmap|]. split.
  - intros i y Hy. now rewrite list_lookup_fmap, Hy.
  - now apply max_of_quotients.
Qed.

Lemma peak_normalized_maximum_is_exactly_one_witness :
  exists r w' zs,
    normalize_spectrum sample_spectrum "peak" None None sample_world
    = (Ok r, w') /\
    heap w' !! flux r = Some (OArr zs) /\
    zs !! 4 = Some (50 / 50)%float /\
    np.max zs = Ok 1%float.
Proof.
  destruct (peak_normalized_maximum_is_exactly_one sample_world
              sample_spectrum [1; 2; 3; 4; 5]%float
              [10; 20; 30; 40; 50]%float ∅ [created_record 0] 50%float)
    as (r & w' & zs & Hrun & Hzs & _ & Hpt & Hmax);
    [repeat split; reflexivity|reflexivity| |reflexivity
    |reflexivity|reflexivity|].
  - intros y Hy.
    repeat (apply elem_of_cons in Hy; destruct Hy as [->|Hy];
            [reflexivity|]).
    now apply elem_of_nil in Hy.
  - exists r, w', zs. split; [exact Hrun|]. split; [exact Hzs|].
    split; [apply (Hpt 4 50%float); reflexivity|exact Hmax].
Defined.
